(** * Kinetic Monte Carlo core of chombo-discharge: a shallow embedding

    The development follows the C++ sources under
    [Source/KineticMonteCarlo]:

    - [CD_KMCDualStateImplem.H], [CD_KMCSingleStateImplem.H]      (states)
    - [CD_KMCDualStateReactionImplem.H],
      [CD_KMCSingleStateReactionImplem.H]                          (reactions)
    - [CD_KMCSolverImplem.H]                                       (solver)

    Conventions.

    - The integer template parameter [T] is taken at [long long], the type
      the solver draws its Poisson numbers in and rounds [llround] results
      to: a 64-bit signed integer, embedded in [Z] with the two's-complement
      wrap-around written out ([wrap]).
    - [Real] is embedded as exact rational arithmetic ([Q]); rounding of
      IEEE doubles is not modelled, and neither is a result that leaves
      their range (an overflow to an infinity, an underflow to zero).
      Where a conclusion is about the sign or the size of a [Real] the
      code computes, the theorem assumes that the values formed stay in
      range ([leapInRange], [productsInRange]); the theorems about which
      state is committed, how many draws are made or what an integer
      entry becomes do not depend on it.  [std::numeric_limits<Real>::max()] and
      [::min()] are the exact rational values of the largest finite and the
      smallest normal double.  A quotient by zero is [0] in [Q] where IEEE
      gives an infinity or a NaN; no result below rests on such a quotient
      (the divisions met are guarded by the code or have a non-zero
      divisor on the inputs considered).
    - [size_t] indices and element counters are natural numbers.
    - [std::vector<T>] is [list Z]; [std::map<size_t, T>] is an association
      list kept sorted by key, so that iteration visits the keys in
      increasing order as [std::map] does.
    - The build modelled is the release build: [CH_assert] and the
      [#ifndef NDEBUG] sanity checks compile to nothing.  Indexing a vector
      out of range is undefined in C++; the embedding reads [0] and ignores
      the write there, and the theorems that depend on it assume the
      reaction's [sanityCheck].
    - The process-wide random source is an explicit oracle ([Rng]) threaded
      through every call that draws from it. *)

From Stdlib Require Import ZArith QArith Qabs Qround List Bool Arith Lia Lqa Permutation Sorted.
Import ListNotations.

Local Open Scope Z_scope.

(** ** The integer type [T = long long] *)

Module TInt.

Definition T_min : Z := - 2 ^ 63.
Definition T_max : Z := 2 ^ 63 - 1.

(** Membership in the value range of [T]. *)
Definition in_T (z : Z) : Prop := T_min <= z <= T_max.

(** Two's-complement reduction of a mathematical integer to [T]. *)
Definition wrap (z : Z) : Z := (z + 2 ^ 63) mod 2 ^ 64 - 2 ^ 63.

Definition T_add (a b : Z) : Z := wrap (a + b).
Definition T_sub (a b : Z) : Z := wrap (a - b).
Definition T_mul (a b : Z) : Z := wrap (a * b).
Definition T_neg (a : Z) : Z := wrap (- a).

(** [std::abs] on [T]. *)
Definition T_abs (a : Z) : Z := wrap (Z.abs a).

(** Integer division of C++: truncation toward zero. *)
Definition T_div (a b : Z) : Z := wrap (Z.quot a b).

(** [std::min] and [std::max] on [T]. *)
Definition T_stdmin (a b : Z) : Z := if b <? a then b else a.
Definition T_stdmax (a b : Z) : Z := if a <? b then b else a.

End TInt.
Import TInt.

(** ** [std::vector<T>] *)

Module Vec.

(** [v[k]] as an rvalue. *)
Definition get (v : list Z) (k : nat) : Z := nth k v 0.

(** [v[k] = f (v[k])]. *)
Fixpoint upd (v : list Z) (k : nat) (f : Z -> Z) : list Z :=
  match v, k with
  | [], _ => []
  | x :: v', O => f x :: v'
  | x :: v', S k' => x :: upd v' k' f
  end.

(** [v.resize (n)]: the first [n] entries stay, the entries the vector
    lacks are value-initialised. *)
Definition resize (v : list Z) (n : nat) : list Z :=
  firstn n v ++ repeat 0 (n - length v).

End Vec.

(** ** [std::map<size_t, V>] as a key-sorted association list *)

Module StdMap.

Definition t (V : Type) : Type := list (nat * V).

(** [m.find(k)]: [None] stands for [m.end()]. *)
Fixpoint find {V} (k : nat) (m : t V) : option V :=
  match m with
  | [] => None
  | (k', v) :: m' => if Nat.eqb k k' then Some v else find k m'
  end.

(** [m[k] = v]: overwrite or insert at the sorted position. *)
Fixpoint assign {V} (k : nat) (v : V) (m : t V) : t V :=
  match m with
  | [] => [(k, v)]
  | (k', v') :: m' =>
      match Nat.compare k k' with
      | Lt => (k, v) :: m
      | Eq => (k, v) :: m'
      | Gt => (k', v') :: assign k v m'
      end
  end.

(** [m.emplace(k, v)]: inserts only when the key is absent. *)
Definition emplace {V} (k : nat) (v : V) (m : t V) : t V :=
  match find k m with
  | None => assign k v m
  | Some _ => m
  end.

Definition keys {V} (m : t V) : list nat := map fst m.

Definition sorted {V} (m : t V) : Prop := StronglySorted lt (keys m).

End StdMap.

(** The loop body shared by every pass of [computeStateChanges]:
    [if (m.find(k) == m.end()) m.emplace(k, delta); else m[k] += delta;]
    with [delta = -1] for [m[k]--] and [delta = +1] for [m[k]++]. *)
Definition tally (delta : Z) (m : StdMap.t Z) (k : nat) : StdMap.t Z :=
  match StdMap.find k m with
  | None => StdMap.emplace k delta m
  | Some v => StdMap.assign k (T_add v delta) m
  end.

(** The [reactantNumbers] pass: a [std::map<size_t, size_t>] of multiplicities. *)
Definition countUp (m : StdMap.t nat) (k : nat) : StdMap.t nat :=
  match StdMap.find k m with
  | None => StdMap.emplace k 1%nat m
  | Some c => StdMap.assign k (S c) m
  end.

(** The [factorial] lambda: [T fac = 1; for (T i = 2; i <= N; i++) fac *= i;]. *)
Definition factorial (N : Z) : Z :=
  fold_left (fun fac i => T_mul fac i)
            (map Z.of_nat (seq 2 (Z.to_nat N - 1))) 1.

(** [m_propensityFactor = 1.0; for (rn : reactantNumbers) m_propensityFactor *= 1.0 / factorial(rn.second);] *)
Definition computePropensityFactor (reactants : list nat) : Q :=
  let reactantNumbers := fold_left countUp reactants [] in
  fold_left (fun pf rn => (pf * (1 / inject_Z (factorial (Z.of_nat (snd rn)))))%Q)
            reactantNumbers 1%Q.

(** [for (s : changes) state[s.first] += numReactions * s.second;] *)
Definition applyChanges (changes : StdMap.t Z) (n : Z) (state : list Z) : list Z :=
  fold_left (fun st s => Vec.upd st (fst s) (fun x => T_add x (T_mul n (snd s))))
            changes state.

(** The loop of [computeCriticalNumberOfReactions]. *)
Definition criticalLoop (changes : StdMap.t Z) (state : list Z) : Z :=
  fold_left (fun Lj s =>
               let rI := fst s in
               let nuIJ := snd s in
               if nuIJ <? 0
               then T_stdmin Lj (T_div (Vec.get state rI) (T_abs nuIJ))
               else Lj)
            changes T_max.

(** The loop of [propensity]: [A *= state[r]; state[r]--;] on a copy of the
    reactive populations. *)
Definition propensityLoop (A0 : Q) (reactants : list nat) (state : list Z) : Q * list Z :=
  fold_left (fun acc r =>
               let '(A, st) := acc in
               ((A * inject_Z (Vec.get st r))%Q, Vec.upd st r (fun x => T_sub x 1)))
            reactants (A0, state).

(** ** KMCDualState *)

Module DualState.

Record KMCDualState : Type := mkState {
  m_reactiveState : list Z;
  m_nonReactiveState : list Z
}.

(** [define] resizes the two vectors of the state it is called on: the
    entries already there stay, the new ones are zero.
    [m_numReactiveSpecies] and [m_numNonReactiveSpecies] are the two sizes
    from then on. *)
Definition define (s : KMCDualState) (numReactive numNonReactive : nat) : KMCDualState :=
  mkState (Vec.resize (m_reactiveState s) numReactive)
          (Vec.resize (m_nonReactiveState s) numNonReactive).


Definition m_numReactiveSpecies (s : KMCDualState) : nat := length (m_reactiveState s).
Definition m_numNonReactiveSpecies (s : KMCDualState) : nat := length (m_nonReactiveState s).

(** Two loops, each leaving with [isValid = false] at the first negative entry. *)
Definition isValidState (s : KMCDualState) : bool :=
  let isValid := true in
  let isValid := if existsb (fun p => p <? 0) (m_reactiveState s) then false else isValid in
  let isValid := if existsb (fun p => p <? 0) (m_nonReactiveState s) then false else isValid in
  isValid.

Definition linearOut (s : KMCDualState) : list Z :=
  [] ++ m_reactiveState s ++ m_nonReactiveState s.

(** [linearIn] copies [a_linearizedState[i]] for [i] below the two species
    counts; the vectors keep their sizes. *)
Definition linearIn (s : KMCDualState) (lin : list Z) : KMCDualState :=
  let nR := m_numReactiveSpecies s in
  let nN := m_numNonReactiveSpecies s in
  mkState (map (fun i => Vec.get lin i) (seq 0 nR))
          (map (fun i => Vec.get lin (nR + i)) (seq 0 nN)).

End DualState.
Import DualState.

(** ** KMCDualStateReaction *)

Module DualReaction.

Record KMCDualStateReaction : Type := mkReaction {
  m_lhsReactives : list nat;
  m_rhsReactives : list nat;
  m_rhsNonReactives : list nat;
  m_rate : Q;
  m_reactiveStateChange : StdMap.t Z;
  m_nonReactiveStateChange : StdMap.t Z;
  m_propensityFactor : Q
}.

(** The three passes of [computeStateChanges] over the member maps. *)
Definition computeReactiveStateChange (lhs rhs : list nat) : StdMap.t Z :=
  fold_left (tally 1) rhs (fold_left (tally (-1)) lhs []).

Definition computeNonReactiveStateChange (rhsNon : list nat) : StdMap.t Z :=
  fold_left (tally 1) rhsNon [].

(** The constructor, followed by [rate() = rate]. *)
Definition create (lhs rhs rhsNon : list nat) (rate : Q) : KMCDualStateReaction :=
  {| m_lhsReactives := lhs;
     m_rhsReactives := rhs;
     m_rhsNonReactives := rhsNon;
     m_rate := rate;
     m_reactiveStateChange := computeReactiveStateChange lhs rhs;
     m_nonReactiveStateChange := computeNonReactiveStateChange rhsNon;
     m_propensityFactor := computePropensityFactor lhs |}.

Definition population (a_reactant : nat) (a_state : KMCDualState) : Z :=
  Vec.get (m_reactiveState a_state) a_reactant.

(** [A = m_rate * m_propensityFactor], then the loop.  The product is
    exact; the code's [Real] is its rounding as long as no factor
    underflows and no partial product overflows ([productsInRange]). *)
Definition propensity (r : KMCDualStateReaction) (a_state : KMCDualState) : Q :=
  fst (propensityLoop (m_rate r * m_propensityFactor r)%Q
                      (m_lhsReactives r) (m_reactiveState a_state)).

Definition computeCriticalNumberOfReactions (r : KMCDualStateReaction) (a_state : KMCDualState) : Z :=
  criticalLoop (m_reactiveStateChange r) (m_reactiveState a_state).

Definition getReactants (r : KMCDualStateReaction) : list nat := m_lhsReactives r.

Definition getStateChange (r : KMCDualStateReaction) (a_particleReactant : nat) : Z :=
  match StdMap.find a_particleReactant (m_reactiveStateChange r) with
  | Some nuIJ => nuIJ
  | None => 0
  end.

Definition advanceState (r : KMCDualStateReaction) (a_state : KMCDualState) (a_numReactions : Z)
  : KMCDualState :=
  mkState (applyChanges (m_reactiveStateChange r) a_numReactions (m_reactiveState a_state))
          (applyChanges (m_nonReactiveStateChange r) a_numReactions (m_nonReactiveState a_state)).

(** [sanityCheck]: every species index of the reaction is inside the state. *)
Definition sanityCheck (r : KMCDualStateReaction) (a_state : KMCDualState) : bool :=
  forallb (fun idx => Nat.ltb idx (length (m_reactiveState a_state))) (m_lhsReactives r)
  && forallb (fun idx => Nat.ltb idx (length (m_reactiveState a_state))) (m_rhsReactives r)
  && forallb (fun idx => Nat.ltb idx (length (m_nonReactiveState a_state))) (m_rhsNonReactives r).

End DualReaction.

(** ** KMCSingleState and KMCSingleStateReaction *)

Module SingleState.

Record KMCSingleState : Type := mkState { m_state : list Z }.

Definition isValidState (s : KMCSingleState) : bool :=
  if existsb (fun p => p <? 0) (m_state s) then false else true.

Definition linearOut (s : KMCSingleState) : list Z := m_state s.
Definition linearIn (s : KMCSingleState) (lin : list Z) : KMCSingleState := mkState lin.

End SingleState.

Module SingleReaction.
Import SingleState.

Record KMCSingleStateReaction : Type := mkReaction {
  m_reactants : list nat;
  m_products : list nat;
  m_rate : Q;
  m_stateChange : StdMap.t Z;
  m_propensityFactor : Q
}.

Definition computeStateChange (reactants products : list nat) : StdMap.t Z :=
  fold_left (tally 1) products (fold_left (tally (-1)) reactants []).

(** Modelled from the spec: the function [factorial] that the single-state
    [computeStateChanges] calls is declared outside the sources (the
    dual-state reaction has a lambda of its own).  The specification has
    the factor of a reactant species of multiplicity [k] be [1 / k!], so
    [factorial k] is [k!]. *)
Definition factorial (k : nat) : Z := Z.of_nat (fact k).

(** The [reactantNumbers] pass, then
    [m_propensityFactor *= 1.0 / factorial(rn.second)]. *)
Definition computePropensityFactor (reactants : list nat) : Q :=
  let reactantNumbers := fold_left countUp reactants [] in
  fold_left (fun pf rn => (pf * (1 / inject_Z (factorial (snd rn))))%Q)
            reactantNumbers 1%Q.

Definition create (reactants products : list nat) (rate : Q) : KMCSingleStateReaction :=
  {| m_reactants := reactants;
     m_products := products;
     m_rate := rate;
     m_stateChange := computeStateChange reactants products;
     m_propensityFactor := computePropensityFactor reactants |}.

Definition population (a_reactant : nat) (a_state : KMCSingleState) : Z :=
  Vec.get (m_state a_state) a_reactant.

Definition propensity (r : KMCSingleStateReaction) (a_state : KMCSingleState) : Q :=
  fst (propensityLoop (m_rate r * m_propensityFactor r)%Q (m_reactants r) (m_state a_state)).

Definition computeCriticalNumberOfReactions (r : KMCSingleStateReaction) (a_state : KMCSingleState) : Z :=
  criticalLoop (m_stateChange r) (m_state a_state).

Definition getStateChange (r : KMCSingleStateReaction) (a_particleReactant : nat) : Z :=
  match StdMap.find a_particleReactant (m_stateChange r) with
  | Some nuIJ => nuIJ
  | None => 0
  end.

Definition advanceState (r : KMCSingleStateReaction) (a_state : KMCSingleState) (a_numReactions : Z)
  : KMCSingleState :=
  mkState (applyChanges (m_stateChange r) a_numReactions (m_state a_state)).

End SingleReaction.

(** ** [Real] arithmetic *)

Module RealModel.

(** [std::numeric_limits<Real>::max()] and [::min()] for IEEE doubles. *)
Definition Real_max : Q := inject_Z (2 ^ 1024 - 2 ^ 971).
Definition Real_min : Q := 1 # (2 ^ 1022).

Definition Rltb (a b : Q) : bool := negb (Qle_bool b a).
Definition Rleb (a b : Q) : bool := Qle_bool a b.

(** [std::min(a, b)] is [(b < a) ? b : a]; [std::max(a, b)] is [(a < b) ? b : a]. *)
Definition Rstdmin (a b : Q) : Q := if Rltb b a then b else a.
Definition Rstdmax (a b : Q) : Q := if Rltb a b then b else a.

(** [llround]: nearest integer, halfway cases away from zero. *)
Definition llround (x : Q) : Z :=
  if Rltb x 0 then Qceiling (x - (1 # 2)) else Qfloor (x + (1 # 2)).

(** [std::ceil]. *)
Definition ceil (x : Q) : Z := Qceiling x.

(** Sum of a vector, accumulated from [0.0] in index order. *)
Definition Rsum (l : list Q) : Q := fold_left Qplus l 0%Q.

End RealModel.
Import RealModel.

(** ** The random source and the result monad *)

Module Effects.

(** Modelled from the spec: the process-wide random source [Random]
    ([CD_Random.H] is not among the sources) supplies uniform reals and
    Poisson variates from one logical stream.  The [n]-th uniform draw and
    the [n]-th Poisson draw (which may depend on the requested mean) are
    given by an oracle; the two counters record how many draws were
    consumed. *)
Record Rng : Type := mkRng {
  uniformOracle : nat -> Q;
  poissonOracle : nat -> Q -> Z;
  uniformCount : nat;
  poissonCount : nat
}.

(** How a call ends: it returns, it aborts the process, the behaviour is
    undefined (a vector indexed past its end), or the embedding ran out of
    loop fuel. *)
Inductive Outcome (A : Type) : Type :=
| Ret (a : A)
| Abort
| Undefined
| OutOfFuel.
Arguments Ret {A} a.
Arguments Abort {A}.
Arguments Undefined {A}.
Arguments OutOfFuel {A}.

Definition Comp (A : Type) : Type := Rng -> Outcome (A * Rng)%type.

Definition ret {A} (a : A) : Comp A := fun g => Ret (a, g).

Definition bind {A B} (c : Comp A) (k : A -> Comp B) : Comp B :=
  fun g => match c g with
           | Ret (a, g') => k a g'
           | Abort => Abort
           | Undefined => Undefined
           | OutOfFuel => OutOfFuel
           end.

Definition undefined {A} : Comp A := fun _ => Undefined.
Definition outOfFuel {A} : Comp A := fun _ => OutOfFuel.

(** Modelled from the spec: [MayDay::Error] (Chombo's [MayDay.H] is not
    among the sources) reports a fatal programmer error and aborts the
    process; it does not return. *)
Definition mayDayError {A} : Comp A := fun _ => Abort.

(** [Random::getUniformReal01()]. *)
Definition getUniformReal01 : Comp Q :=
  fun g => Ret (uniformOracle g (uniformCount g),
                mkRng (uniformOracle g) (poissonOracle g) (S (uniformCount g)) (poissonCount g)).

(** [Random::getPoisson<long long>(mean)]. *)
Definition getPoisson (mean : Q) : Comp Z :=
  fun g => Ret (poissonOracle g (poissonCount g) mean,
                mkRng (uniformOracle g) (poissonOracle g) (uniformCount g) (S (poissonCount g))).

(** A [for] loop over a list with a monadic body. *)
Fixpoint forM {A S} (body : S -> A -> Comp S) (l : list A) (s : S) : Comp S :=
  match l with
  | [] => ret s
  | x :: l' => bind (body s x) (forM body l')
  end.

End Effects.
Import Effects.

Notation "x <- c ;; k" := (bind c (fun x => k))
  (at level 61, c at next level, right associativity).

(** ** KMCSolver *)

Module Solver.
Import DualReaction.

Definition ReactionList : Type := list KMCDualStateReaction.

(** Modelled from the spec: the selector of the leaping scheme
    ([CD_KMCSolver.H], which declares the enumeration, is not among the
    sources).  The four named enumerators are the [case] labels of the
    drivers; [Unrecognized tag] is any other value of the enumeration's
    underlying integer type, which the [switch] statements send to
    [default]. *)
Inductive KMCLeapPropagator : Type :=
| ExplicitEuler
| Midpoint
| PRC
| ImplicitEuler
| Unrecognized (tag : Z).

Record KMCSolver : Type := mkSolver {
  m_reactions : ReactionList;
  m_Ncrit : Z;
  m_numSSA : Z;
  m_maxIter : Z;
  m_eps : Q;
  m_SSAlim : Q;
  m_exitTol : Q
}.

Definition setSolverParameters (sv : KMCSolver) (Ncrit numSSA maxIter : Z) (eps SSAlim exitTol : Q)
  : KMCSolver :=
  mkSolver (m_reactions sv) Ncrit numSSA maxIter eps SSAlim exitTol.

Definition define (a_reactions : ReactionList) : KMCSolver :=
  setSolverParameters (mkSolver a_reactions 0 0 0 0 0 0) 0 0 100 Real_max 0 (1 # 1000000).

Definition getNu (a_state : KMCDualState) (a_reactions : ReactionList) : list (list Z) :=
  map (fun rj =>
         let state := a_state in
         let preState := map (fun _ => 0) (linearOut state) in
         let state := linearIn state preState in
         let state := advanceState rj state 1 in
         let postState := linearOut state in
         map (fun i => T_sub (Vec.get postState i) (Vec.get preState i))
             (seq 0 (length preState)))
      a_reactions.

Definition propensities (a_state : KMCDualState) (a_reactions : ReactionList) : list Q :=
  map (fun r => propensity r a_state) a_reactions.

Definition totalPropensity (a_state : KMCDualState) (a_reactions : ReactionList) : Q :=
  fold_left (fun A r => (A + propensity r a_state)%Q) a_reactions 0%Q.

Definition partitionReactions (sv : KMCSolver) (a_state : KMCDualState) (a_reactions : ReactionList)
  : ReactionList * ReactionList :=
  fold_left (fun acc r =>
               let '(criticalReactions, nonCriticalReactions) := acc in
               let Lj := computeCriticalNumberOfReactions r a_state in
               if Lj <? m_Ncrit sv
               then (criticalReactions ++ [r], nonCriticalReactions)
               else (criticalReactions, nonCriticalReactions ++ [r]))
            a_reactions ([], []).

(** [std::unique] followed by [resize]: every run of equal neighbours is
    reduced to its first element. *)
Fixpoint unique (l : list nat) : list nat :=
  match l with
  | [] => []
  | x :: l' =>
      match l' with
      | [] => [x]
      | y :: _ => if Nat.eqb x y then unique l' else x :: unique l'
      end
  end.

(** The accumulation of [mu] and [sigma2] for one reactant; the reactions
    and their propensities are walked in step (their sizes agree). *)
Definition muSigma2 (reactant : nat) (a_reactions : ReactionList) (a_propensities : list Q) : Q * Q :=
  fold_left (fun acc rp =>
               let '(mu, sigma2) := acc in
               let p := snd rp in
               let muIJ := getStateChange (fst rp) reactant in
               ((mu + Qabs (inject_Z muIJ * p))%Q,
                (sigma2 + Qabs (inject_Z (T_mul muIJ muIJ) * p))%Q))
            (combine a_reactions a_propensities) (0%Q, 0%Q).

(** The step bound contributed by one reactant whose population is
    positive.  The quotients are exact; the code's [Real] is their rounding
    as long as [eps * Xi], [f * f], [mu] and [sigma2] do not overflow
    ([leapInRange]). *)
Definition reactantBound (sv : KMCSolver) (Xi : Z) (mu sigma2 : Q) : Q :=
  let gi := 4%Q in
  let f := Rstdmax (m_eps sv * inject_Z Xi / gi)%Q 1%Q in
  let dt1 := if Rltb Real_min mu then (f / mu)%Q else Real_max in
  let dt2 := if Rltb Real_min sigma2 then ((f * f) / sigma2)%Q else Real_max in
  Rstdmin dt1 dt2.

Definition gatherReactants (a_reactions : ReactionList) : list nat :=
  match a_reactions with
  | [] => []
  | r0 :: rest =>
      unique (fold_left (fun all r => all ++ getReactants r) rest (getReactants r0))
  end.

Definition getNonCriticalTimeStep (sv : KMCSolver) (a_state : KMCDualState)
           (a_nonCriticalReactions : ReactionList) (a_nonCriticalPropensities : list Q) : Q :=
  match a_nonCriticalReactions with
  | [] => Real_max
  | _ :: _ =>
      fold_left (fun dt reactant =>
                   let Xi := population reactant a_state in
                   if 0 <? Xi
                   then
                     let '(mu, sigma2) :=
                       muSigma2 reactant a_nonCriticalReactions a_nonCriticalPropensities in
                     Rstdmin dt (reactantBound sv Xi mu sigma2)
                   else dt)
                (gatherReactants a_nonCriticalReactions) Real_max
  end.

(** The selection loop of [stepSSA]: [r] stays at
    [std::numeric_limits<size_t>::max()] ([None]) when no cumulative sum
    reaches the threshold. *)
Fixpoint selectReaction (a_propensities : list Q) (threshold sumProp : Q) (i : nat) : option nat :=
  match a_propensities with
  | [] => None
  | p :: rest =>
      let sumProp := (sumProp + p)%Q in
      if Rleb threshold sumProp then Some i else selectReaction rest threshold sumProp (S i)
  end.

Definition stepSSA (a_state : KMCDualState) (a_reactions : ReactionList) (a_propensities : list Q)
  : Comp KMCDualState :=
  match a_reactions with
  | [] => ret a_state
  | _ :: _ =>
      let A := Rsum (firstn (length a_reactions) a_propensities) in
      u <- getUniformReal01 ;;
      match selectReaction (firstn (length a_reactions) a_propensities) (u * A)%Q 0%Q 0%nat with
      | Some r =>
          match nth_error a_reactions r with
          | Some reaction => ret (advanceState reaction a_state 1)
          | None => undefined
          end
      | None => undefined
      end
  end.

(** The Poisson firing loop shared by the three explicit leaping schemes:
    [for i: advanceState(a_state, (T) getPoisson(a[i] * a_dt))]. *)
Definition poissonLoop (a_state : KMCDualState) (a_reactions : ReactionList) (a : list Q) (a_dt : Q)
  : Comp KMCDualState :=
  forM (fun st rp =>
          k <- getPoisson (snd rp * a_dt)%Q ;;
          ret (advanceState (fst rp) st (wrap k)))
       (combine a_reactions a) a_state.

Definition stepExplicitEuler (a_state : KMCDualState) (a_reactions : ReactionList) (a_dt : Q)
  : Comp KMCDualState :=
  match a_reactions with
  | [] => ret a_state
  | _ :: _ =>
      let propensities := propensities a_state a_reactions in
      poissonLoop a_state a_reactions propensities a_dt
  end.

Definition stepMidpoint (a_state : KMCDualState) (a_reactions : ReactionList) (a_dt : Q)
  : Comp KMCDualState :=
  match a_reactions with
  | [] => ret a_state
  | _ :: _ =>
      let props := propensities a_state a_reactions in
      let Xdagger :=
        fold_left (fun X rp =>
                     advanceState (fst rp) X (wrap (ceil ((1 # 2) * snd rp * a_dt)%Q)))
                  (combine a_reactions props) a_state in
      let props := propensities Xdagger a_reactions in
      poissonLoop a_state a_reactions props a_dt
  end.

Definition stepPRC (a_state : KMCDualState) (a_reactions : ReactionList) (a_dt : Q)
  : Comp KMCDualState :=
  match a_reactions with
  | [] => ret a_state
  | _ :: _ =>
      let ak := propensities a_state a_reactions in
      let aj :=
        map (fun jr =>
               fold_left (fun ajj kr =>
                            let x := advanceState (fst kr) a_state 1 in
                            let etajk := (propensity (fst jr) x - snd jr)%Q in
                            (ajj + (1 # 2) * a_dt * snd kr * etajk)%Q)
                         (combine a_reactions ak) (snd jr))
            (combine a_reactions ak) in
      poissonLoop a_state a_reactions aj a_dt
  end.

(** The external routines the solver calls: [log] of the C library and
    LAPACK's [dgesv_] (order, column-major matrix, right-hand side; returns
    [INFO] and the solution written over the right-hand side). *)
Section WithExternalRoutines.

Variable log : Q -> Q.
Variable dgesv : nat -> list Q -> list Q -> Z * list Q.

(** [getCriticalTimeStep(const Real&)].  The quotient is exact: it is the
    code's [Real] up to rounding for a finite, non-zero
    [a_totalPropensity] and a quotient in the range of [Real]; at
    [a_totalPropensity = 0] the code has an infinity and the embedding [0]. *)
Definition getCriticalTimeStep (a_totalPropensity : Q) : Comp Q :=
  u0 <- getUniformReal01 ;;
  let u := (Real_min + u0)%Q in
  ret (log (1 / u) / a_totalPropensity)%Q.

(** [getCriticalTimeStep(const std::vector<Real>&)]. *)
Definition getCriticalTimeStepOfPropensities (a_propensities : list Q) : Comp Q :=
  let A := fold_left Qplus a_propensities Real_min in
  getCriticalTimeStep A.

(** The [switch] of [advanceTau].  The implicit scheme is passed in because
    [stepImplicitEuler] itself runs [advanceTau] with [ExplicitEuler]. *)
Definition tauSwitch (implicit : KMCDualState -> ReactionList -> Q -> Comp KMCDualState)
           (a_leapPropagator : KMCLeapPropagator)
           (state : KMCDualState) (a_reactions : ReactionList) (curDt : Q) : Comp KMCDualState :=
  match a_leapPropagator with
  | ExplicitEuler => stepExplicitEuler state a_reactions curDt
  | Midpoint => stepMidpoint state a_reactions curDt
  | PRC => stepPRC state a_reactions curDt
  | ImplicitEuler => implicit state a_reactions curDt
  | Unrecognized _ => ret state
  end.

(** The two nested loops of [advanceTau], one trial per unit of fuel: a
    valid trial is committed and the outer loop re-entered with
    [curDt = a_dt - curTime]; an invalid one is discarded and retried with
    [curDt] halved. *)
Fixpoint advanceTauLoop (implicit : KMCDualState -> ReactionList -> Q -> Comp KMCDualState)
         (a_reactions : ReactionList) (a_dt : Q) (a_leapPropagator : KMCLeapPropagator)
         (fuel : nat) (a_state : KMCDualState) (curTime curDt : Q) : Comp KMCDualState :=
  match fuel with
  | O => outOfFuel
  | S fuel' =>
      state <- tauSwitch implicit a_leapPropagator a_state a_reactions curDt ;;
      if isValidState state
      then
        let curTime := (curTime + curDt)%Q in
        if Rltb curTime a_dt
        then advanceTauLoop implicit a_reactions a_dt a_leapPropagator fuel' state
                            curTime (a_dt - curTime)%Q
        else ret state
      else
        advanceTauLoop implicit a_reactions a_dt a_leapPropagator fuel' a_state
                       curTime (curDt * (1 # 2))%Q
  end.

Definition advanceTauWith (implicit : KMCDualState -> ReactionList -> Q -> Comp KMCDualState)
           (fuel : nat) (a_state : KMCDualState) (a_reactions : ReactionList) (a_dt : Q)
           (a_leapPropagator : KMCLeapPropagator) : Comp KMCDualState :=
  match a_reactions with
  | [] => ret a_state
  | _ :: _ =>
      let curTime := 0%Q in
      if Rltb curTime a_dt
      then advanceTauLoop implicit a_reactions a_dt a_leapPropagator fuel a_state
                          curTime (a_dt - curTime)%Q
      else ret a_state
  end.

(** *** Implicit Euler *)

(** [double*] buffers: reading and the element-wise loops over [i < N]. *)
Definition rget (v : list Q) (i : nat) : Q := nth i v 0%Q.

Definition tabulate (N : nat) (f : nat -> Q) : list Q := map f (seq 0 N).

Fixpoint rupd (v : list Q) (k : nat) (f : Q -> Q) : list Q :=
  match v, k with
  | [], _ => []
  | x :: v', O => f x :: v'
  | x :: v', S k' => x :: rupd v' k' f
  end.

Section ImplicitEuler.

Variable sv : KMCSolver.
Variable a_state : KMCDualState.
Variable a_reactions : ReactionList.
Variable a_dt : Q.

Let inputState : list Z := linearOut a_state.
Let nu : list (list Z) := getNu a_state a_reactions.
Let ajX : list Q := propensities a_state a_reactions.
Let N : nat := length inputState.
Let M : nat := length a_reactions.

(** The lambda [compConstantTerm]; returns the buffers [C] and [X]. *)
Definition compConstantTerm (fuel : nat) (state : KMCDualState) : Comp (list Q * list Q)%type :=
  explicitEulerState <-
    advanceTauWith (fun _ _ _ => undefined) fuel state a_reactions a_dt ExplicitEuler ;;
  let eulerOut := linearOut explicitEulerState in
  let C := tabulate N (fun i => 1 * inject_Z (Vec.get eulerOut i))%Q in
  let X := tabulate N (fun i => 1 * inject_Z (Vec.get eulerOut i))%Q in
  let C :=
    fold_left (fun C j =>
                 let nuj := nth j nu [] in
                 tabulate N (fun i => rget C i - inject_Z (Vec.get nuj i) * rget ajX j * a_dt)%Q)
              (seq 0 M) C in
  ret (C, X).

(** The lambda [computeF].  The propensities of the rounded iterate are
    taken over the solver's own [m_reactions]. *)
Definition computeF (Xit C : list Q) : list Q :=
  let stateXit := a_state in
  let linState := map (fun i => wrap (llround (rget Xit i))) (seq 0 N) in
  let stateXit := linearIn stateXit linState in
  let ajXit := propensities stateXit (m_reactions sv) in
  let F := tabulate N (fun i => rget Xit i - rget C i)%Q in
  fold_left (fun F j =>
               let nuj := nth j nu [] in
               tabulate N (fun i => rget F i - a_dt * inject_Z (Vec.get nuj i) * rget ajXit j)%Q)
            (seq 0 M) F.

(** The lambda [computeNorm]: the max-norm of [F]. *)
Definition computeNorm (X C : list Q) : Q :=
  fold_left (fun norm Fi => Rstdmax norm (Qabs Fi)) (computeF X C) 0%Q.

(** The finite-difference Jacobian, column after column ([J[i + j * N]]). *)
Definition jacobian (X C : list Q) : list Q :=
  flat_map (fun j =>
              let X1 := X in
              let X2 := rupd X j (fun x => x + Rstdmax ((1 # 100) * rget X j) 1)%Q in
              let F1 := computeF X1 C in
              let F2 := computeF X2 C in
              tabulate N (fun i => (rget F2 i - rget F1 i) / (rget X2 j - rget X1 j))%Q)
           (seq 0 N).

(** The Newton loop; returns the last iterate and the flag [converged]. *)
Fixpoint newtonLoop (iterations : nat) (initNorm : Q) (X C : list Q) : list Q * bool :=
  match iterations with
  | O => (X, true)
  | S iterations' =>
      let J := jacobian X C in
      let F := computeF X C in
      let '(INFO, F) := dgesv N J F in
      if negb (INFO =? 0)
      then (X, false)
      else
        let X := tabulate N (fun i => rget X i - rget F i)%Q in
        let norm := computeNorm X C in
        if Rltb (norm / initNorm) (m_exitTol sv)
        then (X, true)
        else newtonLoop iterations' initNorm X C
  end.

(** Everything up to the end of the Newton loop: the constant term, the last
    iterate and [converged]. *)
Definition newtonSolve (fuel : nat) : Comp (list Q * list Q * bool)%type :=
  CX <- compConstantTerm fuel a_state ;;
  let '(C, X) := CX in
  let X1 := tabulate N (fun _ => 0%Q) in
  let initNorm := computeNorm X1 C in
  let '(X, converged) := newtonLoop (Z.to_nat (m_maxIter sv)) initNorm X C in
  ret (C, X, converged).

Definition stepImplicitEuler (fuel : nat) : Comp KMCDualState :=
  res <- newtonSolve fuel ;;
  let '(_, X, converged) := res in
  let outputState :=
    if converged : bool
    then map (fun i => wrap (llround (rget X i))) (seq 0 N)
    else map (fun _ => wrap (-1)) (seq 0 N) in
  ret (linearIn a_state outputState).

End ImplicitEuler.

(** *** The tau-leaping driver *)

Definition advanceTau (sv : KMCSolver) (fuel : nat) (a_state : KMCDualState)
           (a_reactions : ReactionList) (a_dt : Q) (a_leapPropagator : KMCLeapPropagator)
  : Comp KMCDualState :=
  advanceTauWith (fun s r dt => stepImplicitEuler sv s r dt fuel)
                 fuel a_state a_reactions a_dt a_leapPropagator.

(** *** The hybrid driver *)

(** What one pass of the outer loop of [advanceHybrid] fixes before the
    step-rejection loop starts. *)
Record HybridPass : Type := mkPass {
  criticalReactions : ReactionList;
  nonCriticalReactions : ReactionList;
  propensitiesCrit : list Q;
  dtCrit : Q
}.

Definition hybridPass (sv : KMCSolver) (a_state : KMCDualState) (a_reactions : ReactionList)
  : Comp (HybridPass * Q)%type :=
  let partitionedReactions := partitionReactions sv a_state a_reactions in
  let criticalReactions := fst partitionedReactions in
  let nonCriticalReactions := snd partitionedReactions in
  let propensitiesCrit := propensities a_state criticalReactions in
  let propensitiesNonCrit := propensities a_state nonCriticalReactions in
  dtCrit <- getCriticalTimeStepOfPropensities propensitiesCrit ;;
  let dtNonCrit := getNonCriticalTimeStep sv a_state nonCriticalReactions propensitiesNonCrit in
  ret (mkPass criticalReactions nonCriticalReactions propensitiesCrit dtCrit, dtNonCrit).

(** The SSA loop inside [advanceHybrid]; it works on [a_state] itself and
    returns it with [dtSSA]. *)
Fixpoint ssaLoop (sv : KMCSolver) (a_reactions : ReactionList) (fuel : nat)
         (a_state : KMCDualState) (curDt dtSSA : Q) (numSSA : Z) : Comp (KMCDualState * Q)%type :=
  match fuel with
  | O => outOfFuel
  | S fuel' =>
      if Rltb dtSSA curDt && (numSSA <? m_numSSA sv)
      then
        let propensities := propensities a_state a_reactions in
        let A := fold_left Qplus propensities 0%Q in
        dtReact <- getCriticalTimeStep A ;;
        if Rltb (dtSSA + dtReact) curDt
        then
          a_state <- stepSSA a_state a_reactions propensities ;;
          ssaLoop sv a_reactions fuel' a_state curDt (dtSSA + dtReact)%Q (T_add numSSA 1)
        else
          ssaLoop sv a_reactions fuel' a_state curDt curDt numSSA
      else ret (a_state, dtSSA)
  end.

(** The outer loop and the step-rejection loop of [advanceHybrid], one trial
    per unit of fuel. *)
Fixpoint hybridLoop (sv : KMCSolver) (a_reactions : ReactionList) (a_dt : Q)
         (a_propagator : KMCDualState -> ReactionList -> Q -> Comp KMCDualState)
         (fuel : nat) (a_state : KMCDualState) (curTime : Q)
         (pass : HybridPass) (dtNonCrit : Q) : Comp KMCDualState :=
  match fuel with
  | O => outOfFuel
  | S fuel' =>
      let outer (a_state : KMCDualState) (curTime : Q) : Comp KMCDualState :=
        if Rltb curTime a_dt
        then
          pd <- hybridPass sv a_state a_reactions ;;
          hybridLoop sv a_reactions a_dt a_propagator fuel' a_state curTime (fst pd) (snd pd)
        else ret a_state in
      let state := a_state in
      let curDt := Rstdmin (a_dt - curTime)%Q (Rstdmin (dtCrit pass) dtNonCrit) in
      let nonCriticalOnly :=
        Rltb dtNonCrit (dtCrit pass)
        || Nat.eqb (length (criticalReactions pass)) 0
        || Rltb (a_dt - curTime)%Q (dtCrit pass) in
      if nonCriticalOnly
      then
        let A := totalPropensity state a_reactions in
        if Rltb (A * curDt)%Q (m_SSAlim sv)
        then
          sd <- ssaLoop sv a_reactions fuel' a_state curDt 0%Q 0 ;;
          outer (fst sd) (curTime + snd sd)%Q
        else
          state <- a_propagator state (nonCriticalReactions pass) curDt ;;
          if isValidState state
          then outer state (curTime + curDt)%Q
          else hybridLoop sv a_reactions a_dt a_propagator fuel' a_state curTime pass
                          (dtNonCrit * (1 # 2))%Q
      else
        state <- stepSSA state (criticalReactions pass) (propensitiesCrit pass) ;;
        state <- a_propagator state (nonCriticalReactions pass) curDt ;;
        if isValidState state
        then outer state (curTime + curDt)%Q
        else hybridLoop sv a_reactions a_dt a_propagator fuel' a_state curTime pass
                        (dtNonCrit * (1 # 2))%Q
  end.

(** [advanceHybrid] with the propagator given as a function. *)
Definition advanceHybridWith (sv : KMCSolver) (fuel : nat) (a_state : KMCDualState)
           (a_reactions : ReactionList) (a_dt : Q)
           (a_propagator : KMCDualState -> ReactionList -> Q -> Comp KMCDualState)
  : Comp KMCDualState :=
  let curTime := 0%Q in
  if Rltb curTime a_dt
  then
    pd <- hybridPass sv a_state a_reactions ;;
    hybridLoop sv a_reactions a_dt a_propagator fuel a_state curTime (fst pd) (snd pd)
  else ret a_state.

(** [advanceHybrid] with the propagator given by its selector. *)
Definition advanceHybrid (sv : KMCSolver) (fuel : nat) (a_state : KMCDualState)
           (a_reactions : ReactionList) (a_dt : Q) (a_leapPropagator : KMCLeapPropagator)
  : Comp KMCDualState :=
  match a_leapPropagator with
  | ExplicitEuler =>
      advanceHybridWith sv fuel a_state a_reactions a_dt
                        (fun s r dt => stepExplicitEuler s r dt)
  | Midpoint =>
      advanceHybridWith sv fuel a_state a_reactions a_dt
                        (fun s r dt => stepMidpoint s r dt)
  | PRC =>
      advanceHybridWith sv fuel a_state a_reactions a_dt
                        (fun s r dt => stepPRC s r dt)
  | ImplicitEuler =>
      advanceHybridWith sv fuel a_state a_reactions a_dt
                        (fun s r dt => stepImplicitEuler sv s r dt fuel)
  | Unrecognized _ => mayDayError
  end.

End WithExternalRoutines.

End Solver.

(** ** Reference definitions for the properties proved below *)

Module Reference.
Import DualReaction Solver.

(** Number of occurrences of species [i] in a stoichiometry list. *)
Definition occ (l : list nat) (i : nat) : Z := Z.of_nat (count_occ Nat.eq_dec l i).

(** Net stoichiometric change of species [i]: produced minus consumed. *)
Definition netChange (consumed produced : list nat) (i : nat) : Z :=
  occ produced i - occ consumed i.

(** Every value stored in a state-change map is a value of [T]. *)
Definition valuesInT (m : StdMap.t Z) : Prop :=
  forall k v, StdMap.find k m = Some v -> in_T v.

(** The critical number as the minimum, over the species of the state whose
    net change is negative, of [floor (population / |nu|)]; the empty
    minimum is the largest value of [T]. *)
Definition criticalNumber (consumed produced : list nat) (pops : list Z) : Z :=
  fold_right Z.min T_max
             (map (fun i => Vec.get pops i / Z.abs (netChange consumed produced i))
                  (filter (fun i => netChange consumed produced i <? 0)
                          (seq 0 (length pops)))).

(** The change a dual-state reaction caches for entry [i] of the linearized
    state: a reactive entry below [nR], a non-reactive one from there on,
    [0] for a species the maps do not mention. *)
Definition cachedChange (r : KMCDualStateReaction) (nR : nat) (i : nat) : Z :=
  if (i <? nR)%nat
  then getStateChange r i
  else match StdMap.find (i - nR) (m_nonReactiveStateChange r) with
       | Some nu => nu
       | None => 0
       end.


(** Product of a list of reals. *)
Definition Rprod (l : list Q) : Q := fold_right Qmult 1%Q l.

(** Multiplicity of a species among the reactants. *)
Definition multiplicity (reactants : list nat) (i : nat) : nat :=
  count_occ Nat.eq_dec reactants i.

(** The combinatorial factor: the product, over the species that occur more
    than once among the reactants, of [1 / k!] for multiplicity [k]. *)
Definition combinatorialFactor (reactants : list nat) : Q :=
  Rprod (map (fun i => 1 / inject_Z (Z.of_nat (fact (multiplicity reactants i))))%Q
             (filter (fun i => (2 <=? multiplicity reactants i)%nat)
                     (nodup Nat.eq_dec reactants))).

(** [mu_i = sum_j |nu_ij * a_j|] and [sigma2_i = sum_j |nu_ij^2 * a_j|] over
    the reactions [j] of the list, with exact integer squares. *)
Definition muOf (i : nat) (rs : ReactionList) (props : list Q) : Q :=
  Rsum (map (fun rp => Qabs (inject_Z (getStateChange (fst rp) i) * snd rp))
            (combine rs props)).

Definition sigma2Of (i : nat) (rs : ReactionList) (props : list Q) : Q :=
  Rsum (map (fun rp => Qabs (inject_Z (getStateChange (fst rp) i * getStateChange (fst rp) i)
                             * snd rp))
            (combine rs props)).

(** [f = max (eps * X_i / 4, 1)]. *)
Definition leapFactor (sv : KMCSolver) (Xi : Z) : Q :=
  Rstdmax (m_eps sv * inject_Z Xi / 4)%Q 1%Q.

(** The minimum of a list of step bounds, the largest [Real] when there is
    none. *)
Definition Rminimum (l : list Q) : Q := fold_left Rstdmin l Real_max.

(** The bound of species [i] as the solver forms it: [f / mu] and
    [f^2 / sigma2] each count only when the denominator exceeds the
    smallest normal [Real], and are the largest [Real] otherwise. *)
Definition guardedBound (sv : KMCSolver) (a_state : KMCDualState)
           (rs : ReactionList) (props : list Q) (i : nat) : Q :=
  let f := leapFactor sv (population i a_state) in
  let mu := muOf i rs props in
  let sigma2 := sigma2Of i rs props in
  Rstdmin (if Rltb Real_min mu then f / mu else Real_max)%Q
          (if Rltb Real_min sigma2 then (f * f) / sigma2 else Real_max)%Q.

(** The species the solver takes a bound from: the reactant occurrences of
    the listed reactions whose population is positive. *)
Definition boundedSpecies (a_state : KMCDualState) (rs : ReactionList) : list nat :=
  filter (fun i => 0 <? population i a_state) (flat_map getReactants rs).

(** The step bound as the specification words it: [min (f / mu, f^2 / sigma2)]
    for every species touched by a listed reaction (a reactant, or a species
    with a non-zero state change), whatever its population. *)
Definition claimedBound (sv : KMCSolver) (a_state : KMCDualState)
           (rs : ReactionList) (props : list Q) (i : nat) : Q :=
  let f := leapFactor sv (population i a_state) in
  Rstdmin (f / muOf i rs props)%Q ((f * f) / sigma2Of i rs props)%Q.

Definition touchedSpecies (a_state : KMCDualState) (rs : ReactionList) : list nat :=
  filter (fun i =>
            existsb (fun r => negb (getStateChange r i =? 0)
                              || existsb (Nat.eqb i) (getReactants r)) rs)
         (seq 0 (length (m_reactiveState a_state))).

Definition claimedNonCriticalTimeStep (sv : KMCSolver) (a_state : KMCDualState)
           (rs : ReactionList) (props : list Q) : Q :=
  Rminimum (map (claimedBound sv a_state rs props) (touchedSpecies a_state rs)).

(** The values [getNonCriticalTimeStep] forms stay in the range of [Real]:
    [eps] and the propensities are finite, and for every species a bound is
    taken from, [eps * X_i], [f * f], [mu] and [sigma2] are at most the
    largest [Real], so that none of them is an infinity in the code. *)
Definition leapInRange (sv : KMCSolver) (a_state : KMCDualState)
           (rs : ReactionList) (props : list Q) : Prop :=
  (Qabs (m_eps sv) <= Real_max)%Q
  /\ Forall (fun p => (Qabs p <= Real_max)%Q) props
  /\ Forall (fun i =>
               let Xi := population i a_state in
               (m_eps sv * inject_Z Xi <= Real_max)%Q
               /\ (leapFactor sv Xi * leapFactor sv Xi <= Real_max)%Q
               /\ (muOf i rs props <= Real_max)%Q
               /\ (sigma2Of i rs props <= Real_max)%Q)
            (boundedSpecies a_state rs).

(** No cached state change is large enough for its square to leave [T]. *)
Definition squaresFit (rs : ReactionList) : Prop :=
  Forall (fun r => Forall (fun s => Z.abs (snd s) < 2 ^ 31) (m_reactiveStateChange r)) rs.

(** The reaction is in the state its constructor leaves it in (only the
    rate may have been reset). *)
Definition constructed (r : KMCDualStateReaction) : Prop :=
  r = create (m_lhsReactives r) (m_rhsReactives r) (m_rhsNonReactives r) (m_rate r).

End Reference.

(** ** Concrete reaction systems and external routines for closed runs *)

Module Examples.
Import DualReaction Solver Reference.

(** A rational stand-in for the C library's [log]: the leading term
    [2 * (x - 1) / (x + 1)] of its expansion around [x = 1]
    ([log (10/9)] gives 0.1053 for 0.1054, [log 2] gives 0.667 for 0.693). *)
Definition logSeries (x : Q) : Q := (2 * ((x - 1) / (x + 1)))%Q.

(** [dgesv_] on a system of order one: [INFO = 1] for a zero pivot,
    otherwise the quotient; [INFO = -1] for malformed arguments. *)
Definition dgesvOrderOne (N : nat) (J F : list Q) : Z * list Q :=
  match J, F with
  | [a], [b] => if Qeq_bool a 0 then (1, F) else (0, [Qred (b / a)])
  | _, _ => (-1, F)
  end.

(** [A -> 0] at rate 1, [B -> 0] at rate 2, [B -> A] at rate 1, and
    [A + A -> photon] at rate 1; [A] is reactive species 0, [B] is reactive
    species 1, the photons are non-reactive species 0. *)
Definition decayA : KMCDualStateReaction := create [0%nat] [] [] 1.
Definition decayB : KMCDualStateReaction := create [1%nat] [] [] 2.
Definition conversion : KMCDualStateReaction := create [1%nat] [0%nat] [] 1.
Definition pairEmission : KMCDualStateReaction := create [0%nat; 0%nat] [] [0%nat] 1.

(** The single-state reaction [A + A -> B]. *)
Definition pairFusion : SingleReaction.KMCSingleStateReaction :=
  SingleReaction.create [0%nat; 0%nat] [1%nat] 1.

(** The hybrid driver with the SSA fallback enabled, on [A = 0], [B = 1]. *)
Definition twoDecays : ReactionList := [decayA; decayB].
Definition noA : KMCDualState := DualState.mkState [0; 1] [].
Definition fallbackSolver : KMCSolver :=
  setSolverParameters (define twoDecays) 0 2 100 (3 # 100) 1000 (1 # 1000000).

(** Uniform draws [0.9, 0.9, 0, 0.5, 0.5, ...]; Poisson draws all zero. *)
Definition drawsWithZero : Rng :=
  mkRng (fun n => nth n [9 # 10; 9 # 10; 0; 1 # 2] (1 # 2))%Q (fun _ _ => 0) 0 0.

(** The default solver on the single decay [A -> 0], from [A = 10]; every
    Poisson draw is 3. *)
Definition tenA : KMCDualState := DualState.mkState [10] [].
Definition defaultSolver : KMCSolver := define [decayA].
Definition drawsOfThree : Rng := mkRng (fun _ => 1 # 2)%Q (fun _ _ => 3) 0 0.

(** The default solver with another cap on the Newton iterations. *)
Definition cappedSolver (maxIter : Z) : KMCSolver :=
  setSolverParameters defaultSolver 0 0 maxIter Real_max 0 (1 # 1000000).

(** [A -> 0] and [B -> A] on [A = 0], [B = 100], with [eps = 1]. *)
Definition decayAndConversion : ReactionList := [decayA; conversion].
Definition hundredB : KMCDualState := DualState.mkState [0; 100] [].
Definition unitEpsSolver : KMCSolver :=
  setSolverParameters (define decayAndConversion) 0 0 100 1 0 (1 # 1000000).

(** Uniform draws all [0.5]. *)
Definition drawsOfHalf : Rng := mkRng (fun _ => 1 # 2)%Q (fun _ _ => 0) 0 0.

(** A state with five [A], three [B] and two photon classes. *)
Definition fiveA : KMCDualState := DualState.mkState [5; 3] [0; 7].
Definition fiveASingle : SingleState.KMCSingleState := SingleState.mkState [5; 3].


(** The duplication [A -> A + A] at rate 1. *)
Definition duplication : KMCDualStateReaction := create [0%nat] [0%nat; 0%nat] [] 1.

End Examples.

(** ** Further entry points of the solver *)

Module SolverEntryPoints.
Import DualReaction Solver.


(** [getNonCriticalTimeStep(const State&, const ReactionList&)]. *)
Definition getNonCriticalTimeStepOfReactions (sv : KMCSolver) (a_state : KMCDualState)
           (a_reactions : ReactionList) : Q :=
  let propensities := propensities a_state a_reactions in
  getNonCriticalTimeStep sv a_state a_reactions propensities.

(** [getNonCriticalTimeStep(const State&)]: over the non-critical part of
    the solver's own reactions. *)
Definition getNonCriticalTimeStepOfState (sv : KMCSolver) (a_state : KMCDualState) : Q :=
  let partitionedReactions := partitionReactions sv a_state (m_reactions sv) in
  getNonCriticalTimeStepOfReactions sv a_state (snd partitionedReactions).

Section WithLog.

Variable log : Q -> Q.

(** [getCriticalTimeStep(const State&, const ReactionList&)]. *)
Definition getCriticalTimeStepOfState (a_state : KMCDualState)
           (a_criticalReactions : ReactionList) : Comp Q :=
  match a_criticalReactions with
  | [] => ret Real_max
  | _ :: _ =>
      let A := (Real_min + totalPropensity a_state a_criticalReactions)%Q in
      getCriticalTimeStep log A
  end.

(** The loop of [advanceSSA], one pass per unit of fuel. *)
Fixpoint advanceSSALoop (a_reactions : ReactionList) (a_dt : Q) (fuel : nat)
         (a_state : KMCDualState) (curDt : Q) : Comp KMCDualState :=
  match fuel with
  | O => outOfFuel
  | S fuel' =>
      if Rleb curDt a_dt
      then
        let propensities := propensities a_state a_reactions in
        nextDt <- getCriticalTimeStepOfPropensities log propensities ;;
        a_state <- (if Rleb (curDt + nextDt)%Q a_dt
                    then stepSSA a_state a_reactions propensities
                    else ret a_state) ;;
        advanceSSALoop a_reactions a_dt fuel' a_state (curDt + nextDt)%Q
      else ret a_state
  end.

Definition advanceSSA (fuel : nat) (a_state : KMCDualState) (a_reactions : ReactionList)
           (a_dt : Q) : Comp KMCDualState :=
  match a_reactions with
  | [] => ret a_state
  | _ :: _ => advanceSSALoop a_reactions a_dt fuel a_state 0%Q
  end.

End WithLog.

End SolverEntryPoints.

(** ** Reference definitions for the further properties *)

Module ReferenceMore.
Import DualReaction Solver Reference.

(** [s'] is reached from [s] by firing reactions of the list, one firing at
    a time. *)
Inductive firedFrom (rs : ReactionList) : KMCDualState -> KMCDualState -> Prop :=
| fired_none : forall s, firedFrom rs s s
| fired_once : forall s r s',
    In r rs -> firedFrom rs (advanceState r s 1) s' -> firedFrom rs s s'.

(** Every reactant occurrence finds a particle: no species has fewer
    particles than the reaction consumes. *)
Definition reactantsAvailable (lhs : list nat) (pops : list Z) : Prop :=
  forall i, In i lhs -> occ lhs i <= Vec.get pops i.

(** The populations are non-negative and leave room below the largest value
    of [T] for what one firing of the reaction produces. *)
Definition roomFor (r : KMCDualStateReaction) (s : KMCDualState) : Prop :=
  Forall (fun x => 0 <= x <= T_max - Z.of_nat (length (m_rhsReactives r)))
         (m_reactiveState s)
  /\ Forall (fun x => 0 <= x <= T_max - Z.of_nat (length (m_rhsNonReactives r)))
            (m_nonReactiveState s).


(** The products [propensity] forms stay in the range of [Real]: the cached
    factor, and its product with a non-zero rate, are at least the smallest
    normal [Real], so that neither is rounded to zero; the rate and every
    partial product of the loop are at most the largest [Real], so that
    none is an infinity. *)
Definition productsInRange (r : KMCDualStateReaction) (s : KMCDualState) : Prop :=
  (Real_min <= m_propensityFactor r)%Q
  /\ (m_rate r <= Real_max)%Q
  /\ (m_rate r == 0 \/ Real_min <= m_rate r * m_propensityFactor r)%Q
  /\ Forall (fun k =>
               (Qabs (fst (propensityLoop (m_rate r * m_propensityFactor r)
                                          (firstn k (m_lhsReactives r))
                                          (m_reactiveState s)))
                <= Real_max)%Q)
            (seq 0 (S (length (m_lhsReactives r)))).

(** What the three explicit leaping schemes have in common: on a state that
    holds the species of the listed reactions the step returns, having
    drawn one Poisson number per reaction and no uniform number; the state
    keeps its two sizes; when every draw is zero it is unchanged. *)
Definition drawsOncePerReaction
           (step : KMCDualState -> ReactionList -> Q -> Comp KMCDualState) : Prop :=
  forall (a_state : KMCDualState) (a_reactions : ReactionList) (a_dt : Q) (g : Rng),
    Forall (fun r => sanityCheck r a_state = true) a_reactions ->
    Forall in_T (m_reactiveState a_state) ->
    Forall in_T (m_nonReactiveState a_state) ->
    exists s' : KMCDualState,
      step a_state a_reactions a_dt g
      = Ret (s', mkRng (uniformOracle g) (poissonOracle g) (uniformCount g)
                       (poissonCount g + length a_reactions))
      /\ length (m_reactiveState s') = length (m_reactiveState a_state)
      /\ length (m_nonReactiveState s') = length (m_nonReactiveState a_state)
      /\ ((forall (n : nat) (mean : Q), poissonOracle g n mean = 0) -> s' = a_state).

(** The state every entry of which is the sentinel [-1]. *)
Definition sentinel (s : KMCDualState) : KMCDualState :=
  DualState.mkState (map (fun _ => -1) (m_reactiveState s))
                    (map (fun _ => -1) (m_nonReactiveState s)).

End ReferenceMore.

(** * Proofs *)

Import DualState DualReaction RealModel Effects Solver Reference Examples.

(** Tactics for the closed instances: a [Forall] over an explicit list,
    and membership of a numeral in the range of [T]. *)
Ltac each_entry tac := repeat (constructor; [tac|]); constructor.
Ltac range := unfold in_T, T_min, T_max; lia.


(** ** Arithmetic of [T] *)

Section WrapFacts.

Lemma wrap_in_T (z : Z) : in_T (wrap z).
Proof.
  unfold in_T, wrap, T_min, T_max.
  pose proof (Z.mod_pos_bound (z + 2 ^ 63) (2 ^ 64) ltac:(lia)). lia.
Qed.

Lemma wrap_small (z : Z) : in_T z -> wrap z = z.
Proof.
  unfold in_T, wrap, T_min, T_max. intros H.
  rewrite Z.mod_small; lia.
Qed.

Lemma wrap_congr (a b : Z) : a mod 2 ^ 64 = b mod 2 ^ 64 -> wrap a = wrap b.
Proof.
  intros H. unfold wrap.
  rewrite (Zplus_mod a), (Zplus_mod b), H. reflexivity.
Qed.

Lemma wrap_mod (a : Z) : wrap a mod 2 ^ 64 = a mod 2 ^ 64.
Proof.
  unfold wrap.
  rewrite Zminus_mod, Zmod_mod, <- Zminus_mod.
  f_equal. lia.
Qed.

Lemma wrap_wrap (a : Z) : wrap (wrap a) = wrap a.
Proof. apply wrap_congr, wrap_mod. Qed.

Lemma wrap_add_l (a b : Z) : wrap (wrap a + b) = wrap (a + b).
Proof.
  apply wrap_congr. rewrite Zplus_mod, wrap_mod, <- Zplus_mod. reflexivity.
Qed.

Lemma wrap_add_r (a b : Z) : wrap (a + wrap b) = wrap (a + b).
Proof. rewrite Z.add_comm, wrap_add_l. f_equal. lia. Qed.

Lemma wrap_mul_l (a b : Z) : wrap (wrap a * b) = wrap (a * b).
Proof.
  apply wrap_congr. rewrite Zmult_mod, wrap_mod, <- Zmult_mod. reflexivity.
Qed.

Lemma wrap_mul_r (a b : Z) : wrap (a * wrap b) = wrap (a * b).
Proof. rewrite Z.mul_comm, wrap_mul_l. f_equal. lia. Qed.

End WrapFacts.

Create HintDb kmc.
#[local] Hint Resolve wrap_in_T : kmc.

(** ** Vectors *)

Section VecFacts.

Lemma upd_length (v : list Z) (k : nat) (f : Z -> Z) : length (Vec.upd v k f) = length v.
Proof.
  revert k. induction v as [|x v IH]; intros [|k]; simpl; auto.
Qed.

Lemma get_upd_same (v : list Z) (k : nat) (f : Z -> Z) :
  (k < length v)%nat -> Vec.get (Vec.upd v k f) k = f (Vec.get v k).
Proof.
  unfold Vec.get. revert k. induction v as [|x v IH]; intros [|k] H; simpl in *; try lia; auto.
  apply IH. lia.
Qed.

Lemma get_upd_other (v : list Z) (k i : nat) (f : Z -> Z) :
  i <> k -> Vec.get (Vec.upd v k f) i = Vec.get v i.
Proof.
  unfold Vec.get. revert k i. induction v as [|x v IH]; intros [|k] [|i] H; simpl; auto; try lia.
Qed.

Lemma upd_out_of_range (v : list Z) (k : nat) (f : Z -> Z) :
  (length v <= k)%nat -> Vec.upd v k f = v.
Proof.
  revert k. induction v as [|x v IH]; intros [|k] H; simpl in *; auto; try lia.
  f_equal. apply IH. lia.
Qed.

Lemma upd_upd_same (v : list Z) (k : nat) (f g : Z -> Z) :
  Vec.upd (Vec.upd v k f) k g = Vec.upd v k (fun x => g (f x)).
Proof.
  revert k. induction v as [|x v IH]; intros [|k]; simpl; auto. f_equal. apply IH.
Qed.

Lemma upd_upd_comm (v : list Z) (k k' : nat) (f g : Z -> Z) :
  (forall x, f (g x) = g (f x)) ->
  Vec.upd (Vec.upd v k f) k' g = Vec.upd (Vec.upd v k' g) k f.
Proof.
  intros Hc. revert k k'.
  induction v as [|x v IH]; intros [|k] [|k']; simpl; auto.
  - now rewrite Hc.
  - f_equal. apply IH.
Qed.

Lemma upd_id_on (v : list Z) (k : nat) (f : Z -> Z) :
  (forall x, In x v -> f x = x) -> Vec.upd v k f = v.
Proof.
  revert k. induction v as [|x v IH]; intros [|k] H; simpl; auto.
  - f_equal. apply H. now left.
  - f_equal. apply IH. intros y Hy. apply H. now right.
Qed.

End VecFacts.

(** ** Applying stoichiometric changes *)

Section ApplyChanges.

Lemma applyChanges_cons (s : nat * Z) (m : StdMap.t Z) (n : Z) (st : list Z) :
  applyChanges (s :: m) n st
  = applyChanges m n (Vec.upd st (fst s) (fun x => T_add x (T_mul n (snd s)))).
Proof. reflexivity. Qed.

Lemma applyChanges_length (m : StdMap.t Z) (n : Z) (st : list Z) :
  length (applyChanges m n st) = length st.
Proof.
  revert st. induction m as [|s m IH]; intros st; [reflexivity|].
  rewrite applyChanges_cons, IH. apply upd_length.
Qed.

Lemma T_add_comm_upd (a b x : Z) : T_add (T_add x a) b = T_add (T_add x b) a.
Proof.
  unfold T_add. rewrite !wrap_add_l. f_equal. lia.
Qed.

(** An update of one entry by an addition moves across [applyChanges]. *)
Lemma applyChanges_upd (m : StdMap.t Z) (n : Z) (st : list Z) (k : nat) (a : Z) :
  Vec.upd (applyChanges m n st) k (fun x => T_add x a)
  = applyChanges m n (Vec.upd st k (fun x => T_add x a)).
Proof.
  revert st. induction m as [|s m IH]; intros st; [reflexivity|].
  rewrite !applyChanges_cons, IH. f_equal.
  apply upd_upd_comm. intros x. apply T_add_comm_upd.
Qed.

Lemma add_then_subtract (n nu x : Z) :
  in_T x -> T_add (T_add x (T_mul n nu)) (T_mul (T_neg n) nu) = x.
Proof.
  intros Hx. unfold T_add, T_mul, T_neg.
  rewrite wrap_mul_l, wrap_add_l, wrap_add_r.
  replace (x + wrap (n * nu) + - n * nu) with (x + - n * nu + wrap (n * nu)) by lia.
  rewrite wrap_add_r.
  replace (x + - n * nu + n * nu) with x by lia.
  now apply wrap_small.
Qed.

Lemma applyChanges_round_trip (m : StdMap.t Z) (n : Z) (st : list Z) :
  Forall in_T st ->
  applyChanges m (T_neg n) (applyChanges m n st) = st.
Proof.
  intros Hst. induction m as [|[k nu] m IH]; [reflexivity|].
  rewrite (applyChanges_cons _ _ n). rewrite applyChanges_cons. cbn [fst snd].
  rewrite applyChanges_upd, upd_upd_same.
  rewrite (upd_id_on st k); [exact IH|].
  intros x Hx. apply add_then_subtract.
  rewrite Forall_forall in Hst. now apply Hst.
Qed.

End ApplyChanges.

(** C8. Stoichiometry round trip: for every reaction (dual-state and
    single-state), every state whose entries are values of [T], and every
    firing count [n], [advanceState (state, n)] followed by
    [advanceState (state, -n)] gives back every population entry of both
    species classes exactly. *)
Theorem advanceState_round_trip :
  (forall (r : KMCDualStateReaction) (s : KMCDualState) (n : Z),
      Forall in_T (m_reactiveState s) ->
      Forall in_T (m_nonReactiveState s) ->
      0 <= n ->
      advanceState r (advanceState r s n) (T_neg n) = s)
  /\
  (forall (r : SingleReaction.KMCSingleStateReaction) (s : SingleState.KMCSingleState) (n : Z),
      Forall in_T (SingleState.m_state s) ->
      0 <= n ->
      SingleReaction.advanceState r (SingleReaction.advanceState r s n) (T_neg n) = s).
Proof.
  split.
  - intros r [re nr] n Hre Hnr _. unfold advanceState. cbn [m_reactiveState m_nonReactiveState] in *.
    now rewrite !applyChanges_round_trip.
  - intros r [st] n Hst _. unfold SingleReaction.advanceState. cbn [SingleState.m_state] in *.
    now rewrite applyChanges_round_trip.
Qed.


(** ** [std::map] facts *)

Section StdMapFacts.

Context {V : Type}.
Implicit Types (m : StdMap.t V) (k i : nat) (v : V).

Lemma find_assign k i v m :
  StdMap.find i (StdMap.assign k v m) = if Nat.eqb i k then Some v else StdMap.find i m.
Proof.
  induction m as [|[k' v'] m IH]; simpl.
  - reflexivity.
  - destruct (Nat.compare_spec k k') as [E|L|G]; simpl.
    + subst k'. destruct (Nat.eqb i k); reflexivity.
    + reflexivity.
    + rewrite IH. destruct (Nat.eqb_spec i k'), (Nat.eqb_spec i k); try reflexivity; lia.
Qed.

Lemma find_emplace k i v m :
  StdMap.find k m = None ->
  StdMap.find i (StdMap.emplace k v m) = if Nat.eqb i k then Some v else StdMap.find i m.
Proof.
  intros H. unfold StdMap.emplace. rewrite H. apply find_assign.
Qed.

Lemma keys_assign k v m j :
  In j (StdMap.keys (StdMap.assign k v m)) -> j = k \/ In j (StdMap.keys m).
Proof.
  unfold StdMap.keys.
  induction m as [|[k' v'] m IH]; simpl.
  - intros [H|[]]; auto.
  - destruct (Nat.compare_spec k k') as [E|L|G]; simpl; intros [Hj|Hj]; auto.
    destruct (IH Hj); auto.
Qed.

Lemma sorted_assign k v m : StdMap.sorted m -> StdMap.sorted (StdMap.assign k v m).
Proof.
  unfold StdMap.sorted, StdMap.keys.
  induction m as [|[k' v'] m IH]; simpl; intros Hs.
  - repeat constructor.
  - inversion Hs as [|? ? Hs' Hall]; subst.
    destruct (Nat.compare_spec k k') as [E|L|G]; simpl.
    + subst. now constructor.
    + constructor; [assumption|]. constructor; [assumption|].
      rewrite Forall_forall in *. intros j Hj. specialize (Hall j Hj). lia.
    + constructor; [now apply IH|].
      rewrite Forall_forall in *. intros j Hj.
      destruct (keys_assign k v m j Hj) as [->|Hj']; [assumption|now apply Hall].
Qed.

Lemma find_None_keys k m : StdMap.find k m = None <-> ~ In k (StdMap.keys m).
Proof.
  unfold StdMap.keys. induction m as [|[k' v'] m IH]; simpl.
  - tauto.
  - destruct (Nat.eqb_spec k k'); [subst; split; [discriminate|tauto]|].
    rewrite IH. split; intros H; [intros [E|E]; [congruence|tauto]|tauto].
Qed.

Lemma sorted_NoDup m : StdMap.sorted m -> NoDup (StdMap.keys m).
Proof.
  unfold StdMap.sorted. induction 1 as [|a l Hs IH Hall]; constructor; auto.
  intros Hin. rewrite Forall_forall in Hall. specialize (Hall a Hin). lia.
Qed.

Lemma sorted_cons_find k v m : StdMap.sorted ((k, v) :: m) -> StdMap.find k m = None.
Proof.
  intros Hs. apply sorted_NoDup in Hs. inversion Hs; subst.
  now apply find_None_keys.
Qed.

Lemma sorted_tail k v m : StdMap.sorted ((k, v) :: m) -> StdMap.sorted m.
Proof. unfold StdMap.sorted. simpl. now inversion 1. Qed.

End StdMapFacts.

(** ** The passes of [computeStateChanges] *)

Section Tally.





Lemma find_tally (d : Z) (m : StdMap.t Z) (k i : nat) :
  StdMap.find i (tally d m k)
  = if Nat.eqb i k
    then Some (match StdMap.find k m with Some v => T_add v d | None => d end)
    else StdMap.find i m.
Proof.
  unfold tally. destruct (StdMap.find k m) eqn:E.
  - apply find_assign.
  - now apply find_emplace.
Qed.

Lemma sorted_tally (d : Z) (m : StdMap.t Z) (k : nat) :
  StdMap.sorted m -> StdMap.sorted (tally d m k).
Proof.
  intros H. unfold tally, StdMap.emplace.
  destruct (StdMap.find k m); now apply sorted_assign.
Qed.

Lemma valuesInT_tally (d : Z) (m : StdMap.t Z) (k : nat) :
  in_T d -> valuesInT m -> valuesInT (tally d m k).
Proof.
  intros Hd Hm i v. rewrite find_tally.
  destruct (Nat.eqb i k).
  - intros [= <-]. destruct (StdMap.find k m); [apply wrap_in_T|assumption].
  - apply Hm.
Qed.

Lemma sorted_fold_tally (d : Z) (l : list nat) (m : StdMap.t Z) :
  StdMap.sorted m -> StdMap.sorted (fold_left (tally d) l m).
Proof.
  revert m. induction l as [|k l IH]; intros m H; simpl; auto using sorted_tally.
Qed.

Lemma valuesInT_fold_tally (d : Z) (l : list nat) (m : StdMap.t Z) :
  in_T d -> valuesInT m -> valuesInT (fold_left (tally d) l m).
Proof.
  intros Hd. revert m. induction l as [|k l IH]; intros m H; simpl; auto using valuesInT_tally.
Qed.



Lemma find_fold_tally (d : Z) (l : list nat) (m : StdMap.t Z) (i : nat) :
  in_T d -> valuesInT m ->
  StdMap.find i (fold_left (tally d) l m)
  = match StdMap.find i m with
    | Some v => Some (wrap (v + d * occ l i))
    | None => if (occ l i =? 0) then None else Some (wrap (d * occ l i))
    end.
Proof.
  intros Hd. unfold occ. revert m. induction l as [|k l IH]; intros m Hm.
  - simpl. destruct (StdMap.find i m) eqn:E; [|reflexivity].
    f_equal. rewrite Z.mul_0_r, Z.add_0_r. symmetry. apply wrap_small. eapply Hm; eauto.
  - cbn [fold_left]. rewrite IH by now apply valuesInT_tally.
    rewrite find_tally. cbn [count_occ].
    destruct (Nat.eq_dec k i) as [->|Hne].
    + rewrite Nat.eqb_refl. rewrite Nat2Z.inj_succ.
      destruct (StdMap.find i m) as [v|] eqn:E.
      * f_equal. unfold T_add. rewrite wrap_add_l. f_equal. lia.
      * destruct (Z.eqb_spec (Z.succ (Z.of_nat (count_occ Nat.eq_dec l i))) 0); [lia|].
        f_equal. rewrite <- (wrap_small d Hd) at 1. rewrite wrap_add_l. f_equal. lia.
    + destruct (Nat.eqb_spec i k); [congruence|]. reflexivity.
Qed.

Lemma valuesInT_nil : valuesInT [].
Proof. intros k v. discriminate. Qed.

Lemma sorted_nil : StdMap.sorted (@nil (nat * Z)).
Proof. constructor. Qed.

Lemma in_T_one : in_T 1.
Proof. unfold in_T, T_min, T_max. lia. Qed.

Lemma in_T_minus_one : in_T (-1).
Proof. unfold in_T, T_min, T_max. lia. Qed.

(** The map built from the consumed and the produced species holds, for
    every species that occurs, the wrapped net count. *)
Lemma find_stateChange (consumed produced : list nat) (i : nat) :
  StdMap.find i (fold_left (tally 1) produced (fold_left (tally (-1)) consumed []))
  = if (occ consumed i =? 0) && (occ produced i =? 0)
    then None
    else Some (wrap (occ produced i - occ consumed i)).
Proof.
  rewrite find_fold_tally;
    [|apply in_T_one|apply valuesInT_fold_tally; [apply in_T_minus_one|apply valuesInT_nil]].
  rewrite find_fold_tally; [|apply in_T_minus_one|apply valuesInT_nil].
  cbn [StdMap.find].
  destruct (Z.eqb_spec (occ consumed i) 0) as [E|E]; cbn [andb].
  - rewrite E. destruct (Z.eqb_spec (occ produced i) 0); [reflexivity|].
    f_equal. f_equal. lia.
  - f_equal. rewrite wrap_add_l. f_equal. lia.
Qed.

Lemma sorted_stateChange (consumed produced : list nat) :
  StdMap.sorted (fold_left (tally 1) produced (fold_left (tally (-1)) consumed [])).
Proof. apply sorted_fold_tally, sorted_fold_tally, sorted_nil. Qed.

Lemma valuesInT_stateChange (consumed produced : list nat) :
  valuesInT (fold_left (tally 1) produced (fold_left (tally (-1)) consumed [])).
Proof.
  apply valuesInT_fold_tally; [apply in_T_one|].
  apply valuesInT_fold_tally; [apply in_T_minus_one|apply valuesInT_nil].
Qed.

End Tally.

(** ** [applyChanges], entry by entry *)

Section ApplyChangesPointwise.

Lemma get_applyChanges (m : StdMap.t Z) (n : Z) (st : list Z) (i : nat) :
  StdMap.sorted m -> (i < length st)%nat ->
  Vec.get (applyChanges m n st) i
  = match StdMap.find i m with
    | Some nu => T_add (Vec.get st i) (T_mul n nu)
    | None => Vec.get st i
    end.
Proof.
  revert st. induction m as [|[k nu] m IH]; intros st Hs Hi; [reflexivity|].
  rewrite applyChanges_cons. cbn [fst snd StdMap.find].
  rewrite IH; [|now apply sorted_tail in Hs|now rewrite upd_length].
  destruct (Nat.eqb_spec i k) as [->|Hne].
  - rewrite (sorted_cons_find _ _ _ Hs). now apply get_upd_same.
  - rewrite !get_upd_other by assumption. reflexivity.
Qed.

End ApplyChangesPointwise.


(** ** Sorted lists of species *)

Section SortedLists.

Lemma sorted_unique (l1 l2 : list nat) :
  StronglySorted lt l1 -> StronglySorted lt l2 ->
  (forall x, In x l1 <-> In x l2) -> l1 = l2.
Proof.
  intros H1. revert l2. induction H1 as [|a l1 Hs1 IH Ha]; intros l2 H2 Heq.
  - destruct l2 as [|b l2]; [reflexivity|].
    exfalso. apply (proj2 (Heq b)). now left.
  - destruct H2 as [|b l2 Hs2 Hb].
    + exfalso. apply (proj1 (Heq a)). now left.
    + rewrite Forall_forall in Ha, Hb.
      assert (a = b) as <-.
      { destruct (proj1 (Heq a) (or_introl eq_refl)) as [E|Hin]; [now symmetry|].
        destruct (proj2 (Heq b) (or_introl eq_refl)) as [E|Hin']; [assumption|].
        specialize (Ha _ Hin'). specialize (Hb _ Hin). lia. }
      f_equal. apply IH; [assumption|].
      intros x. split; intros Hx.
      * destruct (proj1 (Heq x) (or_intror Hx)) as [E|Hin]; [|assumption].
        specialize (Ha _ Hx). lia.
      * destruct (proj2 (Heq x) (or_intror Hx)) as [E|Hin]; [|assumption].
        specialize (Hb _ Hx). lia.
Qed.

Lemma sorted_seq (a n : nat) : StronglySorted lt (seq a n).
Proof.
  revert a. induction n as [|n IH]; intros a; simpl; constructor; [apply IH|].
  rewrite Forall_forall. intros x Hx. apply in_seq in Hx. lia.
Qed.

Lemma sorted_filter (P : nat -> bool) (l : list nat) :
  StronglySorted lt l -> StronglySorted lt (filter P l).
Proof.
  induction 1 as [|a l Hs IH Ha]; simpl; [constructor|].
  destruct (P a); [|assumption].
  constructor; [assumption|].
  rewrite Forall_forall in *. intros x Hx. apply filter_In in Hx. now apply Ha.
Qed.

Lemma sorted_keys_filter (P : nat * Z -> bool) (m : StdMap.t Z) :
  StdMap.sorted m -> StronglySorted lt (map fst (filter P m)).
Proof.
  unfold StdMap.sorted, StdMap.keys.
  induction m as [|s m IH]; simpl; intros Hs; [constructor|].
  inversion Hs as [|? ? Hs' Ha]; subst.
  destruct (P s); simpl; [|now apply IH].
  constructor; [now apply IH|].
  rewrite Forall_forall in *. intros x Hx. apply Ha.
  apply in_map_iff in Hx. destruct Hx as [y [<- Hy]]. apply filter_In in Hy.
  apply in_map. tauto.
Qed.

Lemma In_find {V : Type} (m : StdMap.t V) (k : nat) (v : V) :
  StdMap.sorted m -> In (k, v) m -> StdMap.find k m = Some v.
Proof.
  induction m as [|[k' v'] m IH]; intros Hs Hin; [contradiction|].
  simpl. destruct Hin as [[= -> ->]|Hin].
  - now rewrite Nat.eqb_refl.
  - destruct (Nat.eqb_spec k k') as [->|Hne].
    + apply sorted_cons_find in Hs. apply find_None_keys in Hs.
      exfalso. apply Hs. unfold StdMap.keys. change k' with (fst (k', v)). now apply in_map.
    + apply IH; [now apply sorted_tail in Hs|assumption].
Qed.

Lemma find_In {V : Type} (m : StdMap.t V) (k : nat) (v : V) :
  StdMap.find k m = Some v -> In (k, v) m.
Proof.
  induction m as [|[k' v'] m IH]; simpl; [discriminate|].
  destruct (Nat.eqb_spec k k') as [->|Hne].
  - intros [= ->]. now left.
  - intros H. right. now apply IH.
Qed.

End SortedLists.

(** ** Occurrence counts *)

Section Occurrences.

Lemma occ_nonneg (l : list nat) (i : nat) : 0 <= occ l i.
Proof. unfold occ. lia. Qed.

Lemma occ_le_length (l : list nat) (i : nat) : occ l i <= Z.of_nat (length l).
Proof.
  unfold occ. apply inj_le.
  induction l as [|a l IH]; simpl; [lia|]. destruct (Nat.eq_dec a i); lia.
Qed.

Lemma occ_pos_In (l : list nat) (i : nat) : 0 < occ l i <-> In i l.
Proof.
  unfold occ. rewrite (count_occ_In Nat.eq_dec). lia.
Qed.

Lemma netChange_bounds (consumed produced : list nat) (i : nat) :
  Z.of_nat (length consumed) <= T_max -> Z.of_nat (length produced) <= T_max ->
  - T_max <= netChange consumed produced i <= T_max.
Proof.
  intros Hc Hp. unfold netChange.
  pose proof (occ_nonneg consumed i). pose proof (occ_nonneg produced i).
  pose proof (occ_le_length consumed i). pose proof (occ_le_length produced i).
  lia.
Qed.

Lemma netChange_in_T (consumed produced : list nat) (i : nat) :
  Z.of_nat (length consumed) <= T_max -> Z.of_nat (length produced) <= T_max ->
  in_T (netChange consumed produced i).
Proof.
  intros Hc Hp. unfold netChange, in_T.
  pose proof (occ_nonneg consumed i). pose proof (occ_nonneg produced i).
  pose proof (occ_le_length consumed i). pose proof (occ_le_length produced i).
  unfold T_min, T_max in *. lia.
Qed.

End Occurrences.

(** ** The critical number of reactions *)

Section CriticalNumber.

Variables consumed produced : list nat.
Variable pops : list Z.

Hypothesis populations : Forall (fun x => 0 <= x <= T_max) pops.
Hypothesis reactantsInside : Forall (fun i => (i < length pops)%nat) consumed.
Hypothesis consumedBound : Z.of_nat (length consumed) <= T_max.
Hypothesis producedBound : Z.of_nat (length produced) <= T_max.

Let changes : StdMap.t Z :=
  fold_left (tally 1) produced (fold_left (tally (-1)) consumed []).

Lemma changes_find (k : nat) (nu : Z) :
  StdMap.find k changes = Some nu ->
  nu = netChange consumed produced k /\ (0 < occ consumed k \/ 0 < occ produced k).
Proof.
  unfold changes. rewrite find_stateChange.
  pose proof (occ_nonneg consumed k). pose proof (occ_nonneg produced k).
  destruct (Z.eqb_spec (occ consumed k) 0), (Z.eqb_spec (occ produced k) 0);
    cbn [andb]; try discriminate; intros [= <-];
    (split; [apply wrap_small, netChange_in_T; assumption|lia]).
Qed.

Lemma negative_keys :
  map fst (filter (fun s => snd s <? 0) changes)
  = filter (fun i => netChange consumed produced i <? 0) (seq 0 (length pops)).
Proof.
  apply sorted_unique.
  - apply sorted_keys_filter, sorted_stateChange.
  - apply sorted_filter, sorted_seq.
  - intros k. rewrite in_map_iff, filter_In, in_seq. split.
    + intros [[k' nu] [<- Hin]]. apply filter_In in Hin. destruct Hin as [Hin Hneg].
      cbn [fst snd] in *. apply In_find in Hin; [|apply sorted_stateChange].
      apply changes_find in Hin. destruct Hin as [-> _].
      split; [|assumption]. apply Z.ltb_lt in Hneg.
      assert (In k' consumed) as Hk.
      { apply occ_pos_In. unfold netChange in Hneg. pose proof (occ_nonneg produced k'). lia. }
      rewrite Forall_forall in reactantsInside. specialize (reactantsInside _ Hk). lia.
    + intros [_ Hneg]. exists (k, netChange consumed produced k). split; [reflexivity|].
      apply filter_In. split; [|assumption].
      apply find_In. unfold changes. rewrite find_stateChange.
      apply Z.ltb_lt in Hneg. unfold netChange in Hneg.
      pose proof (occ_nonneg produced k).
      destruct (Z.eqb_spec (occ consumed k) 0); [lia|]. cbn [andb].
      f_equal. apply wrap_small, netChange_in_T; assumption.
Qed.

Lemma quotient_of_entry (k : nat) (nu : Z) :
  In (k, nu) changes -> nu < 0 ->
  T_div (Vec.get pops k) (T_abs nu) = Vec.get pops k / Z.abs (netChange consumed produced k).
Proof.
  intros Hin Hneg. apply In_find in Hin; [|apply sorted_stateChange].
  apply changes_find in Hin. destruct Hin as [-> Hocc].
  set (nu := netChange consumed produced k) in *.
  assert (- T_max <= nu <= T_max) as Hnu by (apply netChange_bounds; assumption).
  assert (0 <= Vec.get pops k <= T_max) as Hx.
  { unfold Vec.get. destruct (Nat.lt_ge_cases k (length pops)) as [Hlt|Hge].
    - rewrite Forall_forall in populations. apply populations. now apply nth_In.
    - rewrite nth_overflow by assumption. unfold T_max. lia. }
  unfold T_div, T_abs.
  rewrite (wrap_small (Z.abs nu)) by (unfold in_T, T_min, T_max in *; lia).
  rewrite Z.quot_div_nonneg by lia.
  apply wrap_small. unfold in_T, T_min.
  assert (0 <= Vec.get pops k / Z.abs nu) by (apply Z.div_pos; lia).
  assert (Vec.get pops k / Z.abs nu <= Vec.get pops k)
    by (apply Z.div_le_upper_bound; nia).
  unfold T_max in *. lia.
Qed.

Lemma criticalLoop_as_min (m : StdMap.t Z) (Lj0 : Z) :
  fold_left (fun Lj s =>
               if snd s <? 0
               then T_stdmin Lj (T_div (Vec.get pops (fst s)) (T_abs (snd s)))
               else Lj) m Lj0
  = fold_left Z.min
              (map (fun s => T_div (Vec.get pops (fst s)) (T_abs (snd s)))
                   (filter (fun s => snd s <? 0) m)) Lj0.
Proof.
  revert Lj0. induction m as [|s m IH]; intros Lj0; [reflexivity|].
  cbn [fold_left filter]. destruct (snd s <? 0); cbn [map fold_left]; rewrite IH; [|reflexivity].
  f_equal. unfold T_stdmin. destruct (Z.ltb_spec (T_div (Vec.get pops (fst s)) (T_abs (snd s))) Lj0); lia.
Qed.

Lemma fold_right_min_init (l : list Z) (a x : Z) :
  fold_right Z.min (Z.min a x) l = Z.min x (fold_right Z.min a l).
Proof.
  induction l as [|y l IH]; cbn [fold_right]; [lia|]. rewrite IH. lia.
Qed.

Lemma fold_min_symmetric (l : list Z) (a : Z) :
  fold_left Z.min l a = fold_right Z.min a l.
Proof.
  revert a. induction l as [|x l IH]; intros a; [reflexivity|].
  cbn [fold_left fold_right]. rewrite IH. apply fold_right_min_init.
Qed.

Lemma criticalLoop_correct :
  criticalLoop changes pops = criticalNumber consumed produced pops.
Proof.
  unfold criticalLoop, criticalNumber.
  rewrite criticalLoop_as_min, fold_min_symmetric. f_equal.
  rewrite <- negative_keys, map_map.
  apply map_ext_in. intros [k nu] Hin. apply filter_In in Hin. destruct Hin as [Hin Hneg].
  cbn [fst snd] in *. apply quotient_of_entry; [assumption|now apply Z.ltb_lt].
Qed.

End CriticalNumber.

Lemma filter_none (A : Type) (P : A -> bool) (l : list A) :
  (forall x, In x l -> P x = false) -> filter P l = [].
Proof.
  induction l as [|a l IH]; intros H; [reflexivity|].
  simpl. rewrite (H a (or_introl eq_refl)). apply IH. intros x Hx. apply H. now right.
Qed.

Lemma criticalNumber_no_consumption (consumed produced : list nat) (pops : list Z) :
  (forall i, (i < length pops)%nat -> 0 <= netChange consumed produced i) ->
  criticalNumber consumed produced pops = T_max.
Proof.
  intros H. unfold criticalNumber.
  rewrite filter_none; [reflexivity|].
  intros i Hi. apply in_seq in Hi. specialize (H i ltac:(lia)).
  now apply Z.ltb_ge.
Qed.

(** C7. On a state whose populations are non-negative values of [T], and
    for a reaction (dual-state or single-state) whose reactants are species
    of the state, [computeCriticalNumberOfReactions] is the minimum, over the
    species with negative net stoichiometric change [nu], of
    [floor (population / |nu|)]; when no species has a negative net change
    the result is the largest value of [T]. *)
Theorem computeCriticalNumberOfReactions_is_minimum :
  (forall (lhs rhs rhsNon : list nat) (rate : Q) (s : KMCDualState),
      Forall (fun x => 0 <= x <= T_max) (m_reactiveState s) ->
      sanityCheck (create lhs rhs rhsNon rate) s = true ->
      Z.of_nat (length lhs) <= T_max ->
      Z.of_nat (length rhs) <= T_max ->
      computeCriticalNumberOfReactions (create lhs rhs rhsNon rate) s
      = criticalNumber lhs rhs (m_reactiveState s)
      /\ ((forall i, (i < length (m_reactiveState s))%nat -> 0 <= netChange lhs rhs i) ->
          computeCriticalNumberOfReactions (create lhs rhs rhsNon rate) s = T_max))
  /\
  (forall (reactants products : list nat) (rate : Q) (s : SingleState.KMCSingleState),
      Forall (fun x => 0 <= x <= T_max) (SingleState.m_state s) ->
      Forall (fun i => (i < length (SingleState.m_state s))%nat) reactants ->
      Z.of_nat (length reactants) <= T_max ->
      Z.of_nat (length products) <= T_max ->
      SingleReaction.computeCriticalNumberOfReactions
        (SingleReaction.create reactants products rate) s
      = criticalNumber reactants products (SingleState.m_state s)
      /\ ((forall i, (i < length (SingleState.m_state s))%nat -> 0 <= netChange reactants products i) ->
          SingleReaction.computeCriticalNumberOfReactions
            (SingleReaction.create reactants products rate) s = T_max)).
Proof.
  split.
  - intros lhs rhs rhsNon rate s Hpop Hsane Hl Hr.
    assert (Forall (fun i => (i < length (m_reactiveState s))%nat) lhs) as Hin.
    { unfold sanityCheck in Hsane. cbn [create m_lhsReactives] in Hsane.
      apply andb_prop in Hsane. destruct Hsane as [Hsane _].
      apply andb_prop in Hsane. destruct Hsane as [Hsane _].
      rewrite forallb_forall in Hsane. apply Forall_forall. intros i Hi.
      apply Nat.ltb_lt. now apply Hsane. }
    assert (computeCriticalNumberOfReactions (create lhs rhs rhsNon rate) s
            = criticalNumber lhs rhs (m_reactiveState s)) as E
        by (apply criticalLoop_correct; assumption).
    split; [exact E|]. intros Hnone. rewrite E. now apply criticalNumber_no_consumption.
  - intros reactants products rate s Hpop Hin Hl Hr.
    assert (SingleReaction.computeCriticalNumberOfReactions
              (SingleReaction.create reactants products rate) s
            = criticalNumber reactants products (SingleState.m_state s)) as E
        by (apply criticalLoop_correct; assumption).
    split; [exact E|]. intros Hnone. rewrite E. now apply criticalNumber_no_consumption.
Qed.

(** ** The state-change vectors recomputed by [getNu] *)

Section GetNu.

Lemma get_zeros (A : Type) (l : list A) (i : nat) : Vec.get (map (fun _ => 0) l) i = 0.
Proof.
  unfold Vec.get. revert i. induction l as [|a l IH]; intros [|i]; simpl; auto.
Qed.

Lemma get_app_left (u v : list Z) (i : nat) :
  (i < length u)%nat -> Vec.get (u ++ v) i = Vec.get u i.
Proof. intros H. unfold Vec.get. now apply app_nth1. Qed.

Lemma get_app_right (u v : list Z) (i : nat) :
  (length u <= i)%nat -> Vec.get (u ++ v) i = Vec.get v (i - length u).
Proof. intros H. unfold Vec.get. now apply app_nth2. Qed.

(** One firing on a vector of zeros leaves the cached change in each entry. *)
Lemma fire_once_on_zeros (A : Type) (m : StdMap.t Z) (l : list A) (i : nat) :
  StdMap.sorted m -> valuesInT m -> (i < length l)%nat ->
  Vec.get (applyChanges m 1 (map (fun _ => 0) l)) i
  = match StdMap.find i m with Some nu => nu | None => 0 end.
Proof.
  intros Hs Hv Hi.
  rewrite get_applyChanges; [|assumption|now rewrite length_map].
  rewrite get_zeros. destruct (StdMap.find i m) as [nu|] eqn:E; [|reflexivity].
  unfold T_add, T_mul. rewrite wrap_add_r.
  replace (0 + 1 * nu) with nu by lia. apply wrap_small. eapply Hv; eauto.
Qed.

Lemma in_T_cached (m : StdMap.t Z) (i : nat) :
  valuesInT m -> in_T (match StdMap.find i m with Some nu => nu | None => 0 end).
Proof.
  intros Hv. destruct (StdMap.find i m) eqn:E; [eapply Hv; eauto|].
  unfold in_T, T_min, T_max. lia.
Qed.

Lemma getNu_of_constructed (s : KMCDualState) (r : KMCDualStateReaction) :
  constructed r ->
  let preState := map (fun _ => 0) (linearOut s) in
  map (fun i => T_sub (Vec.get (linearOut (advanceState r (linearIn s preState) 1)) i)
                      (Vec.get preState i))
      (seq 0 (length preState))
  = map (cachedChange r (length (m_reactiveState s)))
        (seq 0 (length (m_reactiveState s) + length (m_nonReactiveState s))).
Proof.
  intros Hr preState.
  assert (StdMap.sorted (m_reactiveStateChange r) /\ valuesInT (m_reactiveStateChange r)
          /\ StdMap.sorted (m_nonReactiveStateChange r)
          /\ valuesInT (m_nonReactiveStateChange r)) as (HsR & HvR & HsN & HvN).
  { rewrite Hr. cbn [create m_reactiveStateChange m_nonReactiveStateChange].
    unfold computeReactiveStateChange, computeNonReactiveStateChange.
    split; [|split; [|split]].
    - apply sorted_stateChange.
    - apply valuesInT_stateChange.
    - apply sorted_fold_tally, sorted_nil.
    - apply valuesInT_fold_tally; [apply in_T_one|apply valuesInT_nil]. }
  assert (length preState
          = (length (m_reactiveState s) + length (m_nonReactiveState s))%nat) as Hlen.
  { unfold preState, linearOut. cbn [app]. now rewrite length_map, length_app. }
  rewrite Hlen. apply map_ext_in. intros i Hi. apply in_seq in Hi.
  unfold preState at 2. rewrite get_zeros.
  unfold linearIn, advanceState, linearOut, m_numReactiveSpecies, m_numNonReactiveSpecies.
  cbn [m_reactiveState m_nonReactiveState app].
  assert (forall n f, map (fun j => Vec.get preState (f j)) (seq 0 n)
                      = map (fun _ : nat => 0) (seq 0 n)) as Hz.
  { intros n f. apply map_ext. intros j. apply get_zeros. }
  rewrite (Hz _ (fun j => j)), (Hz _ (fun j => (length (m_reactiveState s) + j)%nat)).
  unfold cachedChange, getStateChange, T_sub.
  destruct (Nat.ltb_spec i (length (m_reactiveState s))) as [Hlt|Hge].
  - rewrite get_app_left by now rewrite applyChanges_length, length_map, length_seq.
    rewrite fire_once_on_zeros; [|assumption|assumption|now rewrite length_seq].
    rewrite Z.sub_0_r. now apply wrap_small, in_T_cached.
  - rewrite get_app_right by (rewrite applyChanges_length, length_map, length_seq; lia).
    rewrite applyChanges_length, length_map, length_seq.
    rewrite fire_once_on_zeros; [|assumption|assumption|rewrite length_seq; lia].
    rewrite Z.sub_0_r. now apply wrap_small, in_T_cached.
Qed.

(** The cached changes are the net stoichiometric counts of the lists the
    reaction was built from. *)
Lemma cachedChange_is_net_stoichiometry
      (lhs rhs rhsNon : list nat) (rate : Q) (nR i : nat) :
  Z.of_nat (length lhs) <= T_max ->
  Z.of_nat (length rhs) <= T_max ->
  Z.of_nat (length rhsNon) <= T_max ->
  cachedChange (create lhs rhs rhsNon rate) nR i
  = if (i <? nR)%nat then netChange lhs rhs i else occ rhsNon (i - nR).
Proof.
  intros Hl Hr Hn. unfold cachedChange, getStateChange.
  cbn [create m_reactiveStateChange m_nonReactiveStateChange].
  unfold computeReactiveStateChange, computeNonReactiveStateChange.
  destruct (i <? nR)%nat.
  - rewrite find_stateChange.
    destruct (Z.eqb_spec (occ lhs i) 0) as [E1|E1];
      destruct (Z.eqb_spec (occ rhs i) 0) as [E2|E2]; cbn [andb];
      try (apply wrap_small, netChange_in_T; assumption).
    unfold netChange. lia.
  - rewrite find_fold_tally; [|apply in_T_one|apply valuesInT_nil].
    cbn [StdMap.find].
    destruct (Z.eqb_spec (occ rhsNon (i - nR)) 0) as [E|E]; [lia|].
    rewrite Z.mul_1_l. apply wrap_small.
    pose proof (occ_nonneg rhsNon (i - nR)). pose proof (occ_le_length rhsNon (i - nR)).
    unfold in_T, T_min, T_max in *. lia.
Qed.

End GetNu.

(** C10. For every list of constructed reactions and every state that
    holds their species, the vectors recomputed by [getNu] hold, entry for
    entry, the changes the reactions cache at construction: the reactive
    state-change entries followed by the non-reactive ones, [0] for
    unaffected species.  The right-hand side depends on the state through
    its two sizes only, not through its populations. *)
Theorem getNu_is_cached_stoichiometry :
  forall (a_state : KMCDualState) (a_reactions : ReactionList),
    Forall constructed a_reactions ->
    Forall (fun r => sanityCheck r a_state = true) a_reactions ->
    getNu a_state a_reactions
    = map (fun r =>
             map (cachedChange r (length (m_reactiveState a_state)))
                 (seq 0 (length (m_reactiveState a_state)
                         + length (m_nonReactiveState a_state))))
          a_reactions.
Proof.
  intros a_state a_reactions Hall _. unfold getNu.
  apply map_ext_in. intros r Hr.
  rewrite Forall_forall in Hall.
  apply (getNu_of_constructed a_state r (Hall r Hr)).
Qed.


(** ** Partition into critical and non-critical reactions *)

Section Partition.

Variable sv : KMCSolver.
Variable a_state : KMCDualState.

Let critical (r : KMCDualStateReaction) : bool :=
  computeCriticalNumberOfReactions r a_state <? m_Ncrit sv.

Lemma partition_loop (l : ReactionList) (c n : ReactionList) :
  fold_left (fun acc r =>
               let '(criticalReactions, nonCriticalReactions) := acc in
               let Lj := computeCriticalNumberOfReactions r a_state in
               if Lj <? m_Ncrit sv
               then (criticalReactions ++ [r], nonCriticalReactions)
               else (criticalReactions, nonCriticalReactions ++ [r]))
            l (c, n)
  = (c ++ filter critical l, n ++ filter (fun r => negb (critical r)) l).
Proof.
  unfold critical. revert c n. induction l as [|r l IH]; intros c n.
  - simpl. now rewrite !app_nil_r.
  - cbn [fold_left filter].
    destruct (computeCriticalNumberOfReactions r a_state <? m_Ncrit sv);
      rewrite IH; cbn [negb]; now rewrite <- app_assoc.
Qed.

Lemma filter_split_permutation (A : Type) (p : A -> bool) (l : list A) :
  Permutation (filter p l ++ filter (fun x => negb (p x)) l) l.
Proof.
  induction l as [|a l IH]; [constructor|].
  cbn [filter]. destruct (p a); cbn [negb app].
  - now constructor.
  - symmetry. apply Permutation_cons_app. now symmetry.
Qed.

End Partition.

(** C5. [partitionReactions] returns the reactions whose critical number
    is below [Ncrit], in list order, and the remaining ones, in list order;
    the two lists together are a rearrangement of the input list: every
    occurrence of a reaction lands in exactly one of them, and nothing else
    does. *)
Theorem partitionReactions_complete :
  forall (sv : KMCSolver) (a_state : KMCDualState) (a_reactions : ReactionList),
    let critical r := computeCriticalNumberOfReactions r a_state <? m_Ncrit sv in
    let parts := partitionReactions sv a_state a_reactions in
    fst parts = filter critical a_reactions
    /\ snd parts = filter (fun r => negb (critical r)) a_reactions
    /\ Permutation (fst parts ++ snd parts) a_reactions
    /\ (length (fst parts) + length (snd parts))%nat = length a_reactions
    /\ (forall r, In r a_reactions ->
                  (In r (fst parts) /\ critical r = true)
                  \/ (In r (snd parts) /\ critical r = false)).
Proof.
  intros sv a_state a_reactions critical parts.
  assert (parts = (filter critical a_reactions,
                   filter (fun r => negb (critical r)) a_reactions)) as E.
  { unfold parts, partitionReactions. now rewrite partition_loop. }
  rewrite E. cbn [fst snd].
  assert (Permutation (filter critical a_reactions
                       ++ filter (fun r => negb (critical r)) a_reactions) a_reactions) as P
      by apply filter_split_permutation.
  repeat split; try assumption.
  - rewrite <- length_app. now apply Permutation_length.
  - intros r Hr. destruct (critical r) eqn:C.
    + left. split; [|reflexivity]. apply filter_In. tauto.
    + right. split; [|reflexivity]. apply filter_In. rewrite C. tauto.
Qed.

(** ** The selection loop of [stepSSA] *)

Section Selection.

Local Open Scope Q_scope.

Lemma Rleb_true (a b : Q) : Rleb a b = true <-> a <= b.
Proof. unfold Rleb. apply Qle_bool_iff. Qed.

Lemma Rleb_false (a b : Q) : Rleb a b = false <-> b < a.
Proof.
  unfold Rleb. split; intros H.
  - apply Qnot_le_lt. intros C. apply Qle_bool_iff in C. congruence.
  - destruct (Qle_bool a b) eqn:E; [|reflexivity].
    apply Qle_bool_iff in E. exfalso. apply (Qlt_not_le _ _ H E).
Qed.

Lemma Rltb_true (a b : Q) : Rltb a b = true <-> a < b.
Proof.
  unfold Rltb. rewrite negb_true_iff. apply (Rleb_false b a).
Qed.

Lemma Rltb_false (a b : Q) : Rltb a b = false <-> b <= a.
Proof.
  unfold Rltb. rewrite negb_false_iff. apply (Rleb_true b a).
Qed.




End Selection.



(** ** The propensity loop *)

Section PropensityLoop.

Variable pops : list Z.

Lemma propensityLoop_cons (A0 : Q) (r : nat) (l : list nat) (st : list Z) :
  propensityLoop A0 (r :: l) st
  = propensityLoop (A0 * inject_Z (Vec.get st r))%Q l (Vec.upd st r (fun x => T_sub x 1)).
Proof. reflexivity. Qed.

Lemma occ_cons_same (l : list nat) (r : nat) : occ (r :: l) r = occ l r + 1.
Proof. unfold occ. cbn [count_occ]. destruct (Nat.eq_dec r r); [lia|congruence]. Qed.

Lemma occ_cons_other (l : list nat) (r i : nat) : i <> r -> occ (r :: l) i = occ l i.
Proof. intros H. unfold occ. cbn [count_occ]. destruct (Nat.eq_dec r i); [congruence|reflexivity]. Qed.


End PropensityLoop.

(** ** The propensity factor *)

Section PropensityFactor.

Local Open Scope Q_scope.

Lemma find_countUp (m : StdMap.t nat) (k i : nat) :
  StdMap.find i (countUp m k)
  = if Nat.eqb i k
    then Some (match StdMap.find k m with Some c => S c | None => 1%nat end)
    else StdMap.find i m.
Proof.
  unfold countUp. destruct (StdMap.find k m) eqn:E.
  - apply find_assign.
  - now apply find_emplace.
Qed.

Lemma sorted_countUp (m : StdMap.t nat) (k : nat) :
  StdMap.sorted m -> StdMap.sorted (countUp m k).
Proof.
  intros H. unfold countUp, StdMap.emplace.
  destruct (StdMap.find k m); now apply sorted_assign.
Qed.

Lemma sorted_fold_countUp (l : list nat) (m : StdMap.t nat) :
  StdMap.sorted m -> StdMap.sorted (fold_left countUp l m).
Proof.
  revert m. induction l as [|k l IH]; intros m H; simpl; auto using sorted_countUp.
Qed.

Lemma find_fold_countUp (l : list nat) (m : StdMap.t nat) (i : nat) :
  StdMap.find i (fold_left countUp l m)
  = match StdMap.find i m with
    | Some c => Some (c + multiplicity l i)%nat
    | None => if Nat.eqb (multiplicity l i) 0 then None else Some (multiplicity l i)
    end.
Proof.
  unfold multiplicity. revert m. induction l as [|k l IH]; intros m.
  - simpl. destruct (StdMap.find i m); [f_equal; lia|reflexivity].
  - cbn [fold_left]. rewrite IH, find_countUp. cbn [count_occ].
    destruct (Nat.eq_dec k i) as [->|Hne].
    + rewrite Nat.eqb_refl. destruct (StdMap.find i m); cbn [Nat.eqb]; f_equal; lia.
    + destruct (Nat.eqb_spec i k); [congruence|reflexivity].
Qed.

Lemma reactantNumbers_entries (l : list nat) (k c : nat) :
  In (k, c) (fold_left countUp l []) -> c = multiplicity l k /\ In k l.
Proof.
  intros Hin. apply In_find in Hin; [|apply sorted_fold_countUp; constructor].
  rewrite find_fold_countUp in Hin. cbn [StdMap.find] in Hin.
  destruct (Nat.eqb_spec (multiplicity l k) 0) as [E|E]; [discriminate|].
  injection Hin as <-. split; [reflexivity|].
  apply (count_occ_In Nat.eq_dec). unfold multiplicity in E. lia.
Qed.

Lemma reactantNumbers_keys (l : list nat) :
  Permutation (StdMap.keys (fold_left countUp l [])) (nodup Nat.eq_dec l).
Proof.
  apply NoDup_Permutation.
  - apply sorted_NoDup, sorted_fold_countUp. constructor.
  - apply NoDup_nodup.
  - intros k. rewrite nodup_In. split.
    + unfold StdMap.keys. intros Hk. apply in_map_iff in Hk.
      destruct Hk as [[k' c] [<- Hin]]. now apply reactantNumbers_entries in Hin.
    + intros Hk. destruct (in_dec Nat.eq_dec k (StdMap.keys (fold_left countUp l [])))
        as [Hin|Hout]; [assumption|].
      apply find_None_keys in Hout. rewrite find_fold_countUp in Hout.
      cbn [StdMap.find] in Hout.
      apply (count_occ_In Nat.eq_dec) in Hk. fold (multiplicity l k) in Hk.
      destruct (Nat.eqb_spec (multiplicity l k) 0); [lia|discriminate].
Qed.

Lemma fold_mult_Rprod (A : Type) (g : A -> Q) (l : list A) (a : Q) :
  fold_left (fun pf x => pf * g x) l a == a * Rprod (map g l).
Proof.
  revert a. induction l as [|x l IH]; intros a; cbn [fold_left map Rprod fold_right].
  - ring.
  - rewrite IH. fold (Rprod (map g l)). ring.
Qed.

Lemma Rprod_cons (x : Q) (l : list Q) : Rprod (x :: l) = x * Rprod l.
Proof. reflexivity. Qed.

Lemma Rprod_permutation (l1 l2 : list Q) : Permutation l1 l2 -> Rprod l1 == Rprod l2.
Proof.
  induction 1 as [|x l1 l2 _ IH|x y l|l1 l2 l3 _ IH1 _ IH2]; rewrite ?Rprod_cons.
  - reflexivity.
  - now rewrite IH.
  - ring.
  - now rewrite IH1.
Qed.

Lemma Rprod_filter (A : Type) (g : A -> Q) (P : A -> bool) (l : list A) :
  (forall x, P x = false -> g x == 1) ->
  Rprod (map g l) == Rprod (map g (filter P l)).
Proof.
  intros H. induction l as [|x l IH]; [reflexivity|].
  cbn [map filter Rprod fold_right]. fold (Rprod (map g l)).
  destruct (P x) eqn:E; cbn [map Rprod fold_right].
  - fold (Rprod (map g (filter P l))). now rewrite IH.
  - rewrite (H x E), IH. fold (Rprod (map g (filter P l))). ring.
Qed.

Lemma factorial_steps :
  forallb (fun k => factorial (Z.of_nat (S k)) =? Z.of_nat (S k) * factorial (Z.of_nat k))%Z
          (seq 0 20) = true.
Proof. vm_compute. reflexivity. Qed.

Lemma fact_succ_Z (k : nat) : Z.of_nat (fact (S k)) = (Z.of_nat (S k) * Z.of_nat (fact k))%Z.
Proof.
  change (fact (S k)) with (S k * fact k)%nat. apply Nat2Z.inj_mul.
Qed.

Lemma factorial_small (k : nat) : (k <= 20)%nat -> factorial (Z.of_nat k) = Z.of_nat (fact k).
Proof.
  induction k as [|k IH]; intros Hk; [reflexivity|].
  rewrite fact_succ_Z, <- IH by lia.
  pose proof factorial_steps as Hs. rewrite forallb_forall in Hs.
  apply Z.eqb_eq. apply (Hs k). apply in_seq. lia.
Qed.

Lemma propensityFactor_correct (reactants : list nat) :
  (forall i, (multiplicity reactants i <= 20)%nat) ->
  computePropensityFactor reactants == combinatorialFactor reactants.
Proof.
  intros Hsmall. unfold computePropensityFactor, combinatorialFactor.
  set (g := fun i : nat => 1 / inject_Z (Z.of_nat (fact (multiplicity reactants i)))).
  rewrite (fold_mult_Rprod _ (fun rn => 1 / inject_Z (factorial (Z.of_nat (snd rn))))).
  rewrite Qmult_1_l.
  assert (map (fun rn : nat * nat => 1 / inject_Z (factorial (Z.of_nat (snd rn))))
              (fold_left countUp reactants [])
          = map g (StdMap.keys (fold_left countUp reactants []))) as ->.
  { unfold StdMap.keys. rewrite map_map. apply map_ext_in. intros [k c] Hin.
    apply reactantNumbers_entries in Hin. destruct Hin as [-> _]. cbn [fst snd].
    unfold g. now rewrite factorial_small by apply Hsmall. }
  rewrite (Rprod_permutation _ (map g (nodup Nat.eq_dec reactants)))
    by apply Permutation_map, reactantNumbers_keys.
  apply Rprod_filter. intros i Hi. apply Nat.leb_gt in Hi. unfold g.
  assert (multiplicity reactants i = 0 \/ multiplicity reactants i = 1)%nat as [-> | ->] by lia;
    reflexivity.
Qed.

Lemma Rprod_pos (l : list Q) : Forall (fun x => 0 < x) l -> 0 < Rprod l.
Proof.
  induction 1 as [|x l Hx _ IH]; [reflexivity|].
  rewrite Rprod_cons. now apply Qmult_lt_0_compat.
Qed.

Lemma combinatorialFactor_pos (reactants : list nat) : 0 < combinatorialFactor reactants.
Proof.
  unfold combinatorialFactor. apply Rprod_pos.
  apply Forall_forall. intros x Hx. apply in_map_iff in Hx. destruct Hx as (i & <- & _).
  apply Qlt_shift_div_l.
  - change 0 with (inject_Z 0). rewrite <- Zlt_Qlt.
    pose proof (lt_O_fact (multiplicity reactants i)). lia.
  - rewrite Qmult_0_l. reflexivity.
Qed.

End PropensityFactor.

Section SelfReaction.

Local Open Scope Q_scope.






End SelfReaction.



(** ** The non-critical time step *)

Section NonCriticalTimeStep.

Lemma fold_left_pointwise (A B : Type) (f g : A -> B -> A) (l : list B) (a : A) :
  (forall a x, f a x = g a x) -> fold_left f l a = fold_left g l a.
Proof.
  intros H. revert a. induction l as [|x l IH]; intros a; [reflexivity|].
  cbn [fold_left]. now rewrite H, IH.
Qed.

Lemma gather_loop (rest : ReactionList) (acc : list nat) :
  fold_left (fun all r => all ++ getReactants r) rest acc
  = acc ++ flat_map getReactants rest.
Proof.
  revert acc. induction rest as [|r rest IH]; intros acc; cbn [fold_left flat_map].
  - now rewrite app_nil_r.
  - now rewrite IH, app_assoc.
Qed.

Lemma gatherReactants_unique (rs : ReactionList) :
  gatherReactants rs = unique (flat_map getReactants rs).
Proof.
  destruct rs as [|r0 rest]; [reflexivity|].
  unfold gatherReactants. now rewrite gather_loop.
Qed.

(** A loop body that gives the same result when run twice on the same
    element does not see what [std::unique] removes. *)
Lemma fold_unique (A : Type) (step : A -> nat -> A) (l : list nat) (a : A) :
  (forall a x, step (step a x) x = step a x) ->
  fold_left step (unique l) a = fold_left step l a.
Proof.
  intros Hidem. revert a. induction l as [|x l IH]; intros a; [reflexivity|].
  destruct l as [|y l]; [reflexivity|].
  change (unique (x :: y :: l))
    with (if Nat.eqb x y then unique (y :: l) else x :: unique (y :: l)).
  destruct (Nat.eqb_spec x y) as [->|Hne].
  - rewrite IH. cbn [fold_left]. now rewrite Hidem.
  - cbn [fold_left]. rewrite IH. reflexivity.
Qed.

Lemma Rstdmin_idempotent (a b : Q) : Rstdmin (Rstdmin a b) b = Rstdmin a b.
Proof.
  unfold Rstdmin. destruct (Rltb b a) eqn:E.
  - assert (Rltb b b = false) as -> by (apply Rltb_false, Qle_refl). reflexivity.
  - now rewrite E.
Qed.

Lemma fold_guarded_min (pos : nat -> bool) (bound : nat -> Q) (l : list nat) (dt : Q) :
  fold_left (fun dt i => if pos i then Rstdmin dt (bound i) else dt) l dt
  = fold_left Rstdmin (map bound (filter pos l)) dt.
Proof.
  revert dt. induction l as [|x l IH]; intros dt; [reflexivity|].
  cbn [fold_left filter]. destruct (pos x); cbn [map fold_left]; apply IH.
Qed.

Lemma fold_pair_sums (A : Type) (f g : A -> Q) (l : list A) (a b : Q) :
  fold_left (fun acc x => let '(mu, sigma2) := acc in ((mu + f x)%Q, (sigma2 + g x)%Q)) l (a, b)
  = (fold_left Qplus (map f l) a, fold_left Qplus (map g l) b).
Proof.
  revert a b. induction l as [|x l IH]; intros a b; [reflexivity|].
  cbn [fold_left map]. apply IH.
Qed.

Lemma getStateChange_small (r : KMCDualStateReaction) (i : nat) :
  Forall (fun s => Z.abs (snd s) < 2 ^ 31) (m_reactiveStateChange r) ->
  Z.abs (getStateChange r i) < 2 ^ 31.
Proof.
  intros H. unfold getStateChange.
  destruct (StdMap.find i (m_reactiveStateChange r)) as [nu|] eqn:E; [|reflexivity].
  apply find_In in E. rewrite Forall_forall in H. apply (H _ E).
Qed.

Lemma square_fits (nu : Z) : Z.abs nu < 2 ^ 31 -> T_mul nu nu = nu * nu.
Proof.
  intros H. unfold T_mul. apply wrap_small. unfold in_T, T_min, T_max.
  assert (0 <= nu * nu) by nia.
  assert (nu * nu <= 2 ^ 31 * 2 ^ 31) by nia.
  lia.
Qed.

Lemma muSigma2_sums (i : nat) (rs : ReactionList) (props : list Q) :
  squaresFit rs ->
  muSigma2 i rs props = (muOf i rs props, sigma2Of i rs props).
Proof.
  intros Hfit. unfold muSigma2, muOf, sigma2Of, Rsum.
  rewrite <- (fold_pair_sums _
                (fun rp => Qabs (inject_Z (getStateChange (fst rp) i) * snd rp))
                (fun rp => Qabs (inject_Z (getStateChange (fst rp) i * getStateChange (fst rp) i)
                                 * snd rp))).
  assert (forall (l : list (KMCDualStateReaction * Q)) (acc : Q * Q),
             (forall rp, In rp l -> In (fst rp) rs) ->
             fold_left
               (fun acc rp =>
                  let '(mu, sigma2) := acc in
                  let p := snd rp in
                  let muIJ := getStateChange (fst rp) i in
                  ((mu + Qabs (inject_Z muIJ * p))%Q,
                   (sigma2 + Qabs (inject_Z (T_mul muIJ muIJ) * p))%Q)) l acc
             = fold_left
                 (fun acc rp =>
                    let '(mu, sigma2) := acc in
                    ((mu + Qabs (inject_Z (getStateChange (fst rp) i) * snd rp))%Q,
                     (sigma2
                      + Qabs (inject_Z (getStateChange (fst rp) i * getStateChange (fst rp) i)
                              * snd rp))%Q)) l acc) as Hloop.
  { induction l as [|rp l IH]; intros [mu sigma2] Hin; [reflexivity|].
    cbn [fold_left]. rewrite square_fits.
    - apply IH. intros rp' Hrp'. apply Hin. now right.
    - apply getStateChange_small. unfold squaresFit in Hfit.
      rewrite Forall_forall in Hfit. apply Hfit, Hin. now left. }
  apply Hloop. intros [r p] Hin. cbn [fst]. eapply in_combine_l; eauto.
Qed.

(** What a fold of [std::min] from the largest [Real] returns. *)
Lemma fold_min_lower (l : list Q) (dt : Q) :
  (fold_left Rstdmin l dt <= dt)%Q
  /\ (forall b, In b l -> fold_left Rstdmin l dt <= b)%Q.
Proof.
  revert dt. induction l as [|x l IH]; intros dt; cbn [fold_left].
  - split; [apply Qle_refl|intros b []].
  - destruct (IH (Rstdmin dt x)) as [Hacc Hall].
    assert (Rstdmin dt x <= dt /\ Rstdmin dt x <= x)%Q as [H1 H2].
    { unfold Rstdmin. destruct (Rltb x dt) eqn:E.
      - apply Rltb_true in E. split; [now apply Qlt_le_weak|apply Qle_refl].
      - apply Rltb_false in E. split; [apply Qle_refl|assumption]. }
    split; [eapply Qle_trans; eauto|].
    intros b [<-|Hb]; [eapply Qle_trans; eauto|now apply Hall].
Qed.

Lemma fold_min_attained (l : list Q) (dt : Q) :
  fold_left Rstdmin l dt = dt \/ In (fold_left Rstdmin l dt) l.
Proof.
  revert dt. induction l as [|x l IH]; intros dt; cbn [fold_left]; [now left|].
  destruct (IH (Rstdmin dt x)) as [E|Hin]; [|right; now right].
  rewrite E. unfold Rstdmin. destruct (Rltb x dt); [right; now left|now left].
Qed.

Lemma getNonCriticalTimeStep_loop (sv : KMCSolver) (a_state : KMCDualState)
      (rs : ReactionList) (props : list Q) :
  getNonCriticalTimeStep sv a_state rs props
  = fold_left (fun dt reactant =>
                 let Xi := population reactant a_state in
                 if 0 <? Xi
                 then
                   let '(mu, sigma2) := muSigma2 reactant rs props in
                   Rstdmin dt (reactantBound sv Xi mu sigma2)
                 else dt)
              (gatherReactants rs) Real_max.
Proof. destruct rs; reflexivity. Qed.

End NonCriticalTimeStep.

(** C6 (as amended). For every state and every list of non-critical
    reactions with their propensities (no state change so large that its
    square leaves [T]), as long as the values formed stay in the range of
    [Real] ([eps] and the propensities finite; [eps * X_i], [f^2], [mu]
    and [sigma2] at most the largest [Real] for every species a bound is
    taken from), [getNonCriticalTimeStep] returns the minimum, over the
    reactant species of the listed reactions whose population is positive,
    of [min (dt1, dt2)], where [dt1 = f / mu] when [mu] exceeds the
    smallest normal [Real] and [dt2 = f^2 / sigma2] when [sigma2] does, each
    being the largest [Real] otherwise; [mu = sum_j |nu_ij * a_j|],
    [sigma2 = sum_j |nu_ij^2 * a_j|], [f = max (eps * X_i / 4, 1)]; the
    result is the largest [Real] when no species yields a smaller bound. *)
Theorem getNonCriticalTimeStep_is_guarded_minimum :
  forall (sv : KMCSolver) (a_state : KMCDualState)
         (a_nonCriticalReactions : ReactionList) (a_nonCriticalPropensities : list Q),
    squaresFit a_nonCriticalReactions ->
    leapInRange sv a_state a_nonCriticalReactions a_nonCriticalPropensities ->
    let bound := guardedBound sv a_state a_nonCriticalReactions a_nonCriticalPropensities in
    let species := boundedSpecies a_state a_nonCriticalReactions in
    let dt := getNonCriticalTimeStep sv a_state a_nonCriticalReactions
                                     a_nonCriticalPropensities in
    dt = Rminimum (map bound species)
    /\ (dt <= Real_max)%Q
    /\ (forall i, In i species -> (dt <= bound i)%Q)
    /\ (dt = Real_max \/ exists i, In i species /\ dt = bound i).
Proof.
  intros sv a_state rs props Hfit _ bound species dt.
  assert (dt = Rminimum (map bound species)) as E.
  { unfold dt. rewrite getNonCriticalTimeStep_loop.
    rewrite gatherReactants_unique.
    rewrite fold_unique.
    - unfold Rminimum, species, boundedSpecies.
      rewrite <- (fold_guarded_min (fun i => 0 <? population i a_state) bound).
      apply fold_left_pointwise.
      intros a i. cbv zeta. rewrite muSigma2_sums by assumption. reflexivity.
    - intros a x. cbv zeta. destruct (0 <? population x a_state); [|reflexivity].
      destruct (muSigma2 x rs props). apply Rstdmin_idempotent. }
  split; [exact E|]. rewrite E. unfold Rminimum.
  destruct (fold_min_lower (map bound species) Real_max) as [Hmax Hall].
  split; [exact Hmax|]. split.
  - intros i Hi. apply Hall. now apply in_map.
  - destruct (fold_min_attained (map bound species) Real_max) as [Hd|Hin]; [now left|].
    right. apply in_map_iff in Hin. destruct Hin as [i [Hb Hi]]. exists i. now split.
Qed.


(** ** The drivers *)

(** [isValidState] holds exactly when no entry of either class is negative. *)
Lemma isValidState_iff (s : KMCDualState) :
  isValidState s = true <-> Forall (fun p => 0 <= p) (linearOut s).
Proof.
  unfold isValidState, linearOut. cbn [app]. rewrite Forall_app.
  assert (forall l, existsb (fun p => p <? 0) l = false <-> Forall (fun p => 0 <= p) l) as H.
  { induction l as [|a l IH]; cbn [existsb].
    - split; [constructor|reflexivity].
    - rewrite orb_false_iff, IH, Z.ltb_ge. split.
      + intros [? ?]. now constructor.
      + now inversion 1. }
  rewrite <- !H.
  destruct (existsb _ (m_reactiveState s)), (existsb _ (m_nonReactiveState s));
    intuition congruence.
Qed.

Section Drivers.

Variable log : Q -> Q.
Variable dgesv : nat -> list Q -> list Q -> Z * list Q.

(** Step rejection in [advanceTau]: whatever the leaping scheme does, a
    state is committed only after [isValidState] accepted it. *)
Lemma advanceTauLoop_commits_valid_states
      (implicit : KMCDualState -> ReactionList -> Q -> Comp KMCDualState)
      (a_reactions : ReactionList) (a_dt : Q) (p : KMCLeapPropagator) (fuel : nat) :
  forall (a_state : KMCDualState) (curTime curDt : Q) (g g' : Rng) (final : KMCDualState),
    isValidState a_state = true ->
    advanceTauLoop implicit a_reactions a_dt p fuel a_state curTime curDt g = Ret (final, g') ->
    isValidState final = true.
Proof.
  induction fuel as [|fuel IH]; intros a_state curTime curDt g g' final Hvalid Hrun.
  - discriminate.
  - cbn [advanceTauLoop] in Hrun. unfold bind in Hrun.
    destruct (tauSwitch implicit p a_state a_reactions curDt g) as [[state g1]| | |];
      try discriminate.
    destruct (isValidState state) eqn:Hstate.
    + destruct (Rltb (curTime + curDt) a_dt).
      * eapply IH; [exact Hstate|exact Hrun].
      * injection Hrun as <- _. exact Hstate.
    + eapply IH; [exact Hvalid|exact Hrun].
Qed.

Lemma advanceTau_commits_valid_states
      (sv : KMCSolver) (fuel : nat) (a_state : KMCDualState) (a_reactions : ReactionList)
      (a_dt : Q) (p : KMCLeapPropagator) (g g' : Rng) (final : KMCDualState) :
  isValidState a_state = true ->
  advanceTau dgesv sv fuel a_state a_reactions a_dt p g = Ret (final, g') ->
  isValidState final = true.
Proof.
  intros Hvalid Hrun. unfold advanceTau, advanceTauWith in Hrun.
  destruct a_reactions as [|r0 rest].
  - injection Hrun as <- _. exact Hvalid.
  - destruct (Rltb 0 a_dt).
    + eapply advanceTauLoop_commits_valid_states; eauto.
    + injection Hrun as <- _. exact Hvalid.
Qed.

End Drivers.

(** C9. With a selector that is none of the four schemes, [advanceHybrid]
    stops in [MayDay::Error], but [advanceTau] takes the [default] branch of
    its [switch]: from a valid state it returns normally, with the state and
    the random source untouched, for every reaction list and increment. *)
Theorem advanceTau_ignores_unrecognized_selector :
  forall (log : Q -> Q) (dgesv : nat -> list Q -> list Q -> Z * list Q)
         (sv : KMCSolver) (fuel : nat) (a_state : KMCDualState)
         (a_reactions : ReactionList) (a_dt : Q) (tag : Z) (g : Rng),
    isValidState a_state = true ->
    advanceTau dgesv sv (S fuel) a_state a_reactions a_dt (Unrecognized tag) g
    = Ret (a_state, g)
    /\ advanceHybrid log dgesv sv (S fuel) a_state a_reactions a_dt (Unrecognized tag) g
       = Abort.
Proof.
  intros log dgesv sv fuel a_state a_reactions a_dt tag g Hvalid.
  split; [|reflexivity].
  unfold advanceTau, advanceTauWith.
  destruct a_reactions as [|r0 rest]; [reflexivity|].
  destruct (Rltb 0 a_dt) eqn:Hdt; [|reflexivity].
  cbn [advanceTauLoop tauSwitch]. unfold bind, ret. rewrite Hvalid.
  assert (Rltb (0 + (a_dt - 0)) a_dt = false) as ->; [|reflexivity].
  apply Rltb_false. lra.
Qed.

Lemma advanceTau_ignores_unrecognized_selector_witness :
  advanceTau dgesvOrderOne defaultSolver 1 tenA [decayA] 1 (Unrecognized 4) drawsOfThree
  = Ret (tenA, drawsOfThree)
  /\ advanceHybrid logSeries dgesvOrderOne defaultSolver 1 tenA [decayA] 1 (Unrecognized 4)
                   drawsOfThree
     = Abort.
Proof.
  apply (advanceTau_ignores_unrecognized_selector
           logSeries dgesvOrderOne defaultSolver 0 tenA [decayA] 1 4 drawsOfThree).
  reflexivity.
Defined.

(** ** Closed runs *)

(** The propensities of [A -> 0] and [B -> 0] on [A = 0], [B = 1], and what
    [stepSSA] does with them when the uniform draw is exactly zero: the
    first reaction is selected although its propensity is zero. *)
Lemma stepSSA_fires_zero_propensity_reaction :
  propensities noA twoDecays = [0%Q; 2%Q]
  /\ stepSSA noA twoDecays (propensities noA twoDecays)
             (mkRng (fun _ => 0%Q) (fun _ _ => 0) 0 0)
     = Ret (DualState.mkState [-1; 1] [], mkRng (fun _ => 0%Q) (fun _ _ => 0) 1 0).
Proof. split; vm_compute; reflexivity. Qed.

(** C1. A run of [advanceHybrid] from a valid state that returns with a
    negative population: the SSA fallback fires [stepSSA] on [a_state]
    itself, and the third uniform draw, exactly zero, selects [A -> 0] at
    [A = 0]. *)
Theorem advanceHybrid_commits_negative_population :
  isValidState noA = true
  /\ isValidState (DualState.mkState [-1; 1] []) = false
  /\ exists g' : Rng,
      advanceHybrid logSeries dgesvOrderOne fallbackSolver 10 noA twoDecays (1 # 2)
                    ExplicitEuler drawsWithZero
      = Ret (DualState.mkState [-1; 1] [], g').
Proof.
  split; [reflexivity|]. split; [reflexivity|].
  eexists. vm_compute. reflexivity.
Qed.


(** ** Newton's iteration on the single decay [A -> 0] *)

Section NewtonOnDecay.

Local Open Scope Q_scope.

Variable maxIter : Z.

(** Rounding to the nearest integer stays within one half. *)
Lemma llround_near (x : Q) :
  0 <= x -> inject_Z (llround x) - (1 # 2) <= x /\ x < inject_Z (llround x) + (1 # 2).
Proof.
  intros Hx. unfold llround.
  assert (Rltb x 0 = false) as -> by now apply Rltb_false.
  pose proof (Qfloor_le (x + (1 # 2))) as Hlo.
  pose proof (Qlt_floor (x + (1 # 2))) as Hhi.
  rewrite inject_Z_plus in Hhi. change (inject_Z 1) with 1 in Hhi.
  split; lra.
Qed.

Lemma llround_nonneg (x : Q) : 0 <= x -> (0 <= llround x)%Z.
Proof.
  intros Hx. destruct (llround_near x Hx) as [_ Hhi].
  assert (-1 < inject_Z (llround x)) as H by lra.
  change (-1) with (inject_Z (-1)) in H. rewrite <- Zlt_Qlt in H. lia.
Qed.

Lemma llround_bounded (x : Q) : 0 <= x -> x < 100 -> (llround x <= 100)%Z.
Proof.
  intros Hx Hx'. destruct (llround_near x Hx) as [Hlo _].
  assert (inject_Z (llround x) < 101) as H by lra.
  change 101 with (inject_Z 101) in H. rewrite <- Zlt_Qlt in H. lia.
Qed.

(** The single residual of the system: [F (x) = x - c + round (x)]. *)
Lemma computeF_decay (x c : Q) :
  computeF (cappedSolver maxIter) tenA [decayA] 1 [x] [c]
  = [x - c - 1 * inject_Z (-1) * (1 * (1 * (1 / inject_Z 1)) * inject_Z (wrap (llround x)))].
Proof.
  unfold computeF.
  replace (getNu tenA [decayA]) with [[(-1)%Z]] by (vm_compute; reflexivity).
  cbv -[llround wrap Qplus Qminus Qmult Qdiv inject_Z Qopp Qinv]. reflexivity.
Qed.

Lemma residual_value (x c : Q) :
  0 <= x -> x < 100 ->
  x - c - 1 * inject_Z (-1) * (1 * (1 * (1 / inject_Z 1)) * inject_Z (wrap (llround x)))
  == x - c + inject_Z (llround x).
Proof.
  intros Hx Hx'. rewrite wrap_small.
  - change (inject_Z 1) with 1. change (inject_Z (-1)) with (-1). field.
  - pose proof (llround_nonneg x Hx). pose proof (llround_bounded x Hx Hx').
    unfold in_T, T_min, T_max. lia.
Qed.

Lemma llround_succ (x : Q) : 0 <= x -> llround (x + 1) = (llround x + 1)%Z.
Proof.
  intros Hx.
  destruct (llround_near x Hx) as [Hlo Hhi].
  destruct (llround_near (x + 1)) as [Hlo' Hhi']; [lra|].
  assert (inject_Z (llround (x + 1)) < inject_Z (llround x + 2)) as H1
      by (rewrite inject_Z_plus; change (inject_Z 2) with 2; lra).
  assert (inject_Z (llround x) < inject_Z (llround (x + 1))) as H2 by lra.
  rewrite <- Zlt_Qlt in H1, H2. lia.
Qed.

(** No point of the line is near a root: [x + round x] stays at least one
    half away from the odd number 17. *)
Lemma residual_far (x : Q) :
  0 <= x -> (1 # 2) <= Qabs (x - 17 + inject_Z (llround x)).
Proof.
  intros Hx. destruct (llround_near x Hx) as [Hlo Hhi].
  destruct (Z_le_gt_dec (llround x) 8) as [Hr|Hr].
  - assert (inject_Z (llround x) <= 8) as H
        by (change 8 with (inject_Z 8); now rewrite <- Zle_Qle).
    rewrite Qabs_neg by lra. lra.
  - assert (9 <= inject_Z (llround x)) as H
        by (change 9 with (inject_Z 9); rewrite <- Zle_Qle; lia).
    rewrite Qabs_pos by lra. lra.
Qed.

Lemma Rstdmax_zero_abs (a : Q) : Rstdmax 0 (Qabs a) == Qabs a.
Proof.
  unfold Rstdmax. destruct (Rltb 0 (Qabs a)) eqn:E; [reflexivity|].
  apply Rltb_false in E. pose proof (Qabs_nonneg a). lra.
Qed.

Lemma computeNorm_decay (x c : Q) :
  0 <= x -> x < 100 ->
  computeNorm (cappedSolver maxIter) tenA [decayA] 1 [x] [c]
  == Qabs (x - c + inject_Z (llround x)).
Proof.
  intros Hx Hx'. unfold computeNorm. rewrite computeF_decay. cbn [fold_left].
  rewrite Rstdmax_zero_abs. now rewrite residual_value.
Qed.

Lemma jacobian_decay (x c : Q) :
  0 <= x -> x < 100 ->
  exists j : Q,
    jacobian (cappedSolver maxIter) tenA [decayA] 1 [x] [c] = [j] /\ j == 2.
Proof.
  intros Hx Hx'. unfold jacobian.
  change (length (linearOut tenA)) with 1%nat.
  cbn [seq flat_map rupd tabulate map app]. rewrite !computeF_decay. cbn [rget nth].
  eexists. split; [reflexivity|].
  assert (Rstdmax ((1 # 100) * x) 1 = 1) as ->.
  { unfold Rstdmax. assert (Rltb ((1 # 100) * x) 1 = true) as ->; [|reflexivity].
    apply Rltb_true. lra. }
  destruct (Qlt_le_dec (x + 1) 100) as [Hs|Hs].
  - rewrite !residual_value by lra. rewrite llround_succ by assumption.
    rewrite inject_Z_plus. change (inject_Z 1) with 1. field. lra.
  - (* the perturbed point is still far below the range of [T] *)
    assert (forall y, 0 <= y -> y < 200 ->
                      y - c - 1 * inject_Z (-1)
                                * (1 * (1 * (1 / inject_Z 1)) * inject_Z (wrap (llround y)))
                      == y - c + inject_Z (llround y)) as Hres.
    { intros y Hy Hy'. rewrite wrap_small.
      - change (inject_Z 1) with 1. change (inject_Z (-1)) with (-1). field.
      - pose proof (llround_nonneg y Hy). destruct (llround_near y Hy) as [Hlo _].
        assert (inject_Z (llround y) < 201) as H1 by lra.
        change 201 with (inject_Z 201) in H1. rewrite <- Zlt_Qlt in H1.
        unfold in_T, T_min, T_max. lia. }
    rewrite !Hres by lra. rewrite llround_succ by assumption.
    rewrite inject_Z_plus. change (inject_Z 1) with 1. field. lra.
Qed.

(** One pass of the loop body: the solve succeeds, the exit test fails, and
    the next iterate lies between 8.25 and 8.75. *)
Lemma newton_step (k : nat) (initNorm x c : Q) :
  c == 17 -> initNorm == 17 -> 0 <= x -> x < 100 ->
  exists x' : Q,
    newtonLoop dgesvOrderOne (cappedSolver maxIter) tenA [decayA] 1 (S k) initNorm [x] [c]
    = newtonLoop dgesvOrderOne (cappedSolver maxIter) tenA [decayA] 1 k initNorm [x'] [c]
    /\ (33 # 4) <= x' /\ x' < (35 # 4).
Proof.
  intros Hc Hinit Hx Hx'. cbn [newtonLoop].
  destruct (jacobian_decay x c Hx Hx') as (j & -> & Hj).
  rewrite computeF_decay.
  change (length (linearOut tenA)) with 1%nat.
  set (f := x - c - 1 * inject_Z (-1)
                    * (1 * (1 * (1 / inject_Z 1)) * inject_Z (wrap (llround x)))).
  assert (f == x - 17 + inject_Z (llround x)) as Hf
      by (unfold f; rewrite residual_value by assumption; now rewrite Hc).
  unfold dgesvOrderOne.
  assert (Qeq_bool j 0 = false) as ->.
  { destruct (Qeq_bool j 0) eqn:E; [|reflexivity].
    apply Qeq_bool_iff in E. rewrite Hj in E. discriminate E. }
  cbn [negb Z.eqb tabulate seq map rget nth].
  set (x' := x - Qred (f / j)).
  assert (x' == (17 + (x - inject_Z (llround x))) * (1 # 2)) as Hx'eq.
  { unfold x'. rewrite Qred_correct, Hf, Hj. field. }
  destruct (llround_near x Hx) as [Hlo Hhi].
  assert ((33 # 4) <= x' /\ x' < (35 # 4)) as [Hl Hh] by (rewrite Hx'eq; split; lra).
  exists x'. split; [|split; assumption].
  assert (Rltb (computeNorm (cappedSolver maxIter) tenA [decayA] 1 [x'] [c] / initNorm)
               (m_exitTol (cappedSolver maxIter)) = false) as ->; [|reflexivity].
  apply Rltb_false. rewrite computeNorm_decay by lra. rewrite Hinit, Hc.
  pose proof (residual_far x' ltac:(lra)) as Hfar.
  change (m_exitTol (cappedSolver maxIter)) with (1 # 1000000).
  apply Qle_shift_div_l; lra.
Qed.

Lemma newtonLoop_never_converges (k : nat) (initNorm c : Q) :
  c == 17 -> initNorm == 17 ->
  forall x : Q,
    7 <= x -> x < (35 # 4) ->
    exists x' : Q,
      newtonLoop dgesvOrderOne (cappedSolver maxIter) tenA [decayA] 1 k initNorm [x] [c]
      = ([x'], true)
      /\ 7 <= x' /\ x' < (35 # 4).
Proof.
  intros Hc Hinit. induction k as [|k IH]; intros x Hx Hx'.
  - exists x. cbn [newtonLoop]. auto.
  - destruct (newton_step k initNorm x c Hc Hinit ltac:(lra) ltac:(lra))
      as (x1 & -> & Hl & Hh).
    apply IH; lra.
Qed.

End NewtonOnDecay.

Lemma defaultSolver_is_capped_at_100 : defaultSolver = cappedSolver 100.
Proof. reflexivity. Qed.

(** The presampling step of [stepImplicitEuler] on [A = 10], [dt = 1], when
    the Poisson draw is 3: [C = 17] and the initial guess is [X = 7]. *)
Lemma compConstantTerm_decay :
  compConstantTerm tenA [decayA] 1 5 tenA drawsOfThree
  = Ret (([17%Q], [7%Q]), mkRng (fun _ => 1 # 2)%Q (fun _ _ => 3) 0 1).
Proof. vm_compute. reflexivity. Qed.

(** C3. On [A -> 0] from [A = 10] with [dt = 1] and the presampled Poisson
    draw 3, whatever the cap [maxIter] on the Newton iterations (the default
    solver has [maxIter = 100], [exitTol = 1e-6]): the loop never meets the
    exit test, [converged] is still [true] when it ends, the residual norm
    of the last iterate relative to the initial one is not below [exitTol],
    and [stepImplicitEuler] writes the rounded iterate, a valid state
    with [A] between 7 and 9, instead of the sentinel. *)
Theorem stepImplicitEuler_returns_unconverged_iterate :
  forall maxIter : Z,
  exists (c x : Q) (g' : Rng),
    newtonSolve dgesvOrderOne (cappedSolver maxIter) tenA [decayA] 1 5 drawsOfThree
    = Ret ([c], [x], true, g')
    /\ Rltb (computeNorm (cappedSolver maxIter) tenA [decayA] 1 [x] [c]
             / computeNorm (cappedSolver maxIter) tenA [decayA] 1 [0%Q] [c])%Q
            (m_exitTol (cappedSolver maxIter)) = false
    /\ stepImplicitEuler dgesvOrderOne (cappedSolver maxIter) tenA [decayA] 1 5 drawsOfThree
       = Ret (DualState.mkState [llround x] [], g')
    /\ 7 <= llround x <= 9
    /\ isValidState (DualState.mkState [llround x] []) = true.
Proof.
  intros maxIter.
  assert (computeNorm (cappedSolver maxIter) tenA [decayA] 1 [0%Q] [17%Q] == 17)%Q as Hinit.
  { rewrite computeNorm_decay by lra. reflexivity. }
  destruct (newtonLoop_never_converges
              maxIter (Z.to_nat maxIter)
              (computeNorm (cappedSolver maxIter) tenA [decayA] 1 [0%Q] [17%Q]) 17%Q
              ltac:(reflexivity) Hinit 7%Q ltac:(lra) ltac:(lra))
    as (x & Hloop & Hx7 & Hx9).
  assert (0 <= x)%Q as Hx by lra. assert (x < 100)%Q as Hx' by lra.
  assert (newtonSolve dgesvOrderOne (cappedSolver maxIter) tenA [decayA] 1 5 drawsOfThree
          = Ret ([17%Q], [x], true, mkRng (fun _ => 1 # 2)%Q (fun _ _ => 3) 0 1)) as Hsolve.
  { unfold newtonSolve, bind. rewrite compConstantTerm_decay. cbv beta iota zeta.
    change (tabulate (length (linearOut tenA)) (fun _ => 0%Q)) with [0%Q].
    change (m_maxIter (cappedSolver maxIter)) with maxIter.
    rewrite Hloop. reflexivity. }
  assert (7 <= llround x <= 9) as Hround.
  { destruct (llround_near x Hx) as [Hlo Hhi].
    assert (inject_Z 6 < inject_Z (llround x))%Q as H1 by (change (inject_Z 6) with 6%Q; lra).
    assert (inject_Z (llround x) < inject_Z 10)%Q as H2 by (change (inject_Z 10) with 10%Q; lra).
    rewrite <- Zlt_Qlt in H1, H2. lia. }
  exists 17%Q, x, (mkRng (fun _ => 1 # 2)%Q (fun _ _ => 3) 0 1).
  split; [exact Hsolve|]. split; [|split; [|split]].
  - apply Rltb_false. rewrite computeNorm_decay by assumption. rewrite Hinit.
    pose proof (residual_far x Hx) as Hfar.
    change (m_exitTol (cappedSolver maxIter)) with (1 # 1000000)%Q.
    apply Qle_shift_div_l; lra.
  - unfold stepImplicitEuler, bind. rewrite Hsolve. cbv beta iota zeta. unfold ret.
    change (length (linearOut tenA)) with 1%nat.
    cbn [seq map rget nth linearIn m_numReactiveSpecies m_numNonReactiveSpecies
             m_reactiveState m_nonReactiveState tenA length Vec.get Nat.add].
    rewrite wrap_small; [reflexivity|].
    unfold in_T, T_min, T_max. lia.
  - exact Hround.
  - unfold isValidState. cbn [m_reactiveState m_nonReactiveState existsb orb].
    destruct (Z.ltb_spec (llround x) 0) as [H|H]; [lia|reflexivity].
Qed.


(** ** Counterexamples to the statements as worded *)


(** C6, as stated, fails on [A -> 0], [B -> A] with [A = 0], [B = 100] and
    [eps = 1]: species [A] is touched ([mu = sigma2 = 100], [f = 1], bound
    [1/100]) but has no population, so the solver skips it and returns the
    bound [1/4] of species [B]. *)
Lemma getNonCriticalTimeStep_skips_empty_species :
  (getNonCriticalTimeStep unitEpsSolver hundredB decayAndConversion
                          (propensities hundredB decayAndConversion) == 1 # 4)%Q
  /\ (claimedNonCriticalTimeStep unitEpsSolver hundredB decayAndConversion
                                 (propensities hundredB decayAndConversion) == 1 # 100)%Q
  /\ ~ (getNonCriticalTimeStep unitEpsSolver hundredB decayAndConversion
                               (propensities hundredB decayAndConversion)
        == claimedNonCriticalTimeStep unitEpsSolver hundredB decayAndConversion
                                      (propensities hundredB decayAndConversion))%Q.
Proof.
  split; [vm_compute; reflexivity|]. split; [vm_compute; reflexivity|].
  intros H. vm_compute in H. discriminate H.
Qed.


(** ** Instances *)


Lemma advanceState_round_trip_witness :
  advanceState pairEmission (advanceState pairEmission fiveA 2) (T_neg 2) = fiveA
  /\ SingleReaction.advanceState
       pairFusion (SingleReaction.advanceState pairFusion fiveASingle 2) (T_neg 2)
     = fiveASingle.
Proof.
  split.
  - apply (proj1 advanceState_round_trip pairEmission fiveA 2);
      [each_entry range|each_entry range|lia].
  - apply (proj2 advanceState_round_trip pairFusion fiveASingle 2);
      [each_entry range|lia].
Defined.

Lemma computeCriticalNumberOfReactions_is_minimum_witness :
  computeCriticalNumberOfReactions pairEmission fiveA = 2
  /\ SingleReaction.computeCriticalNumberOfReactions pairFusion fiveASingle = 2.
Proof.
  split.
  - apply (proj1 computeCriticalNumberOfReactions_is_minimum
                 [0%nat; 0%nat] [] [0%nat] 1%Q fiveA);
      [each_entry range|reflexivity|cbn; range|cbn; range].
  - apply (proj2 computeCriticalNumberOfReactions_is_minimum
                 [0%nat; 0%nat] [1%nat] 1%Q fiveASingle);
      [each_entry range|each_entry ltac:(cbn; lia)|cbn; range|cbn; range].
Defined.

Lemma getNu_is_cached_stoichiometry_witness :
  getNu fiveA [pairEmission; conversion] = [[-2; 0; 1; 0]; [1; -1; 0; 0]].
Proof.
  apply (getNu_is_cached_stoichiometry fiveA [pairEmission; conversion]).
  - each_entry ltac:(reflexivity).
  - each_entry ltac:(reflexivity).
Defined.



Lemma getNonCriticalTimeStep_is_guarded_minimum_witness :
  getNonCriticalTimeStep unitEpsSolver hundredB decayAndConversion
                         (propensities hundredB decayAndConversion)
  = Rminimum (map (guardedBound unitEpsSolver hundredB decayAndConversion
                                (propensities hundredB decayAndConversion))
                  (boundedSpecies hundredB decayAndConversion)).
Proof.
  apply (getNonCriticalTimeStep_is_guarded_minimum
           unitEpsSolver hundredB decayAndConversion
           (propensities hundredB decayAndConversion)).
  - each_entry ltac:(each_entry ltac:(cbn; lia)).
  - split; [vm_compute; discriminate|].
    split; each_entry ltac:(vm_compute; repeat split; discriminate).
Defined.

Import SolverEntryPoints ReferenceMore.

(** * Further properties of the states and the reactions *)

(** ** Linearization *)

Section Linearization.

Lemma tabulate_get (l : list Z) (k : nat) (rest : list Z) (pre : list Z) :
  length pre = k ->
  map (fun i => Vec.get (pre ++ l ++ rest) (k + i)) (seq 0 (length l)) = l.
Proof.
  revert pre k. induction l as [|x l IH]; intros pre k Hk; [reflexivity|].
  cbn [length seq map]. f_equal.
  - unfold Vec.get. rewrite Nat.add_0_r, app_nth2 by lia.
    now rewrite Hk, Nat.sub_diag.
  - rewrite <- seq_shift, map_map.
    specialize (IH (pre ++ [x]) (S k)). rewrite <- app_assoc in IH. cbn [app] in IH.
    rewrite <- IH at 2 by (rewrite length_app; cbn; lia).
    apply map_ext. intros i. f_equal. lia.
Qed.

Lemma linearIn_linearOut_id (s : KMCDualState) : linearIn s (linearOut s) = s.
Proof.
  destruct s as [re nr]. unfold linearIn, linearOut, m_numReactiveSpecies,
    m_numNonReactiveSpecies. cbn [m_reactiveState m_nonReactiveState app]. f_equal.
  - apply (tabulate_get re 0 nr []). reflexivity.
  - pose proof (tabulate_get nr (length re) [] re eq_refl) as H.
    now rewrite app_nil_r in H.
Qed.

Lemma linearOut_linearIn_prefix (s : KMCDualState) (lin : list Z) :
  (length (m_reactiveState s) + length (m_nonReactiveState s) <= length lin)%nat ->
  linearOut (linearIn s lin)
  = firstn (length (m_reactiveState s) + length (m_nonReactiveState s)) lin.
Proof.
  intros Hlen. unfold linearIn, linearOut, m_numReactiveSpecies, m_numNonReactiveSpecies.
  cbn [m_reactiveState m_nonReactiveState app].
  set (nR := length (m_reactiveState s)) in *.
  set (nN := length (m_nonReactiveState s)) in *.
  assert (exists a b c, lin = a ++ b ++ c /\ length a = nR /\ length b = nN)
    as (a & b & c & -> & Ha & Hb).
  { exists (firstn nR lin), (firstn nN (skipn nR lin)), (skipn nN (skipn nR lin)).
    rewrite !firstn_skipn, !length_firstn, length_skipn. repeat split; lia. }
  rewrite <- Ha, <- Hb.
  assert (map (fun i => Vec.get (a ++ b ++ c) i) (seq 0 (length a)) = a) as ->
      by exact (tabulate_get a 0 (b ++ c) [] eq_refl).
  rewrite (tabulate_get b (length a) c a eq_refl).
  rewrite app_assoc, <- length_app, firstn_app, firstn_all, Nat.sub_diag.
  cbn [firstn]. now rewrite app_nil_r.
Qed.

End Linearization.

(** X1. [linearIn] undoes [linearOut]. On a vector at least as long as the
    state, a dual state takes the leading entries and keeps its two sizes,
    so [linearOut] after [linearIn] returns the vector cut to the state's
    size (the vector itself when the sizes agree); a single state adopts
    the vector whole, whatever its size. *)
Theorem linearization_round_trip :
  (forall (s : KMCDualState),
      linearIn s (linearOut s) = s
      /\ (forall lin : list Z,
             (length (m_reactiveState s) + length (m_nonReactiveState s) <= length lin)%nat ->
             linearOut (linearIn s lin)
             = firstn (length (m_reactiveState s) + length (m_nonReactiveState s)) lin
             /\ length (m_reactiveState (linearIn s lin)) = length (m_reactiveState s)
             /\ length (m_nonReactiveState (linearIn s lin))
                = length (m_nonReactiveState s)))
  /\
  (forall (s : SingleState.KMCSingleState),
      SingleState.linearIn s (SingleState.linearOut s) = s
      /\ (forall lin : list Z, SingleState.linearOut (SingleState.linearIn s lin) = lin)).
Proof.
  split.
  - intros s. split; [apply linearIn_linearOut_id|].
    intros lin Hlen. split; [now apply linearOut_linearIn_prefix|].
    unfold linearIn, m_numReactiveSpecies, m_numNonReactiveSpecies.
    cbn [m_reactiveState m_nonReactiveState]. now rewrite !length_map, !length_seq.
  - intros [st]. split; reflexivity.
Qed.

Lemma linearization_round_trip_witness :
  linearOut (linearIn fiveA [1; 2; 3; 4; 5]) = [1; 2; 3; 4].
Proof.
  apply (proj2 (proj1 linearization_round_trip fiveA) [1; 2; 3; 4; 5]). cbn. lia.
Defined.

(** ** State changes cached by the constructors *)

Section CachedChanges.

Lemma stateChange_lookup (consumed produced : list nat) (i : nat) :
  Z.of_nat (length consumed) <= T_max -> Z.of_nat (length produced) <= T_max ->
  match StdMap.find i (fold_left (tally 1) produced (fold_left (tally (-1)) consumed [])) with
  | Some nu => nu
  | None => 0
  end = netChange consumed produced i.
Proof.
  intros Hc Hp. rewrite find_stateChange.
  destruct (Z.eqb_spec (occ consumed i) 0) as [E1|E1];
    destruct (Z.eqb_spec (occ produced i) 0) as [E2|E2]; cbn [andb];
    try (apply wrap_small, netChange_in_T; assumption).
  unfold netChange. lia.
Qed.

Lemma netChange_absent (consumed produced : list nat) (i : nat) :
  ~ In i consumed -> ~ In i produced -> netChange consumed produced i = 0.
Proof.
  intros Hc Hp. unfold netChange.
  pose proof (occ_nonneg consumed i). pose proof (occ_nonneg produced i).
  pose proof (proj1 (occ_pos_In consumed i)). pose proof (proj1 (occ_pos_In produced i)).
  assert (~ 0 < occ consumed i) by tauto. assert (~ 0 < occ produced i) by tauto. lia.
Qed.

End CachedChanges.

(** X2. For reactions built by the constructors from lists shorter than
    2^63, [getStateChange] of a species is the number of times it is
    produced minus the number of times it is consumed, and [0] for a species
    the reaction does not mention (dual-state and single-state variants). *)
Theorem getStateChange_is_net_stoichiometry :
  (forall (lhs rhs rhsNon : list nat) (rate : Q) (i : nat),
      Z.of_nat (length lhs) <= T_max -> Z.of_nat (length rhs) <= T_max ->
      getStateChange (create lhs rhs rhsNon rate) i = netChange lhs rhs i
      /\ (~ In i lhs -> ~ In i rhs -> getStateChange (create lhs rhs rhsNon rate) i = 0))
  /\
  (forall (reactants products : list nat) (rate : Q) (i : nat),
      Z.of_nat (length reactants) <= T_max -> Z.of_nat (length products) <= T_max ->
      SingleReaction.getStateChange (SingleReaction.create reactants products rate) i
      = netChange reactants products i
      /\ (~ In i reactants -> ~ In i products ->
          SingleReaction.getStateChange (SingleReaction.create reactants products rate) i = 0)).
Proof.
  split.
  - intros lhs rhs rhsNon rate i Hl Hr.
    assert (getStateChange (create lhs rhs rhsNon rate) i = netChange lhs rhs i) as E
        by (apply stateChange_lookup; assumption).
    split; [exact E|]. intros H1 H2. rewrite E. now apply netChange_absent.
  - intros reactants products rate i Hl Hr.
    assert (SingleReaction.getStateChange (SingleReaction.create reactants products rate) i
            = netChange reactants products i) as E
        by (apply stateChange_lookup; assumption).
    split; [exact E|]. intros H1 H2. rewrite E. now apply netChange_absent.
Qed.

Lemma getStateChange_is_net_stoichiometry_witness :
  getStateChange pairEmission 0 = -2
  /\ SingleReaction.getStateChange pairFusion 1 = 1.
Proof.
  split.
  - apply (proj1 getStateChange_is_net_stoichiometry [0%nat; 0%nat] [] [0%nat] 1%Q 0%nat);
      cbn; range.
  - apply (proj2 getStateChange_is_net_stoichiometry [0%nat; 0%nat] [1%nat] 1%Q 1%nat);
      cbn; range.
Defined.

(** ** Firing a reaction *)

Section Firing.

Lemma upd_pointwise (v : list Z) (k : nat) (f g : Z -> Z) :
  (forall x, f x = g x) -> Vec.upd v k f = Vec.upd v k g.
Proof.
  intros H. revert k. induction v as [|x v IH]; intros [|k]; cbn [Vec.upd]; auto.
  - now rewrite H.
  - now rewrite IH.
Qed.

Lemma applyChanges_additive (m : StdMap.t Z) (n1 n2 : Z) (st : list Z) :
  applyChanges m n2 (applyChanges m n1 st) = applyChanges m (T_add n1 n2) st.
Proof.
  revert st. induction m as [|[k nu] m IH]; intros st; [reflexivity|].
  rewrite !applyChanges_cons. cbn [fst snd].
  rewrite applyChanges_upd, upd_upd_same, IH. f_equal.
  apply upd_pointwise. intros x. unfold T_add, T_mul.
  rewrite wrap_mul_l, wrap_add_l, !wrap_add_r.
  replace (x + wrap (n1 * nu) + n2 * nu) with (x + n2 * nu + wrap (n1 * nu)) by lia.
  rewrite wrap_add_r. f_equal. lia.
Qed.

Lemma applyChanges_commute (m1 m2 : StdMap.t Z) (n1 n2 : Z) (st : list Z) :
  applyChanges m1 n1 (applyChanges m2 n2 st) = applyChanges m2 n2 (applyChanges m1 n1 st).
Proof.
  revert st. induction m1 as [|[k nu] m1 IH]; intros st; [reflexivity|].
  rewrite !applyChanges_cons. cbn [fst snd].
  rewrite <- IH. f_equal. apply applyChanges_upd.
Qed.

Lemma stateChange_entry (consumed produced : list nat) (n : Z) (st : list Z) (i : nat) :
  (i < length st)%nat ->
  in_T (Vec.get st i) ->
  Vec.get (applyChanges (fold_left (tally 1) produced (fold_left (tally (-1)) consumed []))
                        n st) i
  = wrap (Vec.get st i + n * netChange consumed produced i).
Proof.
  intros Hi Hx. rewrite get_applyChanges by (try apply sorted_stateChange; assumption).
  rewrite find_stateChange.
  destruct (Z.eqb_spec (occ consumed i) 0) as [E1|E1];
    destruct (Z.eqb_spec (occ produced i) 0) as [E2|E2]; cbn [andb];
    try (unfold T_add, T_mul, netChange; now rewrite wrap_mul_r, wrap_add_r).
  unfold netChange. rewrite E1, E2, Z.sub_0_r, Z.mul_0_r, Z.add_0_r.
  symmetry. now apply wrap_small.
Qed.

Lemma occ_as_netChange (l : list nat) (i : nat) : occ l i = netChange [] l i.
Proof. unfold netChange, occ. cbn [count_occ]. lia. Qed.

End Firing.

(** X3. Firings add up: on a state that holds the species of the reaction,
    [advanceState] with [n1] firings followed by [advanceState] with [n2]
    firings is [advanceState] with [n1 + n2] firings (the sum taken in [T]),
    for every state and counts, in both variants. *)
Theorem advanceState_firings_add_up :
  (forall (lhs rhs rhsNon : list nat) (rate : Q) (s : KMCDualState) (n1 n2 : Z),
      let r := create lhs rhs rhsNon rate in
      sanityCheck r s = true ->
      advanceState r (advanceState r s n1) n2 = advanceState r s (T_add n1 n2))
  /\
  (forall (reactants products : list nat) (rate : Q) (s : SingleState.KMCSingleState)
          (n1 n2 : Z),
      let r := SingleReaction.create reactants products rate in
      Forall (fun i => (i < length (SingleState.m_state s))%nat) (reactants ++ products) ->
      SingleReaction.advanceState r (SingleReaction.advanceState r s n1) n2
      = SingleReaction.advanceState r s (T_add n1 n2)).
Proof.
  split.
  - intros lhs rhs rhsNon rate s n1 n2 r _. unfold advanceState.
    cbn [m_reactiveState m_nonReactiveState].
    now rewrite !applyChanges_additive.
  - intros reactants products rate s n1 n2 r _. unfold SingleReaction.advanceState.
    cbn [SingleState.m_state].
    now rewrite applyChanges_additive.
Qed.

Lemma advanceState_firings_add_up_witness :
  advanceState pairEmission (advanceState pairEmission fiveA 1) 1
  = advanceState pairEmission fiveA (T_add 1 1).
Proof.
  apply (proj1 advanceState_firings_add_up [0%nat; 0%nat] [] [0%nat] 1%Q fiveA 1 1).
  reflexivity.
Defined.

(** X4. Firings of two reactions commute: on a state that holds the species
    of both, the state reached does not depend on which of the two
    reactions is advanced first (both variants). *)
Theorem advanceState_reactions_commute :
  (forall (r1 r2 : KMCDualStateReaction) (s : KMCDualState) (n1 n2 : Z),
      constructed r1 -> constructed r2 ->
      sanityCheck r1 s = true -> sanityCheck r2 s = true ->
      advanceState r1 (advanceState r2 s n2) n1 = advanceState r2 (advanceState r1 s n1) n2)
  /\
  (forall (a1 b1 a2 b2 : list nat) (k1 k2 : Q) (s : SingleState.KMCSingleState)
          (n1 n2 : Z),
      let r1 := SingleReaction.create a1 b1 k1 in
      let r2 := SingleReaction.create a2 b2 k2 in
      Forall (fun i => (i < length (SingleState.m_state s))%nat) (a1 ++ b1 ++ a2 ++ b2) ->
      SingleReaction.advanceState r1 (SingleReaction.advanceState r2 s n2) n1
      = SingleReaction.advanceState r2 (SingleReaction.advanceState r1 s n1) n2).
Proof.
  split.
  - intros r1 r2 s n1 n2 _ _ _ _. unfold advanceState.
    cbn [m_reactiveState m_nonReactiveState].
    f_equal; apply applyChanges_commute.
  - intros a1 b1 a2 b2 k1 k2 s n1 n2 r1 r2 _. unfold SingleReaction.advanceState.
    cbn [SingleState.m_state].
    f_equal. apply applyChanges_commute.
Qed.

Lemma advanceState_reactions_commute_witness :
  advanceState decayA (advanceState conversion fiveA 2) 1
  = advanceState conversion (advanceState decayA fiveA 1) 2.
Proof.
  apply (proj1 advanceState_reactions_commute decayA conversion fiveA 1 2);
    reflexivity.
Defined.

Lemma advanceState_entries :
  forall (lhs rhs rhsNon : list nat) (rate : Q) (s : KMCDualState) (n : Z),
    let r := create lhs rhs rhsNon rate in
    Forall in_T (m_reactiveState s) ->
    Forall in_T (m_nonReactiveState s) ->
    length (m_reactiveState (advanceState r s n)) = length (m_reactiveState s)
    /\ length (m_nonReactiveState (advanceState r s n)) = length (m_nonReactiveState s)
    /\ (forall i, (i < length (m_reactiveState s))%nat ->
                  Vec.get (m_reactiveState (advanceState r s n)) i
                  = wrap (Vec.get (m_reactiveState s) i + n * netChange lhs rhs i))
    /\ (forall i, (i < length (m_nonReactiveState s))%nat ->
                  Vec.get (m_nonReactiveState (advanceState r s n)) i
                  = wrap (Vec.get (m_nonReactiveState s) i + n * occ rhsNon i)).
Proof.
  intros lhs rhs rhsNon rate s n r Hre Hnr.
  unfold r, advanceState. cbn [create m_reactiveState m_nonReactiveState
                                 m_reactiveStateChange m_nonReactiveStateChange].
  rewrite !applyChanges_length.
  split; [reflexivity|]. split; [reflexivity|]. split.
  - intros i Hi. apply stateChange_entry; [assumption|].
    rewrite Forall_forall in Hre. apply Hre. unfold Vec.get. now apply nth_In.
  - intros i Hi. rewrite occ_as_netChange.
    apply (stateChange_entry [] rhsNon); [assumption|].
    rewrite Forall_forall in Hnr. apply Hnr. unfold Vec.get. now apply nth_In.
Qed.

(** X5. On a state that holds the species of the reaction, [advanceState]
    keeps the sizes of the state and adds [numReactions]
    times the net stoichiometric change to every entry, in the arithmetic
    of [T]: reactive species [i] goes from [x] to
    [x + n * (produced - consumed)], non-reactive species [i] from [x] to
    [x + n * produced], each reduced into the range of [T], so it is the
    exact sum whenever that sum is a value of [T]. *)
Theorem advanceState_adds_net_change :
  forall (lhs rhs rhsNon : list nat) (rate : Q) (s : KMCDualState) (n : Z),
    let r := create lhs rhs rhsNon rate in
    sanityCheck r s = true ->
    Forall in_T (m_reactiveState s) ->
    Forall in_T (m_nonReactiveState s) ->
    length (m_reactiveState (advanceState r s n)) = length (m_reactiveState s)
    /\ length (m_nonReactiveState (advanceState r s n)) = length (m_nonReactiveState s)
    /\ (forall i, (i < length (m_reactiveState s))%nat ->
                  Vec.get (m_reactiveState (advanceState r s n)) i
                  = wrap (Vec.get (m_reactiveState s) i + n * netChange lhs rhs i)
                  /\ (in_T (Vec.get (m_reactiveState s) i + n * netChange lhs rhs i) ->
                      Vec.get (m_reactiveState (advanceState r s n)) i
                      = Vec.get (m_reactiveState s) i + n * netChange lhs rhs i))
    /\ (forall i, (i < length (m_nonReactiveState s))%nat ->
                  Vec.get (m_nonReactiveState (advanceState r s n)) i
                  = wrap (Vec.get (m_nonReactiveState s) i + n * occ rhsNon i)
                  /\ (in_T (Vec.get (m_nonReactiveState s) i + n * occ rhsNon i) ->
                      Vec.get (m_nonReactiveState (advanceState r s n)) i
                      = Vec.get (m_nonReactiveState s) i + n * occ rhsNon i)).
Proof.
  intros lhs rhs rhsNon rate s n r _ Hre Hnr.
  destruct (advanceState_entries lhs rhs rhsNon rate s n Hre Hnr) as (L1 & L2 & E1 & E2).
  split; [exact L1|]. split; [exact L2|]. split.
  - intros i Hi. split; [now apply E1|]. intros Hin. unfold r. rewrite (E1 i Hi).
    now apply wrap_small.
  - intros i Hi. split; [now apply E2|]. intros Hin. unfold r. rewrite (E2 i Hi).
    now apply wrap_small.
Qed.

Lemma advanceState_adds_net_change_witness :
  Vec.get (m_reactiveState (advanceState pairEmission fiveA 2)) 0 = 1.
Proof.
  apply (proj2 (proj1 (proj2 (proj2 (advanceState_adds_net_change
                                 [0%nat; 0%nat] [] [0%nat] 1%Q fiveA 2
                                 eq_refl
                                 ltac:(each_entry range) ltac:(each_entry range))))
                      0%nat ltac:(cbn; lia))).
  vm_compute. split; discriminate.
Defined.

(** ** The sign of a propensity *)

Section PropensitySign.

Local Open Scope Q_scope.

Lemma propensityLoop_linear (l : list nat) (st : list Z) (A0 : Q) :
  fst (propensityLoop A0 l st) == A0 * fst (propensityLoop 1 l st).
Proof.
  revert st A0. induction l as [|r l IH]; intros st A0.
  - cbn. ring.
  - rewrite !propensityLoop_cons.
    rewrite (IH _ (A0 * _)), (IH _ (1 * _)). ring.
Qed.

Lemma available_step (r : nat) (l : list nat) (st : list Z) :
  (r < length st)%nat ->
  (0 < Vec.get st r <= T_max)%Z ->
  reactantsAvailable (r :: l) st
  <-> reactantsAvailable l (Vec.upd st r (fun x => T_sub x 1)).
Proof.
  intros Hr Hx. unfold reactantsAvailable.
  assert (Vec.get (Vec.upd st r (fun x => T_sub x 1)) r = (Vec.get st r - 1)%Z) as Er.
  { rewrite get_upd_same by assumption. unfold T_sub. apply wrap_small.
    unfold in_T, T_min, T_max in *. lia. }
  split; intros H i Hi.
  - destruct (Nat.eq_dec i r) as [->|Hne].
    + rewrite Er. specialize (H r (or_introl eq_refl)). rewrite occ_cons_same in H. lia.
    + rewrite get_upd_other by assumption. specialize (H i (or_intror Hi)).
      now rewrite occ_cons_other in H.
  - destruct (Nat.eq_dec i r) as [->|Hne].
    + rewrite occ_cons_same. pose proof (occ_nonneg l r).
      destruct (Z.eq_dec (occ l r) 0) as [E|E]; [lia|].
      assert (In r l) as Hin by (apply occ_pos_In; lia).
      specialize (H r Hin). rewrite Er in H. lia.
    + destruct Hi as [Hi|Hi]; [congruence|].
      specialize (H i Hi). rewrite get_upd_other in H by assumption.
      now rewrite occ_cons_other.
Qed.

Lemma propensityLoop_sign (l : list nat) :
  forall st : list Z,
    Forall (fun i => (i < length st)%nat /\ (0 <= Vec.get st i <= T_max)%Z) l ->
    0 <= fst (propensityLoop 1 l st)
    /\ (0 < fst (propensityLoop 1 l st) <-> reactantsAvailable l st).
Proof.
  induction l as [|r l IH]; intros st Hl.
  - cbn. split; [lra|]. split; [|reflexivity]. intros _ i [].
  - inversion Hl as [|? ? [Hr Hx] Hl']; subst.
    rewrite propensityLoop_cons, propensityLoop_linear.
    destruct (Z.eq_dec (Vec.get st r) 0) as [E|E].
    + rewrite E. change (inject_Z 0) with 0. split; [lra|]. split; [lra|].
      intros H. specialize (H r (or_introl eq_refl)). rewrite occ_cons_same, E in H.
      pose proof (occ_nonneg l r). lia.
    + assert (0 < Vec.get st r <= T_max)%Z as Hpos by lia.
      assert (0 < inject_Z (Vec.get st r)) as HposQ
          by (change 0 with (inject_Z 0); rewrite <- Zlt_Qlt; lia).
      destruct (IH (Vec.upd st r (fun x => T_sub x 1))) as [Hnn Hiff].
      { apply Forall_forall. intros i Hi. rewrite Forall_forall in Hl'.
        destruct (Hl' i Hi) as [Hlen Hrange]. rewrite upd_length. split; [assumption|].
        destruct (Nat.eq_dec i r) as [->|Hne].
        - rewrite get_upd_same by assumption. unfold T_sub. rewrite wrap_small; [lia|].
          unfold in_T, T_min, T_max in *. lia.
        - now rewrite get_upd_other by assumption. }
      rewrite (available_step r l st Hr Hpos), <- Hiff.
      set (F := fst (propensityLoop 1 l (Vec.upd st r (fun x => T_sub x 1)))) in *.
      split; [nra|]. split; intros H; nra.
Qed.

Lemma propensity_value_sign (lhs : list nat) (rate : Q) (pops : list Z) :
  Forall (fun i => (i < length pops)%nat /\ (0 <= Vec.get pops i <= T_max)%Z) lhs ->
  (forall i, (multiplicity lhs i <= 20)%nat) ->
  0 <= rate ->
  0 <= fst (propensityLoop (rate * computePropensityFactor lhs) lhs pops)
  /\ (0 < fst (propensityLoop (rate * computePropensityFactor lhs) lhs pops)
      <-> 0 < rate /\ reactantsAvailable lhs pops).
Proof.
  intros Hl Hm Hrate.
  rewrite propensityLoop_linear, (propensityFactor_correct lhs Hm).
  pose proof (combinatorialFactor_pos lhs) as Hc.
  destruct (propensityLoop_sign lhs pops Hl) as [Hnn Hiff].
  rewrite <- Hiff.
  set (F := fst (propensityLoop 1 lhs pops)) in *.
  set (c := combinatorialFactor lhs) in *.
  assert (0 <= rate * c) as Hrc by nra.
  split; [nra|]. split.
  - intros H. split.
    + destruct (Qlt_le_dec 0 rate) as [|Hle]; [assumption|].
      assert (rate == 0) as E by lra. rewrite E in H. lra.
    + destruct (Qlt_le_dec 0 F) as [|Hle]; [assumption|].
      assert (F == 0) as E by lra. rewrite E in H. lra.
  - intros [H1 H2]. assert (0 < rate * c) by nra. nra.
Qed.

Lemma propensity_sign_of_created (lhs rhs rhsNon : list nat) (rate : Q) (s : KMCDualState) :
  Forall (fun i => (i < length (m_reactiveState s))%nat
                   /\ (0 <= Vec.get (m_reactiveState s) i <= T_max)%Z) lhs ->
  (forall i, (multiplicity lhs i <= 20)%nat) ->
  0 <= rate ->
  0 <= propensity (create lhs rhs rhsNon rate) s
  /\ (0 < propensity (create lhs rhs rhsNon rate) s
      <-> 0 < rate /\ reactantsAvailable lhs (m_reactiveState s)).
Proof. apply propensity_value_sign. Qed.

Lemma nonpositive_is_zero (a : Q) (P : Prop) :
  0 <= a -> (0 < a <-> P) -> ~ P -> a == 0.
Proof.
  intros Hnn Hiff Hnot. destruct (Qlt_le_dec 0 a) as [Hpos|Hle].
  - exfalso. apply Hnot. now apply Hiff.
  - now apply Qle_antisym.
Qed.

End PropensitySign.

(** X6. For a constructed reaction with a non-negative rate, on a state that
    holds its reactants with non-negative populations (multiplicities up to
    20), as long as the products formed stay in the range of [Real] (no
    factor rounded to zero, no partial product an infinity): the
    propensity is never negative, and it is positive exactly when the rate
    is positive and every reactant species has at least as many particles
    as the reaction consumes of it; otherwise it is zero. *)
Theorem propensity_positive_iff_reactants_available :
  forall (lhs rhs rhsNon : list nat) (rate : Q) (s : KMCDualState),
    let r := create lhs rhs rhsNon rate in
    Forall (fun i => (i < length (m_reactiveState s))%nat
                     /\ 0 <= Vec.get (m_reactiveState s) i <= T_max) lhs ->
    (forall i, (multiplicity lhs i <= 20)%nat) ->
    (0 <= rate)%Q ->
    productsInRange r s ->
    (0 <= propensity r s)%Q
    /\ ((0 < propensity r s)%Q
        <-> (0 < rate)%Q /\ reactantsAvailable lhs (m_reactiveState s))
    /\ (~ ((0 < rate)%Q /\ reactantsAvailable lhs (m_reactiveState s))
        -> (propensity r s == 0)%Q).
Proof.
  intros lhs rhs rhsNon rate s r Hl Hm Hrate _.
  destruct (propensity_sign_of_created lhs rhs rhsNon rate s Hl Hm Hrate) as [Hnn Hiff].
  split; [exact Hnn|]. split; [exact Hiff|].
  now apply nonpositive_is_zero.
Qed.

Lemma propensity_positive_iff_reactants_available_witness :
  (0 <= propensity pairEmission fiveA)%Q.
Proof.
  apply (propensity_positive_iff_reactants_available [0%nat; 0%nat] [] [0%nat] 1%Q fiveA).
  - each_entry ltac:(split; [cbn; lia | vm_compute; split; discriminate]).
  - intros i. unfold multiplicity. cbn [count_occ].
    destruct (Nat.eq_dec 0 i); lia.
  - discriminate.
  - split; [vm_compute; discriminate|]. split; [vm_compute; discriminate|].
    split; [right; vm_compute; discriminate|].
    each_entry ltac:(vm_compute; discriminate).
Defined.

(** ** Valid states *)

Section ValidStates.


Lemma isValidState_split (s : KMCDualState) :
  isValidState s = true
  <-> Forall (fun p => 0 <= p) (m_reactiveState s)
      /\ Forall (fun p => 0 <= p) (m_nonReactiveState s).
Proof.
  rewrite isValidState_iff. unfold linearOut. cbn [app]. apply Forall_app.
Qed.

Lemma Forall_get (P : Z -> Prop) (l : list Z) :
  (forall i, (i < length l)%nat -> P (Vec.get l i)) -> Forall P l.
Proof.
  intros H. apply Forall_nth. intros i d Hi.
  rewrite (nth_indep l d 0 Hi). now apply H.
Qed.

Lemma get_Forall (P : Z -> Prop) (l : list Z) (i : nat) :
  Forall P l -> (i < length l)%nat -> P (Vec.get l i).
Proof.
  intros H Hi. rewrite Forall_forall in H. apply H. unfold Vec.get. now apply nth_In.
Qed.





(** The state after [n] firings is valid when every entry plus [n] times
    its net change is a non-negative value of [T]. *)
Lemma advanceState_valid (lhs rhs rhsNon : list nat) (rate : Q) (s : KMCDualState) (n : Z) :
  Forall in_T (m_reactiveState s) ->
  Forall in_T (m_nonReactiveState s) ->
  (forall i, (i < length (m_reactiveState s))%nat ->
             0 <= Vec.get (m_reactiveState s) i + n * netChange lhs rhs i <= T_max) ->
  (forall i, (i < length (m_nonReactiveState s))%nat ->
             0 <= Vec.get (m_nonReactiveState s) i + n * occ rhsNon i <= T_max) ->
  isValidState (advanceState (create lhs rhs rhsNon rate) s n) = true.
Proof.
  intros Hre Hnr Hr Hn.
  destruct (advanceState_entries lhs rhs rhsNon rate s n Hre Hnr) as (L1 & L2 & E1 & E2).
  apply isValidState_split. split; apply Forall_get; intros i Hi.
  - rewrite L1 in Hi. rewrite (E1 i Hi), wrap_small; [apply Hr, Hi|].
    specialize (Hr i Hi). unfold in_T, T_min, T_max in *. lia.
  - rewrite L2 in Hi. rewrite (E2 i Hi), wrap_small; [apply Hn, Hi|].
    specialize (Hn i Hi). unfold in_T, T_min, T_max in *. lia.
Qed.

Lemma room_in_T (l : list Z) (k : nat) :
  Forall (fun x => 0 <= x <= T_max - Z.of_nat k) l -> Forall in_T l.
Proof.
  apply Forall_impl. intros x Hx. unfold in_T, T_min, T_max in *. lia.
Qed.

(** One firing of a reaction whose reactants are available, on a state with
    room for the products, leaves no population negative. *)
Lemma fire_available_valid (lhs rhs rhsNon : list nat) (rate : Q) (s : KMCDualState) :
  roomFor (create lhs rhs rhsNon rate) s ->
  reactantsAvailable lhs (m_reactiveState s) ->
  isValidState (advanceState (create lhs rhs rhsNon rate) s 1) = true.
Proof.
  intros [Hre Hnr] Hav. cbn [create m_rhsReactives m_rhsNonReactives] in Hre, Hnr.
  apply advanceState_valid.
  - eapply room_in_T, Hre.
  - eapply room_in_T, Hnr.
  - intros i Hi. pose proof (get_Forall _ _ i Hre Hi) as Hx. cbn beta in Hx.
    unfold netChange.
    pose proof (occ_nonneg lhs i). pose proof (occ_nonneg rhs i).
    pose proof (occ_le_length rhs i).
    destruct (Z.eq_dec (occ lhs i) 0) as [E|E]; [lia|].
    assert (In i lhs) as Hin by (apply occ_pos_In; lia).
    specialize (Hav i Hin). lia.
  - intros i Hi. pose proof (get_Forall _ _ i Hnr Hi) as Hx. cbn beta in Hx.
    pose proof (occ_nonneg rhsNon i). pose proof (occ_le_length rhsNon i). lia.
Qed.

End ValidStates.



(** X8. Firing once a reaction whose propensity is positive keeps the state
    valid: for a constructed reaction with a non-negative rate whose
    species are inside the state (multiplicities up to 20), on a state of
    non-negative populations with room for the products, a positive
    propensity implies that [advanceState] by one firing gives a state
    accepted by [isValidState]. *)
Theorem advanceState_after_positive_propensity_is_valid :
  forall (lhs rhs rhsNon : list nat) (rate : Q) (s : KMCDualState),
    let r := create lhs rhs rhsNon rate in
    sanityCheck r s = true ->
    roomFor r s ->
    (forall i, (multiplicity lhs i <= 20)%nat) ->
    (0 <= rate)%Q ->
    (0 < propensity r s)%Q ->
    isValidState (advanceState r s 1) = true.
Proof.
  intros lhs rhs rhsNon rate s r Hsane Hroom Hm Hrate Hpos.
  apply fire_available_valid; [exact Hroom|].
  assert (Forall (fun i => (i < length (m_reactiveState s))%nat
                           /\ 0 <= Vec.get (m_reactiveState s) i <= T_max) lhs) as Hl.
  { unfold r, sanityCheck in Hsane. cbn [create m_lhsReactives] in Hsane.
    apply andb_true_iff in Hsane. destruct Hsane as [Hsane _].
    apply andb_true_iff in Hsane. destruct Hsane as [Hsane _].
    rewrite forallb_forall in Hsane. apply Forall_forall. intros i Hi.
    specialize (Hsane i Hi). apply Nat.ltb_lt in Hsane. split; [assumption|].
    destruct Hroom as [Hre _]. pose proof (get_Forall _ _ i Hre Hsane) as Hx.
    cbn beta in Hx. lia. }
  apply (propensity_sign_of_created lhs rhs rhsNon rate s Hl Hm Hrate). exact Hpos.
Qed.

Lemma advanceState_after_positive_propensity_is_valid_witness :
  isValidState (advanceState pairEmission fiveA 1) = true.
Proof.
  apply (advanceState_after_positive_propensity_is_valid [0%nat; 0%nat] [] [0%nat] 1%Q fiveA).
  - reflexivity.
  - split; each_entry ltac:(cbn; unfold T_max; lia).
  - intros i. unfold multiplicity. cbn [count_occ]. destruct (Nat.eq_dec 0 i); lia.
  - discriminate.
  - vm_compute. reflexivity.
Defined.

(** ** What the critical number counts *)

Section CriticalFirings.

Lemma fold_right_min_le (l : list Z) (a : Z) :
  fold_right Z.min a l <= a /\ (forall y, In y l -> fold_right Z.min a l <= y).
Proof.
  induction l as [|x l [IH1 IH2]]; cbn [fold_right].
  - split; [lia|intros y []].
  - split; [lia|]. intros y [<-|Hy]; [lia|]. specialize (IH2 y Hy). lia.
Qed.

Lemma fold_right_min_attained (l : list Z) (a : Z) :
  fold_right Z.min a l = a \/ In (fold_right Z.min a l) l.
Proof.
  induction l as [|x l IH]; cbn [fold_right]; [now left|].
  destruct (Z.min_spec x (fold_right Z.min a l)) as [[_ ->]|[_ ->]].
  - right. now left.
  - destruct IH as [IH|IH]; [now left|right; now right].
Qed.

Lemma fold_right_min_nonneg (l : list Z) (a : Z) :
  0 <= a -> Forall (fun y => 0 <= y) l -> 0 <= fold_right Z.min a l.
Proof.
  intros Ha. induction 1; cbn [fold_right]; lia.
Qed.

Variables consumed produced : list nat.
Variable pops : list Z.

Hypothesis populations : Forall (fun x => 0 <= x <= T_max) pops.
Hypothesis consumedBound : Z.of_nat (length consumed) <= T_max.
Hypothesis producedBound : Z.of_nat (length produced) <= T_max.

Lemma criticalNumber_nonneg : 0 <= criticalNumber consumed produced pops.
Proof.
  unfold criticalNumber. apply fold_right_min_nonneg; [unfold T_max; lia|].
  apply Forall_forall. intros y Hy. apply in_map_iff in Hy. destruct Hy as (i & <- & Hi).
  apply filter_In in Hi. destruct Hi as [Hi Hneg]. apply in_seq in Hi. apply Z.ltb_lt in Hneg.
  pose proof (get_Forall _ _ i populations ltac:(lia)) as Hx. cbn beta in Hx.
  apply Z.div_pos; lia.
Qed.

Lemma criticalNumber_safe (n : Z) (i : nat) :
  0 <= n <= criticalNumber consumed produced pops ->
  (i < length pops)%nat ->
  netChange consumed produced i < 0 ->
  0 <= Vec.get pops i + n * netChange consumed produced i <= T_max.
Proof.
  intros Hn Hi Hneg.
  pose proof (get_Forall _ _ i populations Hi) as Hx. cbn beta in Hx.
  set (x := Vec.get pops i) in *. set (nu := netChange consumed produced i) in *.
  assert (criticalNumber consumed produced pops <= x / Z.abs nu) as Hle.
  { unfold criticalNumber. apply fold_right_min_le.
    apply in_map_iff. exists i. split; [reflexivity|].
    apply filter_In. split; [apply in_seq; lia|now apply Z.ltb_lt]. }
  pose proof (Z.mul_div_le x (Z.abs nu) ltac:(lia)) as Hq.
  assert (n * Z.abs nu <= x) by nia.
  lia.
Qed.

Lemma criticalNumber_sharp :
  criticalNumber consumed produced pops < T_max ->
  exists i, (i < length pops)%nat
            /\ netChange consumed produced i < 0
            /\ - T_max <= Vec.get pops i
                          + (criticalNumber consumed produced pops + 1)
                            * netChange consumed produced i < 0.
Proof.
  intros Hlt. unfold criticalNumber in *.
  match goal with |- context [fold_right Z.min T_max ?l] => set (qs := l) in * end.
  destruct (fold_right_min_attained qs T_max) as [E|Hin]; [lia|].
  set (Lj := fold_right Z.min T_max qs) in *.
  apply in_map_iff in Hin. destruct Hin as (i & Hq & Hi).
  apply filter_In in Hi. destruct Hi as [Hi Hneg]. apply in_seq in Hi. apply Z.ltb_lt in Hneg.
  exists i. split; [lia|]. split; [assumption|].
  pose proof (get_Forall _ _ i populations ltac:(lia)) as Hx. cbn beta in Hx.
  pose proof (netChange_bounds consumed produced i consumedBound producedBound) as Hnu.
  set (x := Vec.get pops i) in *. set (nu := netChange consumed produced i) in *.
  pose proof (Z.mul_div_le x (Z.abs nu) ltac:(lia)) as Hq1.
  pose proof (Z.mul_succ_div_gt x (Z.abs nu) ltac:(lia)) as Hq2.
  rewrite Hq in Hq1, Hq2. nia.
Qed.

End CriticalFirings.

(** X9. What the critical number counts: on a state of non-negative
    populations that holds the species of the reaction, the critical number
    [Lj] is non-negative; any number of firings from [0] to [Lj] leaves
    every consumed species with the exact, non-negative population
    [x + n * nu]; and when [Lj] is below the largest value of [T], [Lj + 1]
    firings drive the population of some consumed species negative. *)
Theorem computeCriticalNumberOfReactions_counts_safe_firings :
  forall (lhs rhs rhsNon : list nat) (rate : Q) (s : KMCDualState),
    let r := create lhs rhs rhsNon rate in
    let Lj := computeCriticalNumberOfReactions r s in
    Forall (fun x => 0 <= x <= T_max) (m_reactiveState s) ->
    Forall in_T (m_nonReactiveState s) ->
    sanityCheck r s = true ->
    Z.of_nat (length lhs) <= T_max ->
    Z.of_nat (length rhs) <= T_max ->
    0 <= Lj
    /\ (forall (n : Z) (i : nat),
           0 <= n <= Lj ->
           (i < length (m_reactiveState s))%nat ->
           netChange lhs rhs i < 0 ->
           Vec.get (m_reactiveState (advanceState r s n)) i
           = Vec.get (m_reactiveState s) i + n * netChange lhs rhs i
           /\ 0 <= Vec.get (m_reactiveState (advanceState r s n)) i)
    /\ (Lj < T_max ->
        exists i, (i < length (m_reactiveState s))%nat
                  /\ netChange lhs rhs i < 0
                  /\ Vec.get (m_reactiveState (advanceState r s (Lj + 1))) i < 0).
Proof.
  intros lhs rhs rhsNon rate s r Lj Hpops Hnr Hsane Hl Hr.
  assert (Forall (fun i => (i < length (m_reactiveState s))%nat) lhs) as Hin.
  { unfold r, sanityCheck in Hsane. cbn [create m_lhsReactives] in Hsane.
    apply andb_true_iff in Hsane. destruct Hsane as [Hsane _].
    apply andb_true_iff in Hsane. destruct Hsane as [Hsane _].
    rewrite forallb_forall in Hsane. apply Forall_forall. intros i Hi.
    now apply Nat.ltb_lt, Hsane. }
  assert (Lj = criticalNumber lhs rhs (m_reactiveState s)) as HLj
      by (apply criticalLoop_correct; assumption).
  assert (Forall in_T (m_reactiveState s)) as Hre
      by (eapply Forall_impl; [|exact Hpops]; intros x Hx; unfold in_T, T_min, T_max in *; lia).
  split; [rewrite HLj; now apply criticalNumber_nonneg|]. split.
  - intros n i Hn Hi Hneg. rewrite HLj in Hn.
    pose proof (criticalNumber_safe lhs rhs _ Hpops n i Hn Hi Hneg) as Hsafe.
    destruct (advanceState_entries lhs rhs rhsNon rate s n Hre Hnr) as (_ & _ & E & _).
    unfold r. rewrite (E i Hi), wrap_small; [lia|].
    unfold in_T, T_min, T_max in *. lia.
  - intros Hlt. rewrite HLj in Hlt |- *.
    destruct (criticalNumber_sharp lhs rhs _ Hpops Hl Hr Hlt) as (i & Hi & Hneg & Hv).
    exists i. split; [assumption|]. split; [assumption|].
    destruct (advanceState_entries lhs rhs rhsNon rate s
                (criticalNumber lhs rhs (m_reactiveState s) + 1) Hre Hnr) as (_ & _ & E & _).
    unfold r. rewrite (E i Hi), wrap_small; [lia|].
    unfold in_T, T_min, T_max in *. lia.
Qed.

Lemma computeCriticalNumberOfReactions_counts_safe_firings_witness :
  0 <= computeCriticalNumberOfReactions pairEmission fiveA.
Proof.
  apply (computeCriticalNumberOfReactions_counts_safe_firings
           [0%nat; 0%nat] [] [0%nat] 1%Q fiveA).
  - each_entry ltac:(unfold T_max; lia).
  - each_entry range.
  - reflexivity.
  - cbn; range.
  - cbn; range.
Defined.

(** * Further properties of the solver *)

(** ** The leap step is positive *)

Section LeapStep.

Local Open Scope Q_scope.

Lemma Real_min_pos : 0 < Real_min.
Proof. reflexivity. Qed.

Lemma Real_max_pos : 0 < Real_max.
Proof. reflexivity. Qed.

Lemma Rstdmin_pos (a b : Q) : 0 < a -> 0 < b -> 0 < Rstdmin a b.
Proof. intros Ha Hb. unfold Rstdmin. now destruct (Rltb b a). Qed.

Lemma Rstdmax_one (a : Q) : 1 <= Rstdmax a 1.
Proof.
  unfold Rstdmax. destruct (Rltb a 1) eqn:E; [apply Qle_refl|].
  now apply Rltb_false in E.
Qed.

Lemma guarded_quotient_pos (f d : Q) :
  0 < f -> 0 < (if Rltb Real_min d then f / d else Real_max).
Proof.
  intros Hf. destruct (Rltb Real_min d) eqn:E; [|apply Real_max_pos].
  apply Rltb_true in E. pose proof Real_min_pos as Hm.
  apply Qlt_shift_div_l; [eapply Qlt_trans; eassumption|].
  now rewrite Qmult_0_l.
Qed.

Lemma reactantBound_pos (sv : KMCSolver) (Xi : Z) (mu sigma2 : Q) :
  0 < reactantBound sv Xi mu sigma2.
Proof.
  unfold reactantBound. cbv zeta.
  pose proof (Rstdmax_one (m_eps sv * inject_Z Xi / 4)) as Hf.
  set (f := Rstdmax (m_eps sv * inject_Z Xi / 4) 1) in *.
  apply Rstdmin_pos; apply guarded_quotient_pos; nra.
Qed.

Lemma getNonCriticalTimeStep_pos (sv : KMCSolver) (a_state : KMCDualState)
      (rs : ReactionList) (props : list Q) :
  0 < getNonCriticalTimeStep sv a_state rs props
  /\ getNonCriticalTimeStep sv a_state rs props <= Real_max.
Proof.
  rewrite getNonCriticalTimeStep_loop.
  generalize (gatherReactants rs). intros species.
  assert (forall dt0, 0 < dt0 <= Real_max ->
            0 < fold_left (fun dt reactant =>
                             let Xi := population reactant a_state in
                             if (0 <? Xi)%Z
                             then let '(mu, sigma2) := muSigma2 reactant rs props in
                                  Rstdmin dt (reactantBound sv Xi mu sigma2)
                             else dt) species dt0 <= Real_max) as H.
  { induction species as [|i species IH]; intros dt0 Hdt0; [exact Hdt0|].
    cbn [fold_left]. apply IH. cbv zeta.
    destruct (0 <? population i a_state)%Z; [|exact Hdt0].
    destruct (muSigma2 i rs props) as [mu sigma2].
    split; [apply Rstdmin_pos; [tauto|apply reactantBound_pos]|].
    unfold Rstdmin. destruct (Rltb _ dt0) eqn:E; [|tauto].
    apply Rltb_true in E. apply Qlt_le_weak. eapply Qlt_le_trans; [exact E|tauto]. }
  apply H. split; [apply Real_max_pos|apply Qle_refl].
Qed.

End LeapStep.

(** X10. The leap step is usable: for every state, every list of reactions
    whose species are inside the state (no state change so large that its
    square leaves [T]) and every propensity vector of the same length, as
    long as the values formed stay in the range of [Real]
    ([eps] and the propensities finite; [eps * X_i], [f^2], [mu] and
    [sigma2] at most the largest [Real] for every species a bound is taken
    from), [getNonCriticalTimeStep] on the state, the reactions and their
    propensities returns a step that is strictly positive and at most the
    largest [Real]. *)
Theorem getNonCriticalTimeStep_is_positive :
  forall (sv : KMCSolver) (a_state : KMCDualState) (a_reactions : ReactionList)
         (a_propensities : list Q),
    Forall (fun r => sanityCheck r a_state = true) a_reactions ->
    length a_propensities = length a_reactions ->
    squaresFit a_reactions ->
    leapInRange sv a_state a_reactions a_propensities ->
    (0 < getNonCriticalTimeStep sv a_state a_reactions a_propensities <= Real_max)%Q.
Proof.
  intros sv a_state a_reactions a_propensities _ _ _ _.
  apply getNonCriticalTimeStep_pos.
Qed.

Lemma getNonCriticalTimeStep_is_positive_witness :
  (0 < getNonCriticalTimeStep unitEpsSolver hundredB decayAndConversion
                              (propensities hundredB decayAndConversion)
   <= Real_max)%Q.
Proof.
  apply (getNonCriticalTimeStep_is_positive
           unitEpsSolver hundredB decayAndConversion
           (propensities hundredB decayAndConversion)).
  - each_entry ltac:(reflexivity).
  - reflexivity.
  - each_entry ltac:(each_entry ltac:(cbn; lia)).
  - split; [vm_compute; discriminate|].
    split; each_entry ltac:(vm_compute; repeat split; discriminate).
Defined.

(** ** The default partition *)

Section DefaultPartition.

Lemma sanityCheck_reactants (r : KMCDualStateReaction) (s : KMCDualState) :
  sanityCheck r s = true ->
  Forall (fun i => (i < length (m_reactiveState s))%nat) (m_lhsReactives r).
Proof.
  unfold sanityCheck. intros H.
  apply andb_true_iff in H. destruct H as [H _].
  apply andb_true_iff in H. destruct H as [H _].
  rewrite forallb_forall in H. apply Forall_forall. intros i Hi.
  now apply Nat.ltb_lt, H.
Qed.

Lemma criticalNumber_of_constructed_nonneg (r : KMCDualStateReaction) (s : KMCDualState) :
  constructed r ->
  sanityCheck r s = true ->
  Forall (fun x => 0 <= x <= T_max) (m_reactiveState s) ->
  Z.of_nat (length (m_lhsReactives r)) <= T_max ->
  Z.of_nat (length (m_rhsReactives r)) <= T_max ->
  0 <= computeCriticalNumberOfReactions r s.
Proof.
  intros Hc Hsane Hpops Hl Hr.
  pose proof (sanityCheck_reactants r s Hsane) as Hin.
  rewrite Hc. unfold computeCriticalNumberOfReactions.
  cbn [create m_reactiveStateChange]. unfold computeReactiveStateChange.
  rewrite criticalLoop_correct by assumption.
  now apply criticalNumber_nonneg.
Qed.

Lemma filter_all (A : Type) (P : A -> bool) (l : list A) :
  (forall x, In x l -> P x = true) -> filter P l = l.
Proof.
  induction l as [|a l IH]; intros H; [reflexivity|].
  cbn [filter]. rewrite (H a (or_introl eq_refl)). f_equal. apply IH.
  intros x Hx. apply H. now right.
Qed.

End DefaultPartition.

(** X11. With [Ncrit <= 0] (the value [define] leaves is [0]) no reaction is
    critical: on a state of non-negative populations, for constructed
    reactions whose species are inside the state, [partitionReactions]
    returns an empty critical list and the whole input list, in order, as
    the non-critical one. *)
Theorem partitionReactions_without_critical_threshold :
  forall (sv : KMCSolver) (a_state : KMCDualState) (a_reactions : ReactionList),
    m_Ncrit sv <= 0 ->
    Forall (fun x => 0 <= x <= T_max) (m_reactiveState a_state) ->
    Forall (fun r => constructed r
                     /\ sanityCheck r a_state = true
                     /\ Z.of_nat (length (m_lhsReactives r)) <= T_max
                     /\ Z.of_nat (length (m_rhsReactives r)) <= T_max) a_reactions ->
    partitionReactions sv a_state a_reactions = ([], a_reactions)
    /\ m_Ncrit (define a_reactions) = 0.
Proof.
  intros sv a_state a_reactions Hn Hpops Hrs. split; [|reflexivity].
  unfold partitionReactions. rewrite partition_loop. cbn [app].
  rewrite Forall_forall in Hrs. f_equal.
  - apply filter_none. intros r Hr. destruct (Hrs r Hr) as (Hc & Hs & Hl & Hrr).
    pose proof (criticalNumber_of_constructed_nonneg r a_state Hc Hs Hpops Hl Hrr).
    apply Z.ltb_ge. lia.
  - apply filter_all. intros r Hr. destruct (Hrs r Hr) as (Hc & Hs & Hl & Hrr).
    pose proof (criticalNumber_of_constructed_nonneg r a_state Hc Hs Hpops Hl Hrr).
    apply negb_true_iff, Z.ltb_ge. lia.
Qed.

Lemma partitionReactions_without_critical_threshold_witness :
  partitionReactions defaultSolver noA twoDecays = ([], twoDecays)
  /\ m_Ncrit (define twoDecays) = 0.
Proof.
  apply (partitionReactions_without_critical_threshold defaultSolver noA twoDecays).
  - cbn. lia.
  - each_entry ltac:(unfold T_max; lia).
  - each_entry ltac:(split; [reflexivity|split; [reflexivity|split; apply Z.leb_le; reflexivity]]).
Defined.

(** ** One SSA step with a positive draw *)

Section PositiveDraw.

Local Open Scope Q_scope.







End PositiveDraw.




(** ** What the drivers can return *)

Section DriverSafety.

Variable log : Q -> Q.
Variable dgesv : nat -> list Q -> list Q -> Z * list Q.

Lemma advanceTau_nothing_to_do (sv : KMCSolver) (fuel : nat) (s : KMCDualState)
      (rs : ReactionList) (dt : Q) (p : KMCLeapPropagator) (g : Rng) :
  rs = [] \/ (dt <= 0)%Q ->
  advanceTau dgesv sv fuel s rs dt p g = Ret (s, g).
Proof.
  intros H. unfold advanceTau, advanceTauWith.
  destruct rs as [|r0 rest]; [reflexivity|].
  destruct H as [H|H]; [discriminate|].
  apply Rltb_false in H. now rewrite H.
Qed.

(** With [m_numSSA <= 0] the SSA loop of [advanceHybrid] does not run. *)
Lemma ssaLoop_disabled (sv : KMCSolver) (rs : ReactionList) (fuel : nat)
      (s : KMCDualState) (curDt : Q) (g g' : Rng) (sd : KMCDualState * Q) :
  m_numSSA sv <= 0 ->
  ssaLoop log sv rs fuel s curDt 0 0 g = Ret (sd, g') ->
  sd = (s, 0%Q) /\ g' = g.
Proof.
  intros Hn Hrun. destruct fuel as [|fuel]; [discriminate|].
  cbn [ssaLoop] in Hrun.
  assert ((0 <? m_numSSA sv) = false) as E by (apply Z.ltb_ge; exact Hn).
  rewrite E, andb_false_r in Hrun. unfold ret in Hrun.
  injection Hrun as <- <-. now split.
Qed.

Lemma hybridLoop_commits_valid_states (sv : KMCSolver) (rs : ReactionList) (dt : Q)
      (propagator : KMCDualState -> ReactionList -> Q -> Comp KMCDualState) (fuel : nat) :
  m_numSSA sv <= 0 ->
  forall (s : KMCDualState) (curTime : Q) (pass : HybridPass) (dtNonCrit : Q)
         (g g' : Rng) (final : KMCDualState),
    isValidState s = true ->
    hybridLoop log sv rs dt propagator fuel s curTime pass dtNonCrit g = Ret (final, g') ->
    isValidState final = true.
Proof.
  intros Hn. induction fuel as [|fuel IH];
    intros s curTime pass dtNonCrit g g' final Hvalid Hrun; [discriminate|].
  assert (forall (s1 : KMCDualState) (t1 : Q) (g1 : Rng),
             isValidState s1 = true ->
             (if Rltb t1 dt
              then pd <- hybridPass log sv s1 rs ;;
                   hybridLoop log sv rs dt propagator fuel s1 t1 (fst pd) (snd pd)
              else ret s1) g1 = Ret (final, g') ->
             isValidState final = true) as Houter.
  { intros s1 t1 g1 Hv1 Hrun1. destruct (Rltb t1 dt).
    - unfold bind in Hrun1.
      destruct (hybridPass log sv s1 rs g1) as [[pd g2]| | |]; try discriminate.
      eapply IH; [exact Hv1|exact Hrun1].
    - unfold ret in Hrun1. injection Hrun1 as <- _. exact Hv1. }
  cbn [hybridLoop] in Hrun. cbv zeta in Hrun.
  destruct (Rltb dtNonCrit (dtCrit pass)
            || Nat.eqb (length (criticalReactions pass)) 0
            || Rltb (dt - curTime) (dtCrit pass)).
  - destruct (Rltb _ (m_SSAlim sv)).
    + unfold bind at 1 in Hrun.
      destruct (ssaLoop log sv rs fuel s _ 0 0 g) as [[sd g1]| | |] eqn:Hssa;
        try discriminate.
      destruct (ssaLoop_disabled sv rs fuel s _ g g1 sd Hn Hssa) as [-> ->].
      cbn [fst snd] in Hrun. eapply Houter; [exact Hvalid|exact Hrun].
    + unfold bind at 1 in Hrun.
      destruct (propagator s (nonCriticalReactions pass) _ g) as [[state g1]| | |];
        try discriminate.
      destruct (isValidState state) eqn:Hstate.
      * eapply Houter; [exact Hstate|exact Hrun].
      * eapply IH; [exact Hvalid|exact Hrun].
  - unfold bind at 1 in Hrun.
    destruct (stepSSA s (criticalReactions pass) (propensitiesCrit pass) g)
      as [[state0 g0]| | |]; try discriminate.
    unfold bind at 1 in Hrun.
    destruct (propagator state0 (nonCriticalReactions pass) _ g0) as [[state g1]| | |];
      try discriminate.
    destruct (isValidState state) eqn:Hstate.
    + eapply Houter; [exact Hstate|exact Hrun].
    + eapply IH; [exact Hvalid|exact Hrun].
Qed.

Lemma advanceHybridWith_commits_valid_states (sv : KMCSolver) (fuel : nat)
      (s : KMCDualState) (rs : ReactionList) (dt : Q)
      (propagator : KMCDualState -> ReactionList -> Q -> Comp KMCDualState)
      (g g' : Rng) (final : KMCDualState) :
  m_numSSA sv <= 0 ->
  isValidState s = true ->
  advanceHybridWith log sv fuel s rs dt propagator g = Ret (final, g') ->
  isValidState final = true.
Proof.
  intros Hn Hvalid Hrun. unfold advanceHybridWith in Hrun. cbv zeta in Hrun.
  destruct (Rltb 0 dt).
  - unfold bind in Hrun.
    destruct (hybridPass log sv s rs g) as [[pd g1]| | |]; try discriminate.
    eapply hybridLoop_commits_valid_states; eauto.
  - unfold ret in Hrun. injection Hrun as <- _. exact Hvalid.
Qed.

(** Every state [stepSSA] returns is one firing of a listed reaction away. *)
Lemma stepSSA_fires_listed (s : KMCDualState) (rs : ReactionList) (props : list Q)
      (g g' : Rng) (s' : KMCDualState) :
  stepSSA s rs props g = Ret (s', g') ->
  s' = s \/ exists r, In r rs /\ s' = advanceState r s 1.
Proof.
  unfold stepSSA. destruct rs as [|r0 rest].
  - unfold ret. intros H. injection H as <- _. now left.
  - unfold bind, getUniformReal01.
    destruct (selectReaction _ _ _ _) as [k|]; [|discriminate].
    destruct (nth_error (r0 :: rest) k) as [r|] eqn:Hr; [|discriminate].
    unfold ret. intros H. injection H as <- _.
    right. exists r. split; [eapply nth_error_In, Hr|reflexivity].
Qed.

Lemma firedFrom_step (rs : ReactionList) (s s' final : KMCDualState) :
  s' = s \/ (exists r, In r rs /\ s' = advanceState r s 1) ->
  firedFrom rs s' final -> firedFrom rs s final.
Proof.
  intros [->|(r & Hr & ->)] H; [exact H|]. eapply fired_once; eassumption.
Qed.

Lemma advanceSSALoop_fires_listed (rs : ReactionList) (dt : Q) (fuel : nat) :
  forall (s : KMCDualState) (curDt : Q) (g g' : Rng) (final : KMCDualState),
    advanceSSALoop log rs dt fuel s curDt g = Ret (final, g') ->
    firedFrom rs s final.
Proof.
  induction fuel as [|fuel IH]; intros s curDt g g' final Hrun; [discriminate|].
  cbn [advanceSSALoop] in Hrun. destruct (Rleb curDt dt).
  - cbv zeta in Hrun. unfold bind at 1 in Hrun.
    destruct (getCriticalTimeStepOfPropensities log _ g) as [[nextDt g1]| | |];
      try discriminate.
    unfold bind at 1 in Hrun.
    destruct (Rleb (curDt + nextDt) dt).
    + destruct (stepSSA s rs (propensities s rs) g1) as [[s1 g2]| | |] eqn:Hstep;
        try discriminate.
      eapply firedFrom_step; [eapply stepSSA_fires_listed, Hstep|].
      eapply IH, Hrun.
    + unfold ret in Hrun. eapply IH, Hrun.
  - unfold ret in Hrun. injection Hrun as <- _. constructor.
Qed.

Lemma firedFrom_sizes (rs : ReactionList) (s final : KMCDualState) :
  firedFrom rs s final ->
  length (m_reactiveState final) = length (m_reactiveState s)
  /\ length (m_nonReactiveState final) = length (m_nonReactiveState s).
Proof.
  induction 1 as [s|s r s' Hr _ [IH1 IH2]]; [now split|].
  unfold advanceState in IH1, IH2. cbn [m_reactiveState m_nonReactiveState] in IH1, IH2.
  rewrite applyChanges_length in IH1, IH2. now split.
Qed.

End DriverSafety.

(** X13. [advanceTau] commits a trial state only after [isValidState] accepted
    it: from a valid state, whatever the leaping scheme, the reaction list,
    the increment and the random draws, a call that returns returns a valid
    state; with an empty reaction list or a non-positive increment it
    returns at once, with the state and the random source untouched. *)
Theorem advanceTau_returns_only_valid_states :
  forall (dgesv : nat -> list Q -> list Q -> Z * list Q)
         (sv : KMCSolver) (fuel : nat) (a_state : KMCDualState)
         (a_reactions : ReactionList) (a_dt : Q) (a_leapPropagator : KMCLeapPropagator)
         (g : Rng),
    isValidState a_state = true ->
    (forall (final : KMCDualState) (g' : Rng),
        advanceTau dgesv sv fuel a_state a_reactions a_dt a_leapPropagator g
        = Ret (final, g') ->
        isValidState final = true)
    /\ (a_reactions = [] \/ (a_dt <= 0)%Q ->
        advanceTau dgesv sv fuel a_state a_reactions a_dt a_leapPropagator g
        = Ret (a_state, g)).
Proof.
  intros dgesv sv fuel a_state a_reactions a_dt p g Hvalid. split.
  - intros final g' Hrun. eapply advanceTau_commits_valid_states; eassumption.
  - apply advanceTau_nothing_to_do.
Qed.

Lemma advanceTau_returns_only_valid_states_witness :
  isValidState (DualState.mkState [7] []) = true.
Proof.
  apply (proj1 (advanceTau_returns_only_valid_states
                  dgesvOrderOne defaultSolver 1 tenA [decayA] 1 ExplicitEuler drawsOfThree
                  eq_refl)
               (DualState.mkState [7] [])
               (mkRng (fun _ => 1 # 2)%Q (fun _ _ => 3) 0 1)).
  vm_compute. reflexivity.
Defined.

(** X14. With [numSSA <= 0] (the value [define] leaves is [0]) the SSA
    fallback of [advanceHybrid] fires nothing, and the driver commits only
    states that [isValidState] accepted: from a valid state, for every
    propagator (given as a function or by one of the four selectors), every
    reaction list, increment and random draws, a call that returns returns
    a valid state; with a non-positive increment it returns at once, with
    the state and the random source untouched. *)
Theorem advanceHybrid_without_SSA_returns_only_valid_states :
  forall (log : Q -> Q) (dgesv : nat -> list Q -> list Q -> Z * list Q)
         (sv : KMCSolver) (fuel : nat) (a_state : KMCDualState)
         (a_reactions : ReactionList) (a_dt : Q) (g g' : Rng) (final : KMCDualState),
    m_numSSA sv <= 0 ->
    isValidState a_state = true ->
    (forall a_propagator : KMCDualState -> ReactionList -> Q -> Comp KMCDualState,
        advanceHybridWith log sv fuel a_state a_reactions a_dt a_propagator g
        = Ret (final, g') ->
        isValidState final = true)
    /\ (forall a_leapPropagator : KMCLeapPropagator,
           advanceHybrid log dgesv sv fuel a_state a_reactions a_dt a_leapPropagator g
           = Ret (final, g') ->
           isValidState final = true)
    /\ ((a_dt <= 0)%Q ->
        forall a_propagator : KMCDualState -> ReactionList -> Q -> Comp KMCDualState,
          advanceHybridWith log sv fuel a_state a_reactions a_dt a_propagator g
          = Ret (a_state, g)).
Proof.
  intros log dgesv sv fuel a_state a_reactions a_dt g g' final Hn Hvalid.
  split; [|split].
  - intros a_propagator Hrun.
    eapply advanceHybridWith_commits_valid_states; eassumption.
  - intros [| | | |tag] Hrun; unfold advanceHybrid in Hrun;
      try (eapply advanceHybridWith_commits_valid_states; eassumption).
    discriminate.
  - intros Hdt a_propagator. unfold advanceHybridWith. cbv zeta.
    apply Rltb_false in Hdt. now rewrite Hdt.
Qed.

Lemma advanceHybrid_without_SSA_returns_only_valid_states_witness :
  isValidState (DualState.mkState [7] []) = true.
Proof.
  apply (proj1 (proj2 (advanceHybrid_without_SSA_returns_only_valid_states
                         (fun _ => 1%Q) dgesvOrderOne defaultSolver 3 tenA [decayA] (1 # 10)
                         drawsOfThree (mkRng (fun _ => 1 # 2)%Q (fun _ _ => 3) 1 1)
                         (DualState.mkState [7] [])
                         ltac:(cbn; lia) eq_refl))
               ExplicitEuler).
  vm_compute. reflexivity.
Defined.

(** X15. [advanceSSA] changes the state only by single firings of listed
    reactions: a call that returns returns a state reached from the input
    by a sequence of such firings, of the same two sizes; with an empty
    reaction list, or a negative increment, it returns the input state at
    once and draws nothing. *)
Theorem advanceSSA_fires_only_listed_reactions :
  forall (log : Q -> Q) (fuel : nat) (a_state : KMCDualState)
         (a_reactions : ReactionList) (a_dt : Q) (g : Rng),
    (forall (final : KMCDualState) (g' : Rng),
        advanceSSA log fuel a_state a_reactions a_dt g = Ret (final, g') ->
        firedFrom a_reactions a_state final
        /\ length (m_reactiveState final) = length (m_reactiveState a_state)
        /\ length (m_nonReactiveState final) = length (m_nonReactiveState a_state))
    /\ advanceSSA log fuel a_state [] a_dt g = Ret (a_state, g)
    /\ ((a_dt < 0)%Q ->
        advanceSSA log (S fuel) a_state a_reactions a_dt g = Ret (a_state, g)).
Proof.
  intros log fuel a_state a_reactions a_dt g. split; [|split].
  - intros final g' Hrun.
    assert (firedFrom a_reactions a_state final) as H.
    { unfold advanceSSA in Hrun. destruct a_reactions as [|r0 rest].
      - unfold ret in Hrun. injection Hrun as <- _. constructor.
      - eapply advanceSSALoop_fires_listed, Hrun. }
    split; [exact H|]. eapply firedFrom_sizes, H.
  - reflexivity.
  - intros Hdt. unfold advanceSSA. destruct a_reactions as [|r0 rest]; [reflexivity|].
    cbn [advanceSSALoop]. apply Rleb_false in Hdt. now rewrite Hdt.
Qed.

Lemma advanceSSA_fires_only_listed_reactions_witness :
  firedFrom [decayA] tenA (DualState.mkState [9] [])
  /\ advanceSSA (fun _ => 1%Q) 1 tenA [decayA] (- (1)) drawsOfHalf = Ret (tenA, drawsOfHalf).
Proof.
  split.
  - apply (proj1 (advanceSSA_fires_only_listed_reactions
                    (fun _ => 1%Q) 3 tenA [decayA] (1 # 10) drawsOfHalf)
                 (DualState.mkState [9] [])
                 (mkRng (fun _ => 1 # 2)%Q (fun _ _ => 0) 3 0)).
    vm_compute. reflexivity.
  - apply (proj2 (proj2 (advanceSSA_fires_only_listed_reactions
                           (fun _ => 1%Q) 0 tenA [decayA] (- (1)) drawsOfHalf))).
    reflexivity.
Defined.

(** ** The explicit leaping schemes *)

Section ExplicitLeaps.

Lemma upd_in_T (v : list Z) (k : nat) (a : Z) :
  Forall in_T v -> Forall in_T (Vec.upd v k (fun x => T_add x a)).
Proof.
  intros H. revert k. induction H as [|x v Hx Hv IH]; intros [|k]; cbn [Vec.upd];
    constructor; auto. apply wrap_in_T.
Qed.

Lemma applyChanges_in_T (m : StdMap.t Z) (n : Z) (st : list Z) :
  Forall in_T st -> Forall in_T (applyChanges m n st).
Proof.
  revert st. induction m as [|s m IH]; intros st H; [exact H|].
  rewrite applyChanges_cons. apply IH. now apply upd_in_T.
Qed.

Lemma applyChanges_zero (m : StdMap.t Z) (st : list Z) :
  Forall in_T st -> applyChanges m 0 st = st.
Proof.
  intros H. induction m as [|s m IH]; [reflexivity|].
  rewrite applyChanges_cons, upd_id_on; [exact IH|].
  intros x Hx. rewrite Forall_forall in H.
  unfold T_add, T_mul. cbn [Z.mul]. change (wrap 0) with 0.
  rewrite Z.add_0_r. apply wrap_small, H, Hx.
Qed.

Lemma advanceState_zero (r : KMCDualStateReaction) (s : KMCDualState) :
  Forall in_T (m_reactiveState s) -> Forall in_T (m_nonReactiveState s) ->
  advanceState r s 0 = s.
Proof.
  intros H1 H2. unfold advanceState. rewrite !applyChanges_zero by assumption.
  now destruct s.
Qed.

Lemma advanceState_shape (r : KMCDualStateReaction) (s : KMCDualState) (n : Z) :
  Forall in_T (m_reactiveState s) -> Forall in_T (m_nonReactiveState s) ->
  length (m_reactiveState (advanceState r s n)) = length (m_reactiveState s)
  /\ length (m_nonReactiveState (advanceState r s n)) = length (m_nonReactiveState s)
  /\ Forall in_T (m_reactiveState (advanceState r s n))
  /\ Forall in_T (m_nonReactiveState (advanceState r s n)).
Proof.
  intros H1 H2. unfold advanceState. cbn [m_reactiveState m_nonReactiveState].
  rewrite !applyChanges_length. repeat split; now apply applyChanges_in_T.
Qed.

Lemma rng_eta (g : Rng) :
  mkRng (uniformOracle g) (poissonOracle g) (uniformCount g) (poissonCount g + 0) = g.
Proof. destruct g. cbn. now rewrite Nat.add_0_r. Qed.

Lemma poissonLoop_runs (a_dt : Q) (l : list (KMCDualStateReaction * Q)) :
  forall (s : KMCDualState) (g : Rng),
    Forall in_T (m_reactiveState s) -> Forall in_T (m_nonReactiveState s) ->
    exists s' : KMCDualState,
      forM (fun st rp =>
              k <- getPoisson (snd rp * a_dt)%Q ;;
              ret (advanceState (fst rp) st (wrap k))) l s g
      = Ret (s', mkRng (uniformOracle g) (poissonOracle g) (uniformCount g)
                       (poissonCount g + length l))
      /\ length (m_reactiveState s') = length (m_reactiveState s)
      /\ length (m_nonReactiveState s') = length (m_nonReactiveState s)
      /\ Forall in_T (m_reactiveState s')
      /\ Forall in_T (m_nonReactiveState s')
      /\ ((forall (n : nat) (mean : Q), poissonOracle g n mean = 0) -> s' = s).
Proof.
  induction l as [|[r p] l IH]; intros s g H1 H2.
  - exists s. cbn [forM length]. unfold ret. rewrite rng_eta. now repeat split.
  - cbn [forM fst snd length]. unfold bind at 1. unfold bind at 1.
    unfold getPoisson at 1. unfold ret at 1.
    set (k := poissonOracle g (poissonCount g) (p * a_dt)%Q).
    set (g1 := mkRng (uniformOracle g) (poissonOracle g) (uniformCount g)
                     (S (poissonCount g))).
    destruct (advanceState_shape r s (wrap k) H1 H2) as (L1 & L2 & T1 & T2).
    destruct (IH (advanceState r s (wrap k)) g1 T1 T2)
      as (s' & Hrun & L1' & L2' & T1' & T2' & Hzero).
    exists s'. split.
    + rewrite Hrun. unfold g1. cbn [uniformOracle poissonOracle uniformCount poissonCount].
      now rewrite Nat.add_succ_r.
    + split; [congruence|]. split; [congruence|]. split; [exact T1'|]. split; [exact T2'|].
      intros Hz. rewrite (Hzero Hz). unfold k. rewrite Hz. change (wrap 0) with 0.
      now apply advanceState_zero.
Qed.

Lemma poissonLoop_draws (s : KMCDualState) (rs : ReactionList) (a : list Q) (a_dt : Q)
      (g : Rng) :
  length a = length rs ->
  Forall in_T (m_reactiveState s) -> Forall in_T (m_nonReactiveState s) ->
  exists s' : KMCDualState,
    poissonLoop s rs a a_dt g
    = Ret (s', mkRng (uniformOracle g) (poissonOracle g) (uniformCount g)
                     (poissonCount g + length rs))
    /\ length (m_reactiveState s') = length (m_reactiveState s)
    /\ length (m_nonReactiveState s') = length (m_nonReactiveState s)
    /\ Forall in_T (m_reactiveState s')
    /\ Forall in_T (m_nonReactiveState s')
    /\ ((forall (n : nat) (mean : Q), poissonOracle g n mean = 0) -> s' = s).
Proof.
  intros Hlen H1 H2. unfold poissonLoop.
  destruct (poissonLoop_runs a_dt (combine rs a) s g H1 H2) as (s' & Hrun & Hrest).
  exists s'. split; [|exact Hrest].
  rewrite Hrun. now rewrite length_combine, Hlen, Nat.min_id.
Qed.

Lemma explicit_step_draws
      (step : KMCDualState -> ReactionList -> Q -> Comp KMCDualState) :
  (forall s dt, step s [] dt = ret s) ->
  (forall s r rs dt, exists a, length a = length (r :: rs)
                               /\ step s (r :: rs) dt = poissonLoop s (r :: rs) a dt) ->
  forall (s : KMCDualState) (rs : ReactionList) (dt : Q) (g : Rng),
    Forall in_T (m_reactiveState s) -> Forall in_T (m_nonReactiveState s) ->
    exists s' : KMCDualState,
      step s rs dt g
      = Ret (s', mkRng (uniformOracle g) (poissonOracle g) (uniformCount g)
                       (poissonCount g + length rs))
      /\ length (m_reactiveState s') = length (m_reactiveState s)
      /\ length (m_nonReactiveState s') = length (m_nonReactiveState s)
      /\ Forall in_T (m_reactiveState s')
      /\ Forall in_T (m_nonReactiveState s')
      /\ ((forall (n : nat) (mean : Q), poissonOracle g n mean = 0) -> s' = s).
Proof.
  intros Hnil Hcons s rs dt g H1 H2. destruct rs as [|r rs].
  - exists s. rewrite Hnil. unfold ret. cbn [length]. rewrite rng_eta. now repeat split.
  - destruct (Hcons s r rs dt) as (a & Hlen & ->).
    now apply poissonLoop_draws.
Qed.

Lemma stepExplicitEuler_draws :
  forall (s : KMCDualState) (rs : ReactionList) (dt : Q) (g : Rng),
    Forall in_T (m_reactiveState s) -> Forall in_T (m_nonReactiveState s) ->
    exists s' : KMCDualState,
      stepExplicitEuler s rs dt g
      = Ret (s', mkRng (uniformOracle g) (poissonOracle g) (uniformCount g)
                       (poissonCount g + length rs))
      /\ length (m_reactiveState s') = length (m_reactiveState s)
      /\ length (m_nonReactiveState s') = length (m_nonReactiveState s)
      /\ Forall in_T (m_reactiveState s')
      /\ Forall in_T (m_nonReactiveState s')
      /\ ((forall (n : nat) (mean : Q), poissonOracle g n mean = 0) -> s' = s).
Proof.
  apply explicit_step_draws; [reflexivity|].
  intros s r rs dt. eexists. split; [|reflexivity].
  unfold propensities. now rewrite length_map.
Qed.

Lemma stepMidpoint_draws :
  forall (s : KMCDualState) (rs : ReactionList) (dt : Q) (g : Rng),
    Forall in_T (m_reactiveState s) -> Forall in_T (m_nonReactiveState s) ->
    exists s' : KMCDualState,
      stepMidpoint s rs dt g
      = Ret (s', mkRng (uniformOracle g) (poissonOracle g) (uniformCount g)
                       (poissonCount g + length rs))
      /\ length (m_reactiveState s') = length (m_reactiveState s)
      /\ length (m_nonReactiveState s') = length (m_nonReactiveState s)
      /\ Forall in_T (m_reactiveState s')
      /\ Forall in_T (m_nonReactiveState s')
      /\ ((forall (n : nat) (mean : Q), poissonOracle g n mean = 0) -> s' = s).
Proof.
  apply explicit_step_draws; [reflexivity|].
  intros s r rs dt. eexists. split; [|reflexivity].
  unfold propensities. now rewrite length_map.
Qed.

Lemma stepPRC_draws :
  forall (s : KMCDualState) (rs : ReactionList) (dt : Q) (g : Rng),
    Forall in_T (m_reactiveState s) -> Forall in_T (m_nonReactiveState s) ->
    exists s' : KMCDualState,
      stepPRC s rs dt g
      = Ret (s', mkRng (uniformOracle g) (poissonOracle g) (uniformCount g)
                       (poissonCount g + length rs))
      /\ length (m_reactiveState s') = length (m_reactiveState s)
      /\ length (m_nonReactiveState s') = length (m_nonReactiveState s)
      /\ Forall in_T (m_reactiveState s')
      /\ Forall in_T (m_nonReactiveState s')
      /\ ((forall (n : nat) (mean : Q), poissonOracle g n mean = 0) -> s' = s).
Proof.
  apply explicit_step_draws; [reflexivity|].
  intros s r rs dt. eexists. split; [|reflexivity].
  unfold propensities. now rewrite length_map, length_combine, length_map, Nat.min_id.
Qed.

End ExplicitLeaps.

(** X16. The three explicit leaping schemes ([stepExplicitEuler],
    [stepMidpoint], [stepPRC]) always return on a state that holds the
    species of the listed reactions: each draws exactly one Poisson number
    per listed reaction and no uniform number, keeps the two sizes of the
    state, and leaves the state unchanged when every draw is zero. *)
Theorem explicit_leaps_draw_once_per_reaction :
  drawsOncePerReaction stepExplicitEuler
  /\ drawsOncePerReaction stepMidpoint
  /\ drawsOncePerReaction stepPRC.
Proof.
  split; [|split]; intros s rs dt g _ H1 H2.
  - destruct (stepExplicitEuler_draws s rs dt g H1 H2) as (s' & E & L1 & L2 & _ & _ & Z).
    exists s'. repeat split; assumption.
  - destruct (stepMidpoint_draws s rs dt g H1 H2) as (s' & E & L1 & L2 & _ & _ & Z).
    exists s'. repeat split; assumption.
  - destruct (stepPRC_draws s rs dt g H1 H2) as (s' & E & L1 & L2 & _ & _ & Z).
    exists s'. repeat split; assumption.
Qed.

Lemma explicit_leaps_draw_once_per_reaction_witness :
  exists s' : KMCDualState,
    stepMidpoint hundredB decayAndConversion 1 drawsOfHalf
    = Ret (s', mkRng (fun _ => 1 # 2)%Q (fun _ _ => 0) 0 2)
    /\ length (m_reactiveState s') = 2%nat
    /\ length (m_nonReactiveState s') = 0%nat
    /\ ((forall (n : nat) (mean : Q), poissonOracle drawsOfHalf n mean = 0) -> s' = hundredB).
Proof.
  apply (proj1 (proj2 explicit_leaps_draw_once_per_reaction)
               hundredB decayAndConversion 1%Q drawsOfHalf).
  - each_entry ltac:(reflexivity).
  - each_entry range.
  - each_entry range.
Defined.

(** ** The edges of the implicit scheme *)

Section ImplicitEdges.

Variable dgesv : nat -> list Q -> list Q -> Z * list Q.
Variable sv : KMCSolver.

(** The explicit scheme never calls the implicit one. *)
Lemma advanceTauLoop_explicit_any
      (i1 i2 : KMCDualState -> ReactionList -> Q -> Comp KMCDualState)
      (rs : ReactionList) (dt : Q) (fuel : nat) :
  forall (s : KMCDualState) (curTime curDt : Q) (g : Rng),
    advanceTauLoop i1 rs dt ExplicitEuler fuel s curTime curDt g
    = advanceTauLoop i2 rs dt ExplicitEuler fuel s curTime curDt g.
Proof.
  induction fuel as [|fuel IH]; intros s curTime curDt g; [reflexivity|].
  cbn [advanceTauLoop tauSwitch]. unfold bind.
  destruct (stepExplicitEuler s rs curDt g) as [[state g1]| | |]; try reflexivity.
  destruct (isValidState state); [destruct (Rltb _ dt)|]; auto.
Qed.

Lemma presample_is_advanceTau (fuel : nat) (s : KMCDualState) (rs : ReactionList)
      (dt : Q) (g : Rng) :
  advanceTauWith (fun _ _ _ => undefined) fuel s rs dt ExplicitEuler g
  = advanceTau dgesv sv fuel s rs dt ExplicitEuler g.
Proof.
  unfold advanceTau, advanceTauWith. destruct rs as [|r0 rest]; [reflexivity|].
  destruct (Rltb 0 dt); [|reflexivity]. apply advanceTauLoop_explicit_any.
Qed.

(** What [stepImplicitEuler] does once the presample has returned. *)
Lemma stepImplicitEuler_after_presample (s : KMCDualState) (rs : ReactionList) (dt : Q)
      (fuel : nat) (g g' : Rng) (e : KMCDualState) :
  advanceTau dgesv sv fuel s rs dt ExplicitEuler g = Ret (e, g') ->
  exists (C : list Q) (initNorm : Q),
    stepImplicitEuler dgesv sv s rs dt fuel g
    = Ret (linearIn s
             (let N := length (linearOut s) in
              let X0 := tabulate N (fun i => 1 * inject_Z (Vec.get (linearOut e) i))%Q in
              let '(X, converged) :=
                newtonLoop dgesv sv s rs dt (Z.to_nat (m_maxIter sv)) initNorm X0 C in
              if converged : bool
              then map (fun i => wrap (llround (rget X i))) (seq 0 N)
              else map (fun _ => wrap (-1)) (seq 0 N)), g').
Proof.
  intros Hpre. rewrite <- presample_is_advanceTau in Hpre.
  unfold stepImplicitEuler, newtonSolve, compConstantTerm.
  unfold bind. rewrite Hpre. cbv zeta.
  eexists. eexists.
  destruct (newtonLoop _ _ _ _ _ _ _ _ _) as [X converged] eqn:Hloop.
  unfold ret. rewrite Hloop. reflexivity.
Qed.

Lemma map_const_seq (A : Type) (l : list A) (c : Z) (k : nat) (lin : list Z) :
  (forall i, (i < length l)%nat -> Vec.get lin (k + i) = c) ->
  map (fun i => Vec.get lin (k + i)) (seq 0 (length l)) = map (fun _ => c) l.
Proof.
  revert k. induction l as [|a l IH]; intros k H; [reflexivity|].
  cbn [length seq map]. f_equal.
  - apply H. cbn. lia.
  - rewrite <- seq_shift, map_map. rewrite <- (IH (S k)).
    + apply map_ext. intros i. f_equal. lia.
    + intros i Hi. rewrite Nat.add_succ_l, <- Nat.add_succ_r. apply H. cbn. lia.
Qed.

Lemma get_const (N : nat) (c : Z) (i : nat) :
  (i < N)%nat -> Vec.get (map (fun _ => c) (seq 0 N)) i = c.
Proof.
  intros Hi. unfold Vec.get.
  rewrite (nth_indep _ 0 c) by now rewrite length_map, length_seq.
  exact (map_nth (fun _ : nat => c) (seq 0 N) 0%nat i).
Qed.

Lemma linearIn_sentinel (s : KMCDualState) :
  linearIn s (map (fun _ => wrap (-1)) (seq 0 (length (linearOut s)))) = sentinel s.
Proof.
  unfold linearIn, sentinel, m_numReactiveSpecies, m_numNonReactiveSpecies.
  assert (length (linearOut s)
          = (length (m_reactiveState s) + length (m_nonReactiveState s))%nat) as ->
      by (unfold linearOut; cbn [app]; apply length_app).
  change (wrap (-1)) with (-1). f_equal.
  - apply (map_const_seq Z (m_reactiveState s) (-1) 0).
    intros i Hi. apply get_const. cbn. lia.
  - apply (map_const_seq Z (m_nonReactiveState s) (-1)).
    intros i Hi. apply get_const. lia.
Qed.

Lemma sentinel_invalid (s : KMCDualState) :
  linearOut s <> [] -> isValidState (sentinel s) = false.
Proof.
  intros Hne. destruct (isValidState (sentinel s)) eqn:E; [|reflexivity].
  exfalso. apply isValidState_split in E. destruct E as [E1 E2].
  unfold sentinel in E1, E2. cbn [m_reactiveState m_nonReactiveState] in E1, E2.
  unfold linearOut in Hne. cbn [app] in Hne.
  revert Hne E1 E2.
  destruct (m_reactiveState s) as [|x l]; destruct (m_nonReactiveState s) as [|y l'];
    cbn [map app]; intros Hne E1 E2; try congruence;
    try (inversion E1; lia); inversion E2; lia.
Qed.

(** The first Newton system of a step cannot be solved: the loop is left
    with [converged = false] and the iterate untouched. *)
Lemma newtonLoop_gives_up (s : KMCDualState) (rs : ReactionList) (dt : Q)
      (initNorm : Q) (X C : list Q) :
  1 <= m_maxIter sv ->
  fst (dgesv (length (linearOut s)) (jacobian sv s rs dt X C) (computeF sv s rs dt X C))
  <> 0 ->
  newtonLoop dgesv sv s rs dt (Z.to_nat (m_maxIter sv)) initNorm X C = (X, false).
Proof.
  intros Hiter Hinfo.
  destruct (Z.to_nat (m_maxIter sv)) as [|k] eqn:Hk; [lia|].
  cbn [newtonLoop]. cbv zeta.
  destruct (dgesv _ _ _) as [INFO F] eqn:Hsolve.
  cbn [fst] in Hinfo. apply Z.eqb_neq in Hinfo. now rewrite Hinfo.
Qed.

Lemma stepImplicitEuler_writes_sentinel (s : KMCDualState) (rs : ReactionList) (dt : Q)
      (fuel : nat) (g g' : Rng) (C X : list Q) :
  1 <= m_maxIter sv ->
  compConstantTerm s rs dt fuel s g = Ret ((C, X), g') ->
  fst (dgesv (length (linearOut s)) (jacobian sv s rs dt X C) (computeF sv s rs dt X C))
  <> 0 ->
  stepImplicitEuler dgesv sv s rs dt fuel g = Ret (sentinel s, g').
Proof.
  intros Hiter Hcomp Hinfo.
  unfold stepImplicitEuler, newtonSolve. unfold bind. rewrite Hcomp.
  cbv zeta. rewrite (newtonLoop_gives_up s rs dt _ X C Hiter Hinfo).
  unfold ret. now rewrite linearIn_sentinel.
Qed.

(** The trial is discarded: the loop of [advanceTau] goes on from the same
    state and time with half the step. *)
Lemma advanceTauLoop_rejects_sentinel (s : KMCDualState) (rs : ReactionList)
      (a_dt curTime dt : Q) (fuel n : nat) (g g' : Rng) (C X : list Q) :
  1 <= m_maxIter sv ->
  linearOut s <> [] ->
  compConstantTerm s rs dt fuel s g = Ret ((C, X), g') ->
  fst (dgesv (length (linearOut s)) (jacobian sv s rs dt X C) (computeF sv s rs dt X C))
  <> 0 ->
  advanceTauLoop (fun s r dt => stepImplicitEuler dgesv sv s r dt fuel)
                 rs a_dt ImplicitEuler (S n) s curTime dt g
  = advanceTauLoop (fun s r dt => stepImplicitEuler dgesv sv s r dt fuel)
                   rs a_dt ImplicitEuler n s curTime (dt * (1 # 2))%Q g'.
Proof.
  intros Hiter Hne Hcomp Hinfo.
  cbn [advanceTauLoop tauSwitch]. unfold bind.
  rewrite (stepImplicitEuler_writes_sentinel s rs dt fuel g g' C X Hiter Hcomp Hinfo).
  now rewrite (sentinel_invalid s Hne).
Qed.

End ImplicitEdges.

(** X17. When LAPACK cannot solve the first Newton system of a step ([dgesv]
    reports [INFO <> 0] on the Jacobian and the residual at the presampled
    state) and at least one iteration is allowed, [stepImplicitEuler]
    writes the sentinel [-1] into every entry. On a state with at least one
    species the sentinel is rejected by [isValidState], and the trial loop
    of [advanceTau] discards the trial: it goes on from the same state and
    the same time with half the step. *)
Theorem stepImplicitEuler_unsolvable_system_gives_sentinel :
  forall (dgesv : nat -> list Q -> list Q -> Z * list Q) (sv : KMCSolver)
         (a_state : KMCDualState) (a_reactions : ReactionList) (a_dt : Q)
         (fuel : nat) (g g' : Rng) (C X : list Q),
    1 <= m_maxIter sv ->
    compConstantTerm a_state a_reactions a_dt fuel a_state g = Ret ((C, X), g') ->
    fst (dgesv (length (linearOut a_state))
               (jacobian sv a_state a_reactions a_dt X C)
               (computeF sv a_state a_reactions a_dt X C)) <> 0 ->
    stepImplicitEuler dgesv sv a_state a_reactions a_dt fuel g
    = Ret (sentinel a_state, g')
    /\ (linearOut a_state <> [] ->
        isValidState (sentinel a_state) = false
        /\ forall (total curTime : Q) (n : nat),
            advanceTauLoop (fun s r dt => stepImplicitEuler dgesv sv s r dt fuel)
                           a_reactions total ImplicitEuler (S n) a_state curTime a_dt g
            = advanceTauLoop (fun s r dt => stepImplicitEuler dgesv sv s r dt fuel)
                             a_reactions total ImplicitEuler n a_state curTime
                             (a_dt * (1 # 2))%Q g').
Proof.
  intros dgesv sv a_state a_reactions a_dt fuel g g' C X Hiter Hcomp Hinfo.
  split.
  - eapply stepImplicitEuler_writes_sentinel; eassumption.
  - intros Hne. split; [now apply sentinel_invalid|].
    intros total curTime n. eapply advanceTauLoop_rejects_sentinel; eassumption.
Qed.

Lemma stepImplicitEuler_unsolvable_system_gives_sentinel_witness :
  stepImplicitEuler dgesvOrderOne (define [duplication]) tenA [duplication] 1 1 drawsOfThree
  = Ret (sentinel tenA, mkRng (fun _ => 1 # 2)%Q (fun _ _ => 3) 0 1).
Proof.
  refine (proj1 (stepImplicitEuler_unsolvable_system_gives_sentinel
                   dgesvOrderOne (define [duplication]) tenA [duplication] 1 1 drawsOfThree
                   (mkRng (fun _ => 1 # 2)%Q (fun _ _ => 3) 0 1) [3%Q] [13%Q] _ _ _)).
  - cbn. lia.
  - vm_compute. reflexivity.
  - vm_compute. discriminate.
Defined.

Section NoIterations.

Variable dgesv : nat -> list Q -> list Q -> Z * list Q.
Variable sv : KMCSolver.

Lemma Qmult_one_inject (z : Z) : (1 * inject_Z z)%Q = inject_Z z.
Proof. unfold Qmult, inject_Z. cbn [Qnum Qden]. now destruct z. Qed.

Lemma llround_inject (z : Z) : llround (1 * inject_Z z)%Q = z.
Proof.
  rewrite Qmult_one_inject. unfold llround.
  destruct (Rltb (inject_Z z) 0) eqn:E.
  - unfold Qceiling.
    pose proof (Qfloor_le (- (inject_Z z - (1 # 2)))) as Hlo.
    pose proof (Qlt_floor (- (inject_Z z - (1 # 2)))) as Hhi.
    set (f := Qfloor (- (inject_Z z - (1 # 2)))) in *.
    rewrite inject_Z_plus in Hhi. change (inject_Z 1) with 1%Q in Hhi.
    assert (inject_Z f < inject_Z (- z + 1))%Q as H1
        by (rewrite inject_Z_plus, inject_Z_opp; change (inject_Z 1) with 1%Q; lra).
    assert (inject_Z (- z - 1) < inject_Z f)%Q as H2
        by (unfold Z.sub; rewrite inject_Z_plus, inject_Z_opp;
            change (inject_Z (- (1))) with (- (1))%Q; lra).
    rewrite <- Zlt_Qlt in H1, H2. lia.
  - pose proof (Qfloor_le (inject_Z z + (1 # 2))) as Hlo.
    pose proof (Qlt_floor (inject_Z z + (1 # 2))) as Hhi.
    set (f := Qfloor (inject_Z z + (1 # 2))) in *.
    rewrite inject_Z_plus in Hhi. change (inject_Z 1) with 1%Q in Hhi.
    assert (inject_Z f < inject_Z (z + 1))%Q as H1
        by (rewrite inject_Z_plus; change (inject_Z 1) with 1%Q; lra).
    assert (inject_Z (z - 1) < inject_Z f)%Q as H2
        by (unfold Z.sub; rewrite inject_Z_plus;
            change (inject_Z (- (1))) with (- (1))%Q; lra).
    rewrite <- Zlt_Qlt in H1, H2. lia.
Qed.

Lemma rget_tabulate (N : nat) (f : nat -> Q) (i : nat) :
  (i < N)%nat -> rget (tabulate N f) i = f i.
Proof.
  intros Hi. unfold rget, tabulate.
  rewrite (nth_indep _ 0%Q (f 0%nat)) by now rewrite length_map, length_seq.
  rewrite map_nth, seq_nth by assumption. reflexivity.
Qed.

Lemma map_get_all (l : list Z) : map (fun i => Vec.get l i) (seq 0 (length l)) = l.
Proof.
  pose proof (tabulate_get l 0 [] [] eq_refl) as H. cbn [app] in H.
  rewrite app_nil_r in H. exact H.
Qed.

Lemma linearIn_same_sizes (s e : KMCDualState) (lin : list Z) :
  length (m_reactiveState e) = length (m_reactiveState s) ->
  length (m_nonReactiveState e) = length (m_nonReactiveState s) ->
  linearIn s lin = linearIn e lin.
Proof.
  intros H1 H2. unfold linearIn, m_numReactiveSpecies, m_numNonReactiveSpecies.
  now rewrite H1, H2.
Qed.

(** The explicit advance keeps the two sizes of the state. *)
Lemma advanceTauLoop_explicit_sizes
      (implicit : KMCDualState -> ReactionList -> Q -> Comp KMCDualState)
      (rs : ReactionList) (dt : Q) (nR nN : nat) (fuel : nat) :
  forall (s : KMCDualState) (curTime curDt : Q) (g g' : Rng) (e : KMCDualState),
    Forall in_T (m_reactiveState s) -> Forall in_T (m_nonReactiveState s) ->
    length (m_reactiveState s) = nR -> length (m_nonReactiveState s) = nN ->
    advanceTauLoop implicit rs dt ExplicitEuler fuel s curTime curDt g = Ret (e, g') ->
    length (m_reactiveState e) = nR /\ length (m_nonReactiveState e) = nN.
Proof.
  induction fuel as [|fuel IH]; intros s curTime curDt g g' e T1 T2 L1 L2 Hrun;
    [discriminate|].
  cbn [advanceTauLoop tauSwitch] in Hrun. unfold bind in Hrun.
  destruct (stepExplicitEuler_draws s rs curDt g T1 T2)
    as (s' & Hstep & L1' & L2' & T1' & T2' & _).
  rewrite Hstep in Hrun.
  destruct (isValidState s').
  - destruct (Rltb _ dt).
    + eapply (IH s'); [exact T1'|exact T2'|congruence|congruence|exact Hrun].
    + unfold ret in Hrun. injection Hrun as <- _. split; congruence.
  - eapply (IH s); eassumption.
Qed.

Lemma advanceTau_explicit_sizes (fuel : nat) (s : KMCDualState) (rs : ReactionList)
      (dt : Q) (g g' : Rng) (e : KMCDualState) :
  Forall in_T (m_reactiveState s) -> Forall in_T (m_nonReactiveState s) ->
  advanceTau dgesv sv fuel s rs dt ExplicitEuler g = Ret (e, g') ->
  length (m_reactiveState e) = length (m_reactiveState s)
  /\ length (m_nonReactiveState e) = length (m_nonReactiveState s).
Proof.
  intros T1 T2 Hrun. unfold advanceTau, advanceTauWith in Hrun.
  destruct rs as [|r0 rest].
  - unfold ret in Hrun. injection Hrun as <- _. now split.
  - destruct (Rltb 0 dt).
    + eapply advanceTauLoop_explicit_sizes; eauto.
    + unfold ret in Hrun. injection Hrun as <- _. now split.
Qed.

Lemma stepImplicitEuler_no_iterations (s : KMCDualState) (rs : ReactionList) (dt : Q)
      (fuel : nat) (g g' : Rng) (e : KMCDualState) :
  m_maxIter sv <= 0 ->
  Forall in_T (m_reactiveState s) -> Forall in_T (m_nonReactiveState s) ->
  advanceTau dgesv sv fuel s rs dt ExplicitEuler g = Ret (e, g') ->
  Forall (fun x => Z.abs x <= 2 ^ 53) (linearOut e) ->
  stepImplicitEuler dgesv sv s rs dt fuel g = Ret (e, g').
Proof.
  intros Hiter T1 T2 Hpre Hexact.
  destruct (advanceTau_explicit_sizes fuel s rs dt g g' e T1 T2 Hpre) as [L1 L2].
  destruct (stepImplicitEuler_after_presample dgesv sv s rs dt fuel g g' e Hpre)
    as (C & initNorm & ->).
  assert (Z.to_nat (m_maxIter sv) = 0%nat) as -> by lia.
  cbn [newtonLoop]. cbv zeta. f_equal. f_equal.
  assert (length (linearOut s) = length (linearOut e)) as ->
      by (unfold linearOut; cbn [app]; rewrite !length_app; congruence).
  rewrite (linearIn_same_sizes s e) by assumption.
  transitivity (linearIn e (linearOut e)); [f_equal|apply linearIn_linearOut_id].
  transitivity (map (fun i => Vec.get (linearOut e) i) (seq 0 (length (linearOut e))));
    [|apply map_get_all].
  apply map_ext_in. intros i Hi. apply in_seq in Hi.
  rewrite rget_tabulate by lia. rewrite llround_inject.
  apply wrap_small.
  pose proof (get_Forall _ _ i Hexact ltac:(lia)) as Hx. cbn beta in Hx.
  unfold in_T, T_min, T_max. lia.
Qed.

End NoIterations.

(** X18. With [maxIter <= 0] the Newton loop of [stepImplicitEuler] is not
    entered and [converged] keeps its initial value [true]: the step
    returns the state of its presampling step (an explicit-Euler
    [advanceTau] over the same increment), rounded back entry by entry,
    which is that state itself when every entry is at most [2^53] in
    absolute value (exactly representable as a [double]). *)
Theorem stepImplicitEuler_without_iterations_is_explicit :
  forall (dgesv : nat -> list Q -> list Q -> Z * list Q) (sv : KMCSolver)
         (a_state : KMCDualState) (a_reactions : ReactionList) (a_dt : Q)
         (fuel : nat) (g g' : Rng) (e : KMCDualState),
    m_maxIter sv <= 0 ->
    Forall (fun r => sanityCheck r a_state = true) a_reactions ->
    Forall in_T (m_reactiveState a_state) ->
    Forall in_T (m_nonReactiveState a_state) ->
    advanceTau dgesv sv fuel a_state a_reactions a_dt ExplicitEuler g = Ret (e, g') ->
    Forall (fun x => Z.abs x <= 2 ^ 53) (linearOut e) ->
    stepImplicitEuler dgesv sv a_state a_reactions a_dt fuel g = Ret (e, g').
Proof.
  intros dgesv sv a_state a_reactions a_dt fuel g g' e Hiter _ T1 T2 Hpre Hexact.
  now apply stepImplicitEuler_no_iterations.
Qed.

Lemma stepImplicitEuler_without_iterations_is_explicit_witness :
  stepImplicitEuler dgesvOrderOne (cappedSolver 0) tenA [decayA] 1 1 drawsOfThree
  = Ret (DualState.mkState [7] [], mkRng (fun _ => 1 # 2)%Q (fun _ _ => 3) 0 1).
Proof.
  apply (stepImplicitEuler_without_iterations_is_explicit
           dgesvOrderOne (cappedSolver 0) tenA [decayA] 1 1 drawsOfThree).
  - cbn. lia.
  - each_entry ltac:(reflexivity).
  - each_entry range.
  - each_entry range.
  - vm_compute. reflexivity.
  - each_entry ltac:(cbn; lia).
Defined.

(** ** Total propensity *)

Section TotalPropensity.

Local Open Scope Q_scope.




End TotalPropensity.


